(** * Alien4 audio engine: slice detector, voice pool, render loop, reverb, EQ

    Shallow embedding of
      - [related_projects/VAV_AudioEngine/src/alien4_engine.hpp]
      - [related_projects/VAV_AudioEngine/src/ripley/reverb_processor.hpp]
      - [related_projects/VAV_AudioEngine/src/three_band_eq.hpp]
      - [.../src_backup_20251114_113049/ripley/stereo_delay.hpp]
    C++ [float] is IEEE binary32, modelled by [spec_float] with the
    operations of [SpecFloat] at precision 24 and maximal exponent 128.
    C++ [int] values stay far from the 32-bit bounds in this code and are
    modelled by [Z]. *)

From Stdlib Require Import ZArith Lia List Bool Reals Lra.
From Corelib Require Import SpecFloat.
From stdpp Require Import gmap list.

Local Open Scope Z_scope.

(** ** Binary32 arithmetic *)

Module F32.

Definition float := spec_float.

Definition prec : Z := 24.
Definition emax : Z := 128.

Definition add : float -> float -> float := SFadd prec emax.
Definition sub : float -> float -> float := SFsub prec emax.
Definition mul : float -> float -> float := SFmul prec emax.
Definition div : float -> float -> float := SFdiv prec emax.
Definition sqrt : float -> float := SFsqrt prec emax.
Definition abs : float -> float := SFabs.
Definition opp : float -> float := SFopp.

(** The four comparisons: every one is [false] as soon as an operand is NaN. *)
Definition lt (a b : float) : bool := SFltb a b.
Definition le (a b : float) : bool := SFleb a b.
Definition gt (a b : float) : bool := SFltb b a.
Definition ge (a b : float) : bool := SFleb b a.

(** [(float)z] for an [int] [z]. *)
Definition of_int (z : Z) : float := binary_normalize prec emax z 0 false.

(** The literal [n / 10^k] written in decimal in the source, correctly
    rounded (both [n] and [10^k] are exact in binary32 for the literals of
    this code, so one rounded division gives the nearest float). *)
Definition lit (n : Z) (k : Z) : float := div (of_int n) (of_int (10 ^ k)).


(** The decimal literals of the sources, each evaluated once. *)
Definition c0_001 : float := Eval vm_compute in lit 1 3.
Definition c0_01 : float := Eval vm_compute in lit 1 2.
Definition c0_05 : float := Eval vm_compute in lit 5 2.
Definition c0_1 : float := Eval vm_compute in lit 1 1.
Definition c0_25 : float := Eval vm_compute in lit 25 2.
Definition c0_3 : float := Eval vm_compute in lit 3 1.
Definition c0_4 : float := Eval vm_compute in lit 4 1.
Definition c0_485 : float := Eval vm_compute in lit 485 3.
Definition c0_5 : float := Eval vm_compute in lit 5 1.
Definition c0_6 : float := Eval vm_compute in lit 6 1.
Definition c0_9 : float := Eval vm_compute in lit 9 1.
Definition c0_95 : float := Eval vm_compute in lit 95 2.
Definition c0_995 : float := Eval vm_compute in lit 995 3.
Definition c1 : float := Eval vm_compute in of_int 1.
Definition c1_4 : float := Eval vm_compute in lit 14 1.
Definition c2 : float := Eval vm_compute in of_int 2.
Definition c4 : float := Eval vm_compute in of_int 4.
Definition c8 : float := Eval vm_compute in of_int 8.
Definition c10 : float := Eval vm_compute in of_int 10.
Definition c16 : float := Eval vm_compute in of_int 16.
Definition c100 : float := Eval vm_compute in of_int 100.
Definition c1000 : float := Eval vm_compute in of_int 1000.

Definition zero : float := S754_zero false.
Definition nan : float := S754_nan.
Definition pinf : float := S754_infinity false.

(** The float of a given IEEE 754 binary32 encoding. *)
Definition of_bits (b : Z) : float :=
  let s := Z.testbit b 31 in
  let ex := Z.land (Z.shiftr b 23) 255 in
  let m := Z.land b (2 ^ 23 - 1) in
  if ex =? 255 then (if m =? 0 then S754_infinity s else S754_nan)
  else if ex =? 0 then
    match m with Zpos p => S754_finite s p (-149) | _ => S754_zero s end
  else
    match m + 2 ^ 23 with Zpos p => S754_finite s p (ex - 150) | _ => S754_zero s end.

(** [std::isfinite]. *)
Definition is_finite (x : float) : bool :=
  match x with
  | S754_zero _ | S754_finite _ _ _ => true
  | S754_infinity _ | S754_nan => false
  end.

Definition INT_MIN : Z := - 2 ^ 31.
Definition INT_MAX : Z := 2 ^ 31 - 1.

(** [(int)x]: truncation toward zero.  The conversion of a NaN, an
    infinity or a value outside [int] is undefined in C++; the model takes
    what the x86-64 conversion instruction delivers there, [INT_MIN]. *)
Definition to_int (x : float) : Z :=
  match x with
  | S754_zero _ => 0
  | S754_finite s m e =>
      let z := Z.shiftl (Zpos m) e in
      let z := if s then - z else z in
      if (INT_MIN <=? z) && (z <=? INT_MAX) then z else INT_MIN
  | S754_infinity _ | S754_nan => INT_MIN
  end.

(** [std::round]: to the nearest integer, halfway cases away from zero. *)
Definition round (x : float) : float :=
  match x with
  | S754_finite s m e =>
      if 0 <=? e then x
      else
        let q := Z.shiftl (Zpos m) e in
        let r := if Z.testbit (Zpos m) (- e - 1) then q + 1 else q in
        binary_normalize prec emax (if s then - r else r) 0 s
  | _ => x
  end.

(** [std::min(a, b)] is [(b < a) ? b : a] and [std::max(a, b)] is
    [(a < b) ? b : a]. *)
Definition min (a b : float) : float := if lt b a then b else a.
Definition max (a b : float) : float := if lt a b then b else a.

(** The engine's [clamp(value, min, max)] template at [float]. *)
Definition clamp (value lo hi : float) : float := max lo (min value hi).

End F32.

Abbreviation float := F32.float.

(** [clamp] at [int], with [std::min] and [std::max] on [int]. *)
Definition clampZ (value lo hi : Z) : Z := Z.max lo (Z.min value hi).

(** ** [std::vector<float>] of a fixed size, zero-filled

    The loop, staging, delay and reverb buffers are resized once with zeros
    and then only read and written by index.  A buffer is its size and the
    cells written so far; a cell never written reads as [0.0f]. *)

Record fvec := { fv_size : Z; fv_data : gmap Z float }.

Definition fv_zeros (n : Z) : fvec := {| fv_size := n; fv_data := ∅ |}.

Definition fv_get (v : fvec) (i : Z) : float :=
  default F32.zero (fv_data v !! i).

Definition fv_set (v : fvec) (i : Z) (x : float) : fvec :=
  {| fv_size := fv_size v; fv_data := <[ i := x ]> (fv_data v) |}.

(** ** Slices and voices *)

Record Slice := {
  startSample : Z;
  endSample : Z;
  peakAmplitude : float;
  active : bool
}.

Module Voice.
Record t := {
  sliceIndex : Z;
  playbackPosition : Z;
  playbackPhase : float;
  speedMultiplier : float
}.
(** The default member initialisers of [struct Voice]. *)
Definition fresh : t :=
  {| sliceIndex := 0; playbackPosition := 0;
     playbackPhase := F32.zero; speedMultiplier := F32.c1 |}.
End Voice.

(** *** [std::vector<Slice>] operations used by the detector *)

Definition pop_back {A} (l : list A) : list A := removelast l.

Definition push_back {A} (l : list A) (x : A) : list A := l ++ [x].

(** [l.back() = f(l.back())]; on an empty vector the source never does it. *)
Definition upd_back {A} (f : A -> A) (l : list A) : list A :=
  match last l with
  | Some x => pop_back l ++ [f x]
  | None => l
  end.

Definition set_endSample (e : Z) (s : Slice) : Slice :=
  {| startSample := startSample s; endSample := e;
     peakAmplitude := peakAmplitude s; active := active s |}.

Definition set_peakAmplitude (p : float) (s : Slice) : Slice :=
  {| startSample := startSample s; endSample := endSample s;
     peakAmplitude := p; active := active s |}.

(** [Slice newSlice; newSlice.startSample = pos; newSlice.active = true;
     newSlice.peakAmplitude = 0.0f;] *)
Definition newSlice (pos : Z) : Slice :=
  {| startSample := pos; endSample := 0;
     peakAmplitude := F32.zero; active := true |}.

(** [!v.empty() && v.back().active && v.back().endSample == 0] *)
Definition back_open (l : list Slice) : bool :=
  match last l with
  | Some b => active b && (endSample b =? 0)
  | None => false
  end.

(** [v.empty() || v.back().endSample > 0] *)
Definition back_closed_or_empty (l : list Slice) : bool :=
  match last l with
  | Some b => 0 <? endSample b
  | None => true
  end.

(** The block both detectors run on an open last slice: close it at
    [upto - 1] when [upto - start >= minSliceSamples], drop it otherwise. *)
Definition close_or_drop (minSliceSamples upto : Z) (l : list Slice) : list Slice :=
  match last l with
  | Some b =>
      let sliceLength := upto - startSample b in
      if minSliceSamples <=? sliceLength
      then upd_back (set_endSample (upto - 1)) l
      else pop_back l
  | None => l
  end.

(** [back().peakAmplitude = std::max(back().peakAmplitude, currentAmp)]
    under [back_open]. *)
Definition track_peak (currentAmp : float) (l : list Slice) : list Slice :=
  if back_open l
  then upd_back (fun b => set_peakAmplitude (F32.max (peakAmplitude b) currentAmp) b) l
  else l.

(** *** The batch detector: the loop of [rescanSlices] (lines 139-166) *)

Definition rescan_iter (threshold : float) (minSliceSamples : Z) (buf : fvec)
    (acc : list Slice * float) (pos : Z) : list Slice * float :=
  let '(slices, lastAmp) := acc in
  let currentAmp := F32.abs (fv_get buf pos) in
  let slices :=
    if F32.lt lastAmp threshold && F32.ge currentAmp threshold then
      let slices :=
        (* if (!slices.empty() && slices.back().active) *)
        match last slices with
        | Some b => if active b
                    then close_or_drop minSliceSamples pos slices
                    else slices
        | None => slices
        end in
      if back_closed_or_empty slices
      then push_back slices (newSlice pos)
      else slices
    else slices in
  (track_peak currentAmp slices, currentAmp).

(** Lines 168-175: the slice still open at the end of the buffer. *)
Definition close_last (minSliceSamples len : Z) (l : list Slice) : list Slice :=
  if back_open l then close_or_drop minSliceSamples len l else l.

(** Lines 135-175 as a function of the buffer: [slices.clear()], the loop
    over [0 <= pos < recordedLength], and the closing of the last slice. *)
Definition detect_slices (threshold : float) (minSliceSamples : Z)
    (buf : fvec) (recordedLength : Z) : list Slice :=
  let '(slices, _) :=
    fold_left (rescan_iter threshold minSliceSamples buf)
              (seqZ 0 recordedLength) ([], F32.zero) in
  close_last minSliceSamples recordedLength slices.

(** A buffer of [len] zeros, except [1.0f] on [lo .. hi]. *)
Definition pulse_buffer (len lo hi : Z) : fvec :=
  fold_left (fun v i => fv_set v i (F32.c1)) (seqZ lo (hi - lo + 1))
            (fv_zeros len).


(** ** The math library

    [std::pow], [std::tanh], [std::sin] and [std::cos] are the platform's
    libm; their values are not fixed by the language.  Everything below is
    stated for an arbitrary libm. *)

Record Libm := {
  powf : float -> float -> float;
  tanhf : float -> float;
  sinf : float -> float;
  cosf : float -> float
}.

(** ** Three-band equaliser ([three_band_eq.hpp])

    The filter is written over the arithmetic operations it uses; the
    program is its reading at binary32 ([arithF]). *)

Record Arith (T : Type) := {
  a_add : T -> T -> T;
  a_sub : T -> T -> T;
  a_mul : T -> T -> T;
  a_div : T -> T -> T;
  a_sqrt : T -> T;
  a_sin : T -> T;
  a_cos : T -> T;
  a_pow : T -> T -> T;
  a_min : T -> T -> T;          (* std::min *)
  a_max : T -> T -> T;          (* std::max *)
  a_lit : Z -> Z -> T;          (* the decimal literal n / 10^k *)
  a_w0 : T -> T -> T            (* 2.0f * M_PI * freq / sampleRate *)
}.
Arguments a_add {T}. Arguments a_sub {T}. Arguments a_mul {T}.
Arguments a_div {T}. Arguments a_sqrt {T}. Arguments a_sin {T}.
Arguments a_cos {T}. Arguments a_pow {T}. Arguments a_min {T}.
Arguments a_max {T}. Arguments a_lit {T}. Arguments a_w0 {T}.

Module EQ.
Section WithArith.
Context {T : Type} (A : Arith T).

Local Notation "x + y" := (a_add A x y).
Local Notation "x - y" := (a_sub A x y).
Local Notation "x * y" := (a_mul A x y).
Local Notation "x / y" := (a_div A x y).
Local Notation "# n" := (a_lit A n 0) (at level 5, n at level 0).

Record BiquadCoeffs := { b0 : T; b1 : T; b2 : T; a1 : T; a2 : T }.

Record BiquadState := {
  x1 : T; x2 : T; y1 : T; y2 : T;         (* left channel *)
  x1r : T; x2r : T; y1r : T; y2r : T      (* right channel *)
}.

Definition BiquadState0 : BiquadState :=
  {| x1 := #0; x2 := #0; y1 := #0; y2 := #0;
     x1r := #0; x2r := #0; y1r := #0; y2r := #0 |}.

Record t := {
  sampleRate : T;
  lowShelf : BiquadCoeffs; midPeak : BiquadCoeffs; highShelf : BiquadCoeffs;
  lowState : BiquadState; midState : BiquadState; highState : BiquadState;
  lowGain : T; midGain : T; highGain : T
}.

Definition calculateLowShelf (sampleRate freq gain : T) : BiquadCoeffs :=
  let w0 := a_w0 A freq sampleRate in
  let A_ := a_pow A #10 (gain / #40) in
  let S := #1 in
  let alpha := a_sin A w0 / #2 * a_sqrt A ((A_ + #1 / A_) * (#1 / S - #1) + #2) in
  let cos_w0 := a_cos A w0 in
  let b0 := A_ * ((A_ + #1) - (A_ - #1) * cos_w0 + #2 * a_sqrt A A_ * alpha) in
  let b1 := #2 * A_ * ((A_ - #1) - (A_ + #1) * cos_w0) in
  let b2 := A_ * ((A_ + #1) - (A_ - #1) * cos_w0 - #2 * a_sqrt A A_ * alpha) in
  let a0 := (A_ + #1) + (A_ - #1) * cos_w0 + #2 * a_sqrt A A_ * alpha in
  let a1 := #(-2) * ((A_ - #1) + (A_ + #1) * cos_w0) / a0 in
  let a2 := ((A_ + #1) + (A_ - #1) * cos_w0 - #2 * a_sqrt A A_ * alpha) / a0 in
  {| b0 := b0 / a0; b1 := b1 / a0; b2 := b2 / a0; a1 := a1; a2 := a2 |}.

Definition calculatePeaking (sampleRate freq gain Q : T) : BiquadCoeffs :=
  let w0 := a_w0 A freq sampleRate in
  let A_ := a_pow A #10 (gain / #40) in
  let alpha := a_sin A w0 / (#2 * Q) in
  let cos_w0 := a_cos A w0 in
  let b0 := #1 + alpha * A_ in
  let b1 := #(-2) * cos_w0 in
  let b2 := #1 - alpha * A_ in
  let a0 := #1 + alpha / A_ in
  let a1 := #(-2) * cos_w0 / a0 in
  let a2 := (#1 - alpha / A_) / a0 in
  {| b0 := b0 / a0; b1 := b1 / a0; b2 := b2 / a0; a1 := a1; a2 := a2 |}.

Definition calculateHighShelf (sampleRate freq gain : T) : BiquadCoeffs :=
  let w0 := a_w0 A freq sampleRate in
  let A_ := a_pow A #10 (gain / #40) in
  let S := #1 in
  let alpha := a_sin A w0 / #2 * a_sqrt A ((A_ + #1 / A_) * (#1 / S - #1) + #2) in
  let cos_w0 := a_cos A w0 in
  let b0 := A_ * ((A_ + #1) + (A_ - #1) * cos_w0 + #2 * a_sqrt A A_ * alpha) in
  let b1 := #(-2) * A_ * ((A_ - #1) + (A_ + #1) * cos_w0) in
  let b2 := A_ * ((A_ + #1) + (A_ - #1) * cos_w0 - #2 * a_sqrt A A_ * alpha) in
  let a0 := (A_ + #1) - (A_ - #1) * cos_w0 + #2 * a_sqrt A A_ * alpha in
  let a1 := #2 * ((A_ - #1) - (A_ + #1) * cos_w0) / a0 in
  let a2 := ((A_ + #1) - (A_ - #1) * cos_w0 - #2 * a_sqrt A A_ * alpha) / a0 in
  {| b0 := b0 / a0; b1 := b1 / a0; b2 := b2 / a0; a1 := a1; a2 := a2 |}.

(** [processBiquad]: the output and the updated state of the channel. *)
Definition processBiquad (input : T) (coeffs : BiquadCoeffs)
    (state : BiquadState) (rightChannel : bool) : T * BiquadState :=
  let sx1 := if rightChannel then x1r state else x1 state in
  let sx2 := if rightChannel then x2r state else x2 state in
  let sy1 := if rightChannel then y1r state else y1 state in
  let sy2 := if rightChannel then y2r state else y2 state in
  let output := b0 coeffs * input + b1 coeffs * sx1 + b2 coeffs * sx2
                - a1 coeffs * sy1 - a2 coeffs * sy2 in
  (output,
   if rightChannel
   then {| x1 := x1 state; x2 := x2 state; y1 := y1 state; y2 := y2 state;
           x1r := input; x2r := sx1; y1r := output; y2r := sy1 |}
   else {| x1 := input; x2 := sx1; y1 := output; y2 := sy1;
           x1r := x1r state; x2r := x2r state;
           y1r := y1r state; y2r := y2r state |}).

(** The constructor: gains 0, bands at 250 Hz, 1 kHz (Q = 1) and 4 kHz. *)
Definition make (sr : T) : t :=
  {| sampleRate := sr;
     lowShelf := calculateLowShelf sr #250 #0;
     midPeak := calculatePeaking sr #1000 #0 #1;
     highShelf := calculateHighShelf sr #4000 #0;
     lowState := BiquadState0; midState := BiquadState0;
     highState := BiquadState0;
     lowGain := #0; midGain := #0; highGain := #0 |}.

Definition clampGain (gain : T) : T := a_max A #(-20) (a_min A #20 gain).

Definition setLowGain (gain : T) (e : t) : t :=
  let g := clampGain gain in
  {| sampleRate := sampleRate e;
     lowShelf := calculateLowShelf (sampleRate e) #250 g;
     midPeak := midPeak e; highShelf := highShelf e;
     lowState := lowState e; midState := midState e;
     highState := highState e;
     lowGain := g; midGain := midGain e; highGain := highGain e |}.

Definition setMidGain (gain : T) (e : t) : t :=
  let g := clampGain gain in
  {| sampleRate := sampleRate e;
     lowShelf := lowShelf e;
     midPeak := calculatePeaking (sampleRate e) #1000 g #1;
     highShelf := highShelf e;
     lowState := lowState e; midState := midState e;
     highState := highState e;
     lowGain := lowGain e; midGain := g; highGain := highGain e |}.

Definition setHighGain (gain : T) (e : t) : t :=
  let g := clampGain gain in
  {| sampleRate := sampleRate e;
     lowShelf := lowShelf e; midPeak := midPeak e;
     highShelf := calculateHighShelf (sampleRate e) #4000 g;
     lowState := lowState e; midState := midState e;
     highState := highState e;
     lowGain := lowGain e; midGain := midGain e; highGain := g |}.

Definition with_states (l m h : BiquadState) (e : t) : t :=
  {| sampleRate := sampleRate e;
     lowShelf := lowShelf e; midPeak := midPeak e; highShelf := highShelf e;
     lowState := l; midState := m; highState := h;
     lowGain := lowGain e; midGain := midGain e; highGain := highGain e |}.

(** [process(inL, inR, &outL, &outR)]: three biquads in series on the
    left sample, then the same three on the right sample. *)
Definition process (inL inR : T) (e : t) : t * (T * T) :=
  let '(tmpL, ls) := processBiquad inL (lowShelf e) (lowState e) false in
  let '(tmpL, ms) := processBiquad tmpL (midPeak e) (midState e) false in
  let '(tmpL, hs) := processBiquad tmpL (highShelf e) (highState e) false in
  let '(tmpR, ls) := processBiquad inR (lowShelf e) ls true in
  let '(tmpR, ms) := processBiquad tmpR (midPeak e) ms true in
  let '(tmpR, hs) := processBiquad tmpR (highShelf e) hs true in
  (with_states ls ms hs e, (tmpL, tmpR)).

Definition clear (e : t) : t :=
  with_states BiquadState0 BiquadState0 BiquadState0 e.

(** A sequence of [process] calls, outputs in order. *)
Fixpoint run (e : t) (ins : list (T * T)) : t * list (T * T) :=
  match ins with
  | [] => (e, [])
  | (l, r) :: rest =>
      let '(e, o) := process l r e in
      let '(e, os) := run e rest in
      (e, o :: os)
  end.

End WithArith.
End EQ.

(** *** The equaliser's arithmetic at binary32

    [2.0f * M_PI * freq / sampleRate] has a [double] operand ([M_PI]), so the
    product and the quotient are computed in binary64 and the result is
    narrowed when it is stored in [float w0]. *)

Module F64.
Definition prec : Z := 53.
Definition emax : Z := 1024.
Definition mul := SFmul prec emax.
Definition div := SFdiv prec emax.
(** [M_PI = 0x1.921fb54442d18p+1]. *)
Definition M_PI : spec_float := S754_finite false 7074237752028440 (-51).
Definition widen (x : float) : spec_float :=
  match x with
  | S754_finite s m e => binary_round prec emax s m e
  | _ => x
  end.
Definition narrow (x : spec_float) : float :=
  match x with
  | S754_finite s m e => binary_round F32.prec F32.emax s m e
  | _ => x
  end.
End F64.

Definition w0_f32 (freq sampleRate : float) : float :=
  F64.narrow
    (F64.div (F64.mul (F64.mul (F64.widen (F32.of_int 2)) F64.M_PI)
                      (F64.widen freq))
             (F64.widen sampleRate)).

Definition arithF (lm : Libm) : Arith float :=
  {| a_add := F32.add; a_sub := F32.sub; a_mul := F32.mul; a_div := F32.div;
     a_sqrt := F32.sqrt; a_sin := sinf lm; a_cos := cosf lm; a_pow := powf lm;
     a_min := F32.min; a_max := F32.max; a_lit := F32.lit; a_w0 := w0_f32 |}.

(** Infix arithmetic on binary32 for the rest of the engine. *)
Declare Scope f32_scope.
Delimit Scope f32_scope with f32.
Notation "x + y" := (F32.add x y) : f32_scope.
Notation "x - y" := (F32.sub x y) : f32_scope.
Notation "x * y" := (F32.mul x y) : f32_scope.
Notation "x / y" := (F32.div x y) : f32_scope.

(** C++ [a % b] on [int]: the remainder of the truncated division. *)
Definition cmod (a b : Z) : Z := Z.rem a b.

(** ** Stereo delay ([ripley/stereo_delay.hpp]) *)

Module Delay.

Record t := {
  sampleRate : float;
  maxDelay : float;
  bufferSize : Z;
  leftBuffer : fvec;
  rightBuffer : fvec;
  writeIndex : Z;
  delayTimeL : float;
  delayTimeR : float;
  feedback : float
}.

(** [StereoDelay(sr, maxDel = 2.0f)]. *)
Definition make (sr : float) : t :=
  let maxDel := F32.c2 in
  let size := F32.to_int (maxDel * sr)%f32 in
  {| sampleRate := sr; maxDelay := maxDel; bufferSize := size;
     leftBuffer := fv_zeros size; rightBuffer := fv_zeros size;
     writeIndex := 0;
     delayTimeL := F32.c0_25; delayTimeR := F32.c0_25;
     feedback := F32.c0_3 |}.

Definition setDelayTime (left right : float) (d : t) : t :=
  {| sampleRate := sampleRate d; maxDelay := maxDelay d;
     bufferSize := bufferSize d;
     leftBuffer := leftBuffer d; rightBuffer := rightBuffer d;
     writeIndex := writeIndex d;
     delayTimeL := F32.max (F32.c0_001) (F32.min (maxDelay d) left);
     delayTimeR := F32.max (F32.c0_001) (F32.min (maxDelay d) right);
     feedback := feedback d |}.

Definition setFeedback (fb : float) (d : t) : t :=
  {| sampleRate := sampleRate d; maxDelay := maxDelay d;
     bufferSize := bufferSize d;
     leftBuffer := leftBuffer d; rightBuffer := rightBuffer d;
     writeIndex := writeIndex d;
     delayTimeL := delayTimeL d; delayTimeR := delayTimeR d;
     feedback := F32.max F32.zero (F32.min (F32.c0_95) fb) |}.

(** One iteration of the loop of [process]. *)
Definition process_iter (delaySamplesL delaySamplesR : Z)
    (leftIn rightIn : float) (d : t) : t * (float * float) :=
  let readIndexL := cmod (writeIndex d - delaySamplesL + bufferSize d) (bufferSize d) in
  let readIndexR := cmod (writeIndex d - delaySamplesR + bufferSize d) (bufferSize d) in
  let leftDelayed := fv_get (leftBuffer d) readIndexL in
  let rightDelayed := fv_get (rightBuffer d) readIndexR in
  ({| sampleRate := sampleRate d; maxDelay := maxDelay d;
      bufferSize := bufferSize d;
      leftBuffer := fv_set (leftBuffer d) (writeIndex d)
                      (leftIn + leftDelayed * feedback d)%f32;
      rightBuffer := fv_set (rightBuffer d) (writeIndex d)
                      (rightIn + rightDelayed * feedback d)%f32;
      writeIndex := cmod (writeIndex d + 1) (bufferSize d);
      delayTimeL := delayTimeL d; delayTimeR := delayTimeR d;
      feedback := feedback d |},
   (leftDelayed, rightDelayed)).

Fixpoint process_loop (dl dr : Z) (ins : list (float * float)) (d : t)
  : t * list (float * float) :=
  match ins with
  | [] => (d, [])
  | (l, r) :: rest =>
      let '(d, o) := process_iter dl dr l r d in
      let '(d, os) := process_loop dl dr rest d in
      (d, o :: os)
  end.

Definition process (ins : list (float * float)) (d : t)
  : t * list (float * float) :=
  let delaySamplesL := F32.to_int (delayTimeL d * sampleRate d)%f32 in
  let delaySamplesR := F32.to_int (delayTimeR d * sampleRate d)%f32 in
  let delaySamplesL := Z.max 1 (Z.min (bufferSize d - 1) delaySamplesL) in
  let delaySamplesR := Z.max 1 (Z.min (bufferSize d - 1) delaySamplesR) in
  process_loop delaySamplesL delaySamplesR ins d.

Definition clear (d : t) : t :=
  {| sampleRate := sampleRate d; maxDelay := maxDelay d;
     bufferSize := bufferSize d;
     leftBuffer := fv_zeros (bufferSize d);
     rightBuffer := fv_zeros (bufferSize d);
     writeIndex := 0;
     delayTimeL := delayTimeL d; delayTimeR := delayTimeR d;
     feedback := feedback d |}.

End Delay.

(** ** Reverb ([ripley/reverb_processor.hpp]) *)

Module Reverb.

Definition COMB_SIZES : list Z :=
  [1557; 1617; 1491; 1422; 1277; 1356; 1188; 1116].
Definition ALLPASS_SIZES : list Z := [556; 441; 341; 225].

(** The fixed-size C arrays ([x[4]]) are lists read and written by index. *)
Definition at_ {A} (d : A) (l : list A) (j : nat) : A := default d (l !! j).

Record t := {
  sampleRate : float;
  combBuffersL : list fvec;      (* 4 per channel *)
  combBuffersR : list fvec;
  combIndicesL : list Z;
  combIndicesR : list Z;
  combLpL : list float;          (* lowpass states *)
  combLpR : list float;
  allpassBuffers : list fvec;    (* shared stereo *)
  allpassIndices : list Z;
  hpStateL : float;
  hpStateR : float;
  roomSize : float;
  damping : float;
  decay : float
}.

(** [processCombFilter]: the output, and the buffer, index and lowpass
    state it leaves behind through its reference parameters. *)
Definition processCombFilter (input : float) (buffer : fvec) (index : Z)
    (lpState feedback dampingCoeff : float) : float * fvec * Z * float :=
  let size := fv_size buffer in
  let output := fv_get buffer index in
  let lpState := (lpState + (output - lpState) * dampingCoeff)%f32 in
  let buffer := fv_set buffer index (input + lpState * feedback)%f32 in
  let index := cmod (index + 1) size in
  (output, buffer, index, lpState).

(** [processAllpassFilter], gain [0.5f]. *)
Definition processAllpassFilter (input : float) (buffer : fvec) (index : Z)
  : float * fvec * Z :=
  let gain := F32.c0_5 in
  let size := fv_size buffer in
  let delayed := fv_get buffer index in
  let output := (F32.opp input * gain + delayed)%f32 in
  let buffer := fv_set buffer index (input + delayed * gain)%f32 in
  let index := cmod (index + 1) size in
  (output, buffer, index).

Definition make (sr : float) : t :=
  {| sampleRate := sr;
     combBuffersL := map (fun i => fv_zeros (at_ 0 COMB_SIZES i)) (seq 0 4);
     combBuffersR := map (fun i => fv_zeros (at_ 0 COMB_SIZES (i + 4))) (seq 0 4);
     combIndicesL := [0; 0; 0; 0];
     combIndicesR := [0; 0; 0; 0];
     combLpL := [F32.zero; F32.zero; F32.zero; F32.zero];
     combLpR := [F32.zero; F32.zero; F32.zero; F32.zero];
     allpassBuffers := map (fun i => fv_zeros (at_ 0 ALLPASS_SIZES i)) (seq 0 4);
     allpassIndices := [0; 0; 0; 0];
     hpStateL := F32.zero; hpStateR := F32.zero;
     roomSize := F32.c0_5; damping := F32.c0_4; decay := F32.c0_6 |}.

Definition unit01 (x : float) : float :=
  F32.max F32.zero (F32.min (F32.c1) x).

Definition setParameters (room damp dec : float) (r : t) : t :=
  {| sampleRate := sampleRate r;
     combBuffersL := combBuffersL r; combBuffersR := combBuffersR r;
     combIndicesL := combIndicesL r; combIndicesR := combIndicesR r;
     combLpL := combLpL r; combLpR := combLpR r;
     allpassBuffers := allpassBuffers r; allpassIndices := allpassIndices r;
     hpStateL := hpStateL r; hpStateR := hpStateR r;
     roomSize := unit01 room; damping := unit01 damp; decay := unit01 dec |}.

(** The bank of four combs of one channel (the loops at lines 115-118 and
    122-125): the running sum and the updated arrays. *)
Definition comb_bank (input feedback dampingCoeff : float)
    (bufs : list fvec) (idxs : list Z) (lps : list float)
  : float * list fvec * list Z * list float :=
  fold_left
    (fun '(combOut, bufs, idxs, lps) j =>
       let '(out, b, i, lp) :=
         processCombFilter input (at_ (fv_zeros 0) bufs j) (at_ 0 idxs j)
                           (at_ F32.zero lps j) feedback dampingCoeff in
       ((combOut + out)%f32, <[ j := b ]> bufs, <[ j := i ]> idxs,
        <[ j := lp ]> lps))
    (seq 0 4) (F32.zero, bufs, idxs, lps).

(** The diffusion loop (lines 135-138): at each of the four stages the
    left sample and then the right sample go through the same buffer and
    the same running index. *)
Definition diffuse (combOutL combOutR : float)
    (bufs : list fvec) (idxs : list Z)
  : float * float * list fvec * list Z :=
  fold_left
    (fun '(diffusedL, diffusedR, bufs, idxs) j =>
       let '(dl, b, i) :=
         processAllpassFilter diffusedL (at_ (fv_zeros 0) bufs j) (at_ 0 idxs j) in
       let '(dr, b, i) := processAllpassFilter diffusedR b i in
       (dl, dr, <[ j := b ]> bufs, <[ j := i ]> idxs))
    (seq 0 4) (combOutL, combOutR, bufs, idxs).

(** The body of the sample loop of [process]. *)
Definition process_iter (feedback dampingCoeff roomScale : float)
    (leftIn rightIn : float) (r : t) : t * (float * float) :=
  let inputL := (leftIn * roomScale)%f32 in
  let inputR := (rightIn * roomScale)%f32 in
  let '(combOutL, cbL, ciL, clL) :=
    comb_bank inputL feedback dampingCoeff
              (combBuffersL r) (combIndicesL r) (combLpL r) in
  let '(combOutR, cbR, ciR, clR) :=
    comb_bank inputR feedback dampingCoeff
              (combBuffersR r) (combIndicesR r) (combLpR r) in
  let combOutL := (combOutL * F32.c0_25)%f32 in
  let combOutR := (combOutR * F32.c0_25)%f32 in
  let '(diffusedL, diffusedR, ab, ai) :=
    diffuse combOutL combOutR (allpassBuffers r) (allpassIndices r) in
  let hpCutoff := (F32.c100 / (sampleRate r * F32.c0_5))%f32 in
  let hpCutoff := F32.max (F32.c0_001) (F32.min (F32.c0_1) hpCutoff) in
  let hpL := (hpStateL r + (diffusedL - hpStateL r) * hpCutoff)%f32 in
  let hpR := (hpStateR r + (diffusedR - hpStateR r) * hpCutoff)%f32 in
  ({| sampleRate := sampleRate r;
      combBuffersL := cbL; combBuffersR := cbR;
      combIndicesL := ciL; combIndicesR := ciR;
      combLpL := clL; combLpR := clR;
      allpassBuffers := ab; allpassIndices := ai;
      hpStateL := hpL; hpStateR := hpR;
      roomSize := roomSize r; damping := damping r; decay := decay r |},
   ((diffusedL - hpL)%f32, (diffusedR - hpR)%f32)).

Fixpoint process_loop (fb dc rs : float) (ins : list (float * float)) (r : t)
  : t * list (float * float) :=
  match ins with
  | [] => (r, [])
  | (l, rt) :: rest =>
      let '(r, o) := process_iter fb dc rs l rt r in
      let '(r, os) := process_loop fb dc rs rest r in
      (r, o :: os)
  end.

Definition process (ins : list (float * float)) (r : t)
  : t * list (float * float) :=
  let feedback := (F32.c0_5 + decay r * F32.c0_485)%f32 in
  let feedback := F32.max F32.zero (F32.min (F32.c0_995) feedback) in
  let dampingCoeff := (F32.c0_05 + damping r * F32.c0_9)%f32 in
  let roomScale := (F32.c0_3 + roomSize r * F32.c1_4)%f32 in
  process_loop feedback dampingCoeff roomScale ins r.

Definition clear (r : t) : t :=
  {| sampleRate := sampleRate r;
     combBuffersL := map (fun b => fv_zeros (fv_size b)) (combBuffersL r);
     combBuffersR := map (fun b => fv_zeros (fv_size b)) (combBuffersR r);
     combIndicesL := [0; 0; 0; 0]; combIndicesR := [0; 0; 0; 0];
     combLpL := [F32.zero; F32.zero; F32.zero; F32.zero];
     combLpR := [F32.zero; F32.zero; F32.zero; F32.zero];
     allpassBuffers := map (fun b => fv_zeros (fv_size b)) (allpassBuffers r);
     allpassIndices := [0; 0; 0; 0];
     hpStateL := F32.zero; hpStateR := F32.zero;
     roomSize := roomSize r; damping := damping r; decay := decay r |}.

End Reverb.


(** ** The engine ([alien4_engine.hpp]) *)

(** [std::default_random_engine] seeded from [std::random_device]: the
    engine's randomness is an oracle, the sequence of values its successive
    draws will take.  A draw of [uniform_int_distribution<int>(0, n - 1)]
    takes the next integer reduced into [0, n - 1]; a draw of
    [uniform_real_distribution<float>(-2, 2)] takes the next float. *)
Record RandomEngine := { int_draws : list Z; real_draws : list float }.

Definition draw_int (n : Z) (g : RandomEngine) : Z * RandomEngine :=
  match int_draws g with
  | [] => (0, g)
  | x :: rest => (x mod n, {| int_draws := rest; real_draws := real_draws g |})
  end.

Definition draw_real (g : RandomEngine) : float * RandomEngine :=
  match real_draws g with
  | [] => (F32.zero, g)
  | x :: rest => (x, {| int_draws := int_draws g; real_draws := rest |})
  end.

Definition LOOP_BUFFER_SIZE : Z := 2880000.

Record Engine := {
  sampleRate : float;
  (* Loop buffer (mono input, stereo playback) *)
  loopBuffer : fvec;
  playbackPosition : Z;
  playbackPhase : float;
  recordedLength : Z;
  lastScanTargetIndex : Z;
  (* Temporary recording buffer (mono) *)
  tempBuffer : fvec;
  tempSlices : list Slice;
  tempRecordPosition : Z;
  tempRecordedLength : Z;
  tempLastAmplitude : float;
  (* Slices *)
  slices : list Slice;
  currentSliceIndex : Z;
  lastAmplitude : float;
  lastMinSliceTime : float;
  (* Polyphonic voices *)
  voices : list Voice.t;
  numVoices : Z;
  randomEngine : RandomEngine;
  lastScanValue : float;
  (* State *)
  isRecording : bool;
  looping : bool;
  minSliceTime : float;
  scanValue : float;
  feedbackAmount : float;
  mixAmount : float;
  speed : float;
  (* Feedback buffer (stereo) *)
  lastOutputL : float;
  lastOutputR : float;
  (* 3-Band EQ *)
  eq : EQ.t (T := float);
  (* Effects *)
  delay : Delay.t;
  reverb : Reverb.t;
  delayWet : float;
  reverbWet : float
}.

(** Assignment to one member: the record with that field replaced. *)
Definition eta_Engine (e : Engine) : Engine :=
  Build_Engine (sampleRate e) (loopBuffer e) (playbackPosition e)
    (playbackPhase e) (recordedLength e) (lastScanTargetIndex e)
    (tempBuffer e) (tempSlices e) (tempRecordPosition e)
    (tempRecordedLength e) (tempLastAmplitude e) (slices e)
    (currentSliceIndex e) (lastAmplitude e) (lastMinSliceTime e) (voices e)
    (numVoices e) (randomEngine e) (lastScanValue e) (isRecording e)
    (looping e) (minSliceTime e) (scanValue e) (feedbackAmount e)
    (mixAmount e) (speed e) (lastOutputL e) (lastOutputR e) (eq e) (delay e)
    (reverb e) (delayWet e) (reverbWet e).

Ltac assign proj :=
  let v := fresh "v" in
  let e := fresh "e" in
  intros v e;
  let body := eval cbv delta [eta_Engine] beta in (eta_Engine e) in
  match eval pattern (proj e) in body with
  | ?f _ => let r := eval cbv beta in (f v) in exact r
  end.

Definition set_loopBuffer : fvec -> Engine -> Engine.
Proof. assign loopBuffer. Defined.
Definition set_playbackPosition : Z -> Engine -> Engine.
Proof. assign playbackPosition. Defined.
Definition set_playbackPhase : float -> Engine -> Engine.
Proof. assign playbackPhase. Defined.
Definition set_recordedLength : Z -> Engine -> Engine.
Proof. assign recordedLength. Defined.
Definition set_lastScanTargetIndex : Z -> Engine -> Engine.
Proof. assign lastScanTargetIndex. Defined.
Definition set_tempBuffer : fvec -> Engine -> Engine.
Proof. assign tempBuffer. Defined.
Definition set_tempSlices : list Slice -> Engine -> Engine.
Proof. assign tempSlices. Defined.
Definition set_tempRecordPosition : Z -> Engine -> Engine.
Proof. assign tempRecordPosition. Defined.
Definition set_tempRecordedLength : Z -> Engine -> Engine.
Proof. assign tempRecordedLength. Defined.
Definition set_tempLastAmplitude : float -> Engine -> Engine.
Proof. assign tempLastAmplitude. Defined.
Definition set_slices : list Slice -> Engine -> Engine.
Proof. assign slices. Defined.
Definition set_currentSliceIndex : Z -> Engine -> Engine.
Proof. assign currentSliceIndex. Defined.
Definition set_lastAmplitude : float -> Engine -> Engine.
Proof. assign lastAmplitude. Defined.
Definition set_lastMinSliceTime : float -> Engine -> Engine.
Proof. assign lastMinSliceTime. Defined.
Definition set_voices : list Voice.t -> Engine -> Engine.
Proof. assign voices. Defined.
Definition set_numVoices : Z -> Engine -> Engine.
Proof. assign numVoices. Defined.
Definition set_randomEngine : RandomEngine -> Engine -> Engine.
Proof. assign randomEngine. Defined.
Definition set_lastScanValue : float -> Engine -> Engine.
Proof. assign lastScanValue. Defined.
Definition set_isRecording : bool -> Engine -> Engine.
Proof. assign isRecording. Defined.
Definition set_looping : bool -> Engine -> Engine.
Proof. assign looping. Defined.
Definition set_minSliceTime : float -> Engine -> Engine.
Proof. assign minSliceTime. Defined.
Definition set_scanValue : float -> Engine -> Engine.
Proof. assign scanValue. Defined.
Definition set_feedbackAmount : float -> Engine -> Engine.
Proof. assign feedbackAmount. Defined.
Definition set_mixAmount : float -> Engine -> Engine.
Proof. assign mixAmount. Defined.
Definition set_speed : float -> Engine -> Engine.
Proof. assign speed. Defined.
Definition set_lastOutputL : float -> Engine -> Engine.
Proof. assign lastOutputL. Defined.
Definition set_lastOutputR : float -> Engine -> Engine.
Proof. assign lastOutputR. Defined.
Definition set_eq : EQ.t (T := float) -> Engine -> Engine.
Proof. assign eq. Defined.
Definition set_delay : Delay.t -> Engine -> Engine.
Proof. assign delay. Defined.
Definition set_reverb : Reverb.t -> Engine -> Engine.
Proof. assign reverb. Defined.
Definition set_delayWet : float -> Engine -> Engine.
Proof. assign delayWet. Defined.
Definition set_reverbWet : float -> Engine -> Engine.
Proof. assign reverbWet. Defined.

(** [v[i]] on [std::vector]; an index outside the vector is undefined in
    C++ and reads as the default element here. *)
Definition Slice0 : Slice :=
  {| startSample := 0; endSample := 0; peakAmplitude := F32.zero; active := false |}.

Definition slice_at (l : list Slice) (i : Z) : Slice :=
  default Slice0 (l !! Z.to_nat i).

Definition voice_at (l : list Voice.t) (i : Z) : Voice.t :=
  default Voice.fresh (l !! Z.to_nat i).

Definition size {A} (l : list A) : Z := Z.of_nat (length l).

(** [voices.resize(n)]: truncated, or padded with default voices. *)
Definition resize_voices (n : Z) (l : list Voice.t) : list Voice.t :=
  take (Z.to_nat n) l ++ replicate (Z.to_nat n - length l) Voice.fresh.

(** [loopBuffer[pos0] * (1.0f - frac) + loopBuffer[pos1] * frac] *)
Definition interpolate (buf : fvec) (pos0 pos1 : Z) (frac : float) : float :=
  (fv_get buf pos0 * (F32.c1 - frac) + fv_get buf pos1 * frac)%f32.

(** The slice-or-buffer wraparound shared by both playback paths (lines
    449-473 and 502-528), on the cursor of one voice. *)
Definition wrap_position (sl : list Slice) (sliceIdx : Z) (recordedLength : Z)
    (reverse : bool) (position : Z) : Z :=
  if negb (size sl =? 0) && (sliceIdx <? size sl) && active (slice_at sl sliceIdx) then
    let sliceStart := startSample (slice_at sl sliceIdx) in
    let sliceEnd := endSample (slice_at sl sliceIdx) in
    if reverse
    then (if position <? sliceStart then sliceEnd else position)
    else (if sliceEnd <? position then sliceStart else position)
  else
    if reverse
    then (if position <? 0 then recordedLength - 1 else position)
    else (if recordedLength <=? position then 0 else position).

(** "Read with interpolation" (lines 476-486 and 531-541): the cursor
    clamped into the recording, and the interpolated sample. *)
Definition read_sample (buf : fvec) (recordedLength : Z) (position : Z)
    (phase : float) : Z * float :=
  let position := clampZ position 0 (recordedLength - 1) in
  let pos0 := position in
  let pos1 := if 1 <? recordedLength then cmod (pos0 + 1) recordedLength else pos0 in
  let pos0 := clampZ pos0 0 (LOOP_BUFFER_SIZE - 1) in
  let pos1 := clampZ pos1 0 (LOOP_BUFFER_SIZE - 1) in
  let frac := F32.clamp (F32.abs phase) F32.zero F32.c1 in
  (position, interpolate buf pos0 pos1 frac).

Section WithLibm.
Variable lm : Libm.

(** MIN_SLICE_TIME knob (0-1) to seconds (0.001-5.0). *)
Definition getMinSliceTime (knobValue : float) : float :=
  if F32.le knobValue F32.c0_5 then
    let t := (knobValue * F32.c2)%f32 in
    (F32.c0_001 * powf lm F32.c1000 t)%f32
  else
    let t := ((knobValue - F32.c0_5) * F32.c2)%f32 in
    (F32.c1 + t * F32.c4)%f32.

(** [(int)(minSliceTimeSec * sampleRate)] *)
Definition minSliceSamples_of (minSliceTimeSec : float) (st : Engine) : Z :=
  F32.to_int (minSliceTimeSec * sampleRate st)%f32.

(** The constructor; [g] is what the seeded random engine will draw. *)
Definition Alien4AudioEngine (sr : float) (g : RandomEngine) : Engine :=
  {| sampleRate := sr;
     loopBuffer := fv_zeros LOOP_BUFFER_SIZE;
     playbackPosition := 0; playbackPhase := F32.zero;
     recordedLength := 0; lastScanTargetIndex := -1;
     tempBuffer := fv_zeros LOOP_BUFFER_SIZE;
     tempSlices := [];
     tempRecordPosition := 0; tempRecordedLength := 0;
     tempLastAmplitude := F32.zero;
     slices := []; currentSliceIndex := 0;
     lastAmplitude := F32.zero; lastMinSliceTime := F32.c0_05;
     voices := []; numVoices := 1; randomEngine := g;
     lastScanValue := F32.opp F32.c1;
     isRecording := false; looping := true;
     minSliceTime := F32.c0_05; scanValue := F32.zero;
     feedbackAmount := F32.zero; mixAmount := F32.c0_5; speed := F32.c1;
     lastOutputL := F32.zero; lastOutputR := F32.zero;
     eq := EQ.make (arithF lm) sr;
     delay := Delay.make sr; reverb := Reverb.make sr;
     delayWet := F32.zero; reverbWet := F32.zero |}.

(** *** [rescanSlices] *)
Definition rescanSlices (threshold minSliceTimeSec : float) (st : Engine) : Engine :=
  if recordedLength st <=? 0 then st
  else
    let minSliceSamples := minSliceSamples_of minSliceTimeSec st in
    let st := set_slices (detect_slices threshold minSliceSamples
                            (loopBuffer st) (recordedLength st)) st in
    if size (slices st) <=? currentSliceIndex st
    then set_currentSliceIndex
           (if size (slices st) =? 0 then 0 else size (slices st) - 1) st
    else st.

(** *** [redistributeVoices] *)

(** [while (attempts < 20 && invalid(target)) { target = dist(engine);
    attempts++; }], [left] being [20 - attempts]. *)
Fixpoint retry_draw (invalid : Z -> bool) (n : Z) (left : nat)
    (target : Z) (g : RandomEngine) : Z * RandomEngine :=
  match left with
  | O => (target, g)
  | S left' =>
      if invalid target
      then let '(target, g) := draw_int n g in
           retry_draw invalid n left' target g
      else (target, g)
  end.

Definition redistribute_invalid (st : Engine) (target : Z) : bool :=
  negb (active (slice_at (slices st) target))
  || (recordedLength st <=? startSample (slice_at (slices st) target)).

Definition redistribute_iter (st : Engine) (i : Z) : Engine :=
  let n := size (slices st) in
  let '(target, g) := draw_int n (randomEngine st) in
  let '(target, g) := retry_draw (redistribute_invalid st) n 20 target g in
  let st := set_randomEngine g st in
  if redistribute_invalid st target then st      (* continue *)
  else
    let '(spd, g) := draw_real (randomEngine st) in
    let st := set_randomEngine g st in
    set_voices
      (<[ Z.to_nat i :=
            {| Voice.sliceIndex := target;
               Voice.playbackPosition := startSample (slice_at (slices st) target);
               Voice.playbackPhase := F32.zero;
               Voice.speedMultiplier := spd |} ]> (voices st)) st.

Definition redistributeVoices (st : Engine) : Engine :=
  if (size (slices st) =? 0) || (numVoices st <=? 1) || (size (voices st) =? 0)
  then st
  else fold_left redistribute_iter (seqZ 1 (numVoices st - 1)) st.

(** *** Parameters *)

Definition reset_voice (v : Voice.t) : Voice.t :=
  {| Voice.sliceIndex := 0; Voice.playbackPosition := 0;
     Voice.playbackPhase := F32.zero; Voice.speedMultiplier := F32.c1 |}.

Definition setRecording (rec : bool) (st : Engine) : Engine :=
  if rec && negb (isRecording st) then
    (* Start recording: clear temp buffer *)
    let st := set_tempBuffer (fv_zeros (fv_size (tempBuffer st))) st in
    let st := set_tempSlices [] st in
    let st := set_tempRecordPosition 0 st in
    let st := set_tempRecordedLength 0 st in
    let st := set_tempLastAmplitude F32.zero st in
    set_isRecording true st
  else if negb rec && isRecording st then
    (* Stop recording: finalize *)
    let minSliceTimeSec := getMinSliceTime (minSliceTime st) in
    let minSliceSamples := minSliceSamples_of minSliceTimeSec st in
    let st := set_tempSlices
                (close_last minSliceSamples (tempRecordedLength st) (tempSlices st)) st in
    let st := set_loopBuffer
                {| fv_size := fv_size (loopBuffer st);
                   fv_data := fv_data (tempBuffer st) |} st in
    let st := set_slices (tempSlices st) st in
    let st := set_recordedLength (tempRecordedLength st) st in
    let st := set_playbackPosition 0 st in
    let st := set_playbackPhase F32.zero st in
    let st := set_currentSliceIndex 0 st in
    let st := set_lastAmplitude F32.zero st in
    let st := set_voices (map reset_voice (voices st)) st in
    let st := if 1 <? numVoices st then redistributeVoices st else st in
    set_isRecording false st
  else st.

Definition setLooping (loop : bool) (st : Engine) : Engine := set_looping loop st.

Definition setMinSliceTime (time : float) (st : Engine) : Engine :=
  let st := set_minSliceTime (F32.clamp time F32.zero F32.c1) st in
  let actualTime := getMinSliceTime (minSliceTime st) in
  if negb (isRecording st) && (0 <? recordedLength st)
     && F32.gt (F32.abs (actualTime - lastMinSliceTime st)%f32) F32.c0_001
  then
    let st := rescanSlices F32.c0_5 actualTime st in
    let st := redistributeVoices st in
    set_lastMinSliceTime actualTime st
  else st.

Definition setScan (scan : float) (st : Engine) : Engine :=
  let st := set_scanValue (F32.clamp scan F32.zero F32.c1) st in
  if F32.gt (F32.abs (scanValue st - lastScanValue st)%f32) F32.c0_001
  then
    let st := redistributeVoices st in
    set_lastScanValue (scanValue st) st
  else st.

Definition setFeedback (amount : float) (st : Engine) : Engine :=
  set_feedbackAmount (F32.clamp amount F32.zero F32.c0_95) st.
Definition setMix (mix : float) (st : Engine) : Engine :=
  set_mixAmount (F32.clamp mix F32.zero F32.c1) st.
Definition setSpeed (spd : float) (st : Engine) : Engine :=
  set_speed (F32.clamp spd (F32.opp F32.c8) F32.c8) st.

(** *** [setPolyVoices] *)

Definition poly_invalid (st : Engine) (target : Z) : bool :=
  (size (slices st) <=? target)
  || negb (active (slice_at (slices st) target))
  || (recordedLength st <=? startSample (slice_at (slices st) target)).

Definition inherit_voice (st : Engine) : Voice.t :=
  {| Voice.sliceIndex := currentSliceIndex st;
     Voice.playbackPosition := playbackPosition st;
     Voice.playbackPhase := playbackPhase st;
     Voice.speedMultiplier := F32.c1 |}.

Definition poly_iter (st : Engine) (i : Z) : Engine :=
  if i =? 0 then
    set_voices (<[ Z.to_nat i := inherit_voice st ]> (voices st)) st
  else
    let n := size (slices st) in
    let '(target, g) := draw_int n (randomEngine st) in
    let '(target, g) := retry_draw (poly_invalid st) n 20 target g in
    let st := set_randomEngine g st in
    (* Safety check - use voice 0's slice if no valid slice found *)
    let target := if poly_invalid st target then currentSliceIndex st else target in
    let '(spd, g) := draw_real (randomEngine st) in
    let st := set_randomEngine g st in
    set_voices
      (<[ Z.to_nat i :=
            {| Voice.sliceIndex := target;
               Voice.playbackPosition := startSample (slice_at (slices st) target);
               Voice.playbackPhase := F32.zero;
               Voice.speedMultiplier := spd |} ]> (voices st)) st.

Definition setPolyVoices (voices_count : Z) (st : Engine) : Engine :=
  let newNumVoices := clampZ voices_count 1 8 in
  if negb (newNumVoices =? numVoices st) then
    let st := set_numVoices newNumVoices st in
    let st := set_voices (resize_voices (numVoices st) (voices st)) st in
    if negb (size (slices st) =? 0) && (1 <? numVoices st)
    then fold_left poly_iter (seqZ 0 (numVoices st)) st
    else
      fold_left
        (fun st i => set_voices (<[ Z.to_nat i := inherit_voice st ]> (voices st)) st)
        (seqZ 0 (numVoices st)) st
  else st.

(** *** EQ and effects parameters *)
Definition setEQLow (gain : float) (st : Engine) : Engine :=
  set_eq (EQ.setLowGain (arithF lm) gain (eq st)) st.
Definition setEQMid (gain : float) (st : Engine) : Engine :=
  set_eq (EQ.setMidGain (arithF lm) gain (eq st)) st.
Definition setEQHigh (gain : float) (st : Engine) : Engine :=
  set_eq (EQ.setHighGain (arithF lm) gain (eq st)) st.

Definition setDelayTime (timeL timeR : float) (st : Engine) : Engine :=
  set_delay (Delay.setDelayTime timeL timeR (delay st)) st.
Definition setDelayFeedback (fb : float) (st : Engine) : Engine :=
  set_delay (Delay.setFeedback fb (delay st)) st.
Definition setDelayWet (wet : float) (st : Engine) : Engine :=
  set_delayWet (F32.clamp wet F32.zero F32.c1) st.
Definition setReverbRoom (room : float) (st : Engine) : Engine :=
  set_reverb (Reverb.setParameters room (F32.opp F32.c1) (F32.opp F32.c1) (reverb st)) st.
Definition setReverbDamping (damp : float) (st : Engine) : Engine :=
  set_reverb (Reverb.setParameters (F32.opp F32.c1) damp (F32.opp F32.c1) (reverb st)) st.
Definition setReverbDecay (decay : float) (st : Engine) : Engine :=
  set_reverb (Reverb.setParameters (F32.opp F32.c1) (F32.opp F32.c1) decay (reverb st)) st.
Definition setReverbWet (wet : float) (st : Engine) : Engine :=
  set_reverbWet (F32.clamp wet F32.zero F32.c1) st.

(** *** [process]: the body of the per-sample loop, block by block *)

(** === RECORDING === (lines 372-406) *)
Definition record_sample (input : float) (st : Engine) : Engine :=
  if isRecording st && (tempRecordPosition st <? LOOP_BUFFER_SIZE) then
    let st := set_tempBuffer (fv_set (tempBuffer st) (tempRecordPosition st) input) st in
    let st := set_tempRecordedLength (tempRecordPosition st + 1) st in
    let currentAmp := F32.abs input in
    let threshold := F32.c0_5 in
    let minSliceTimeSec := getMinSliceTime (minSliceTime st) in
    let minSliceSamples := minSliceSamples_of minSliceTimeSec st in
    let st :=
      if F32.lt (tempLastAmplitude st) threshold && F32.ge currentAmp threshold then
        let st :=
          if back_open (tempSlices st)
          then set_tempSlices
                 (close_or_drop minSliceSamples (tempRecordPosition st) (tempSlices st)) st
          else st in
        if back_closed_or_empty (tempSlices st)
        then set_tempSlices
               (push_back (tempSlices st) (newSlice (tempRecordPosition st))) st
        else st
      else st in
    let st := set_tempSlices (track_peak currentAmp (tempSlices st)) st in
    let st := set_tempLastAmplitude currentAmp st in
    set_tempRecordPosition (tempRecordPosition st + 1) st
  else st.

(** === SCAN functionality === (lines 409-431) *)
Definition scan_step (st : Engine) : Engine :=
  if 1 <? size (slices st) then
    let useManualScan := F32.gt (scanValue st) F32.c0_01 in
    if useManualScan then
      let targetSliceIndex :=
        F32.to_int (F32.round (scanValue st * F32.of_int (size (slices st) - 1))%f32) in
      let targetSliceIndex := clampZ targetSliceIndex 0 (size (slices st) - 1) in
      if negb (targetSliceIndex =? lastScanTargetIndex st)
         && active (slice_at (slices st) targetSliceIndex)
      then
        let st := set_currentSliceIndex targetSliceIndex st in
        let st := set_playbackPosition
                    (startSample (slice_at (slices st) targetSliceIndex)) st in
        let st := set_playbackPhase F32.zero st in
        let st := set_lastScanTargetIndex targetSliceIndex st in
        if (1 <? numVoices st) && negb (size (voices st) =? 0) then
          let v0 := voice_at (voices st) 0 in
          set_voices
            (<[ 0%nat :=
                  {| Voice.sliceIndex := targetSliceIndex;
                     Voice.playbackPosition :=
                       startSample (slice_at (slices st) targetSliceIndex);
                     Voice.playbackPhase := F32.zero;
                     Voice.speedMultiplier := Voice.speedMultiplier v0 |} ]>
               (voices st)) st
        else st
      else st
    else set_lastScanTargetIndex (-1) st
  else st.

(** Single voice mode (lines 442-489): the engine with its cursor
    advanced, and the two loop outputs. *)
Definition play_single (st : Engine) : Engine * float * float :=
  let playbackSpeed := speed st in
  let isReverse := F32.lt playbackSpeed F32.zero in
  let phase := (playbackPhase st + playbackSpeed)%f32 in
  let positionDelta := F32.to_int phase in
  let phase := (phase - F32.of_int positionDelta)%f32 in
  let position := playbackPosition st + positionDelta in
  let position :=
    wrap_position (slices st) (currentSliceIndex st) (recordedLength st)
                  isReverse position in
  let '(position, sample) :=
    read_sample (loopBuffer st) (recordedLength st) position phase in
  let st := set_playbackPhase phase st in
  let st := set_playbackPosition position st in
  (st, sample, sample).

(** One iteration of the loop over the voices (lines 492-552). *)
Definition play_voice (st : Engine) (acc : list Voice.t * float * float) (v : Z)
  : list Voice.t * float * float :=
  let '(vs, loopL, loopR) := acc in
  let vc := voice_at vs v in
  let voiceSpeed := (speed st * Voice.speedMultiplier vc)%f32 in
  let voiceSpeed := F32.clamp voiceSpeed (F32.opp F32.c16) F32.c16 in
  let phase := (Voice.playbackPhase vc + voiceSpeed)%f32 in
  let positionDelta := F32.to_int phase in
  let phase := (phase - F32.of_int positionDelta)%f32 in
  let position := Voice.playbackPosition vc + positionDelta in
  let voiceReverse := F32.lt voiceSpeed F32.zero in
  let position :=
    wrap_position (slices st) (Voice.sliceIndex vc) (recordedLength st)
                  voiceReverse position in
  let '(position, sample) :=
    read_sample (loopBuffer st) (recordedLength st) position phase in
  let vs :=
    <[ Z.to_nat v :=
         {| Voice.sliceIndex := Voice.sliceIndex vc;
            Voice.playbackPosition := position;
            Voice.playbackPhase := phase;
            Voice.speedMultiplier := Voice.speedMultiplier vc |} ]> vs in
  if F32.is_finite sample then
    (* Alternate voices between L and R *)
    if cmod v 2 =? 0
    then (vs, (loopL + sample)%f32, loopR)
    else (vs, loopL, (loopR + sample)%f32)
  else (vs, loopL, loopR).

(** Multiple voices mode (lines 491-566). *)
Definition play_multi (st : Engine) : Engine * float * float :=
  let '(vs, loopL, loopR) :=
    fold_left (play_voice st) (seqZ 0 (numVoices st))
              (voices st, F32.zero, F32.zero) in
  let st := set_voices vs st in
  let leftVoices := Z.quot (numVoices st + 1) 2 in
  let rightVoices := Z.quot (numVoices st) 2 in
  let loopL := if 0 <? leftVoices
               then (loopL / F32.sqrt (F32.of_int leftVoices))%f32 else loopL in
  let loopR := if 0 <? rightVoices
               then (loopR / F32.sqrt (F32.of_int rightVoices))%f32 else loopR in
  let st :=
    if negb (size (voices st) =? 0) then
      let v0 := voice_at (voices st) 0 in
      let st := set_playbackPosition (Voice.playbackPosition v0) st in
      let st := set_playbackPhase (Voice.playbackPhase v0) st in
      set_currentSliceIndex (Voice.sliceIndex v0) st
    else st in
  (st, loopL, loopR).

(** === PLAYBACK === (lines 434-567): [loopL] and [loopR]. *)
Definition playback (st : Engine) : Engine * float * float :=
  if 0 <? recordedLength st then
    if (numVoices st =? 1) || (size (voices st) =? 0)
    then play_single st
    else play_multi st
  else (st, F32.zero, F32.zero).

(** === MIX === to === Reverb === (lines 570-600): [finalL] and
    [finalR], stored for the feedback of the next sample. *)
Definition effects (input loopL loopR : float) (st : Engine)
  : Engine * float * float :=
  let mixL := (input * (F32.c1 - mixAmount st) + loopL * mixAmount st)%f32 in
  let mixR := (input * (F32.c1 - mixAmount st) + loopR * mixAmount st)%f32 in
  let fbL := (tanhf lm (lastOutputL st * F32.c0_3) / F32.c0_3)%f32 in
  let fbR := (tanhf lm (lastOutputR st * F32.c0_3) / F32.c0_3)%f32 in
  let mixL := (mixL + fbL * feedbackAmount st)%f32 in
  let mixR := (mixR + fbR * feedbackAmount st)%f32 in
  let '(eq', (eqL, eqR)) := EQ.process (arithF lm) mixL mixR (eq st) in
  let st := set_eq eq' st in
  let '(delay', delayed) := Delay.process [(eqL, eqR)] (delay st) in
  let st := set_delay delay' st in
  let '(delayedL, delayedR) := hd (F32.zero, F32.zero) delayed in
  let delayMixL := (eqL * (F32.c1 - delayWet st) + delayedL * delayWet st)%f32 in
  let delayMixR := (eqR * (F32.c1 - delayWet st) + delayedR * delayWet st)%f32 in
  let '(reverb', reverbed) := Reverb.process [(delayMixL, delayMixR)] (reverb st) in
  let st := set_reverb reverb' st in
  let '(reverbedL, reverbedR) := hd (F32.zero, F32.zero) reverbed in
  let finalL := (delayMixL * (F32.c1 - reverbWet st) + reverbedL * reverbWet st)%f32 in
  let finalR := (delayMixR * (F32.c1 - reverbWet st) + reverbedR * reverbWet st)%f32 in
  let st := set_lastOutputL finalL st in
  let st := set_lastOutputR finalR st in
  (st, finalL, finalR).

(** One iteration of the loop of [process]: the engine afterwards and
    the pair written to [outputL[i]], [outputR[i]]. *)
Definition process_sample (st : Engine) (input : float)
  : Engine * (float * float) :=
  let st := record_sample input st in
  let st := scan_step st in
  let '(st, loopL, loopR) := playback st in
  let '(st, finalL, finalR) := effects input loopL loopR st in
  (st, (F32.clamp finalL (F32.opp F32.c10) F32.c10,
        F32.clamp finalR (F32.opp F32.c10) F32.c10)).

(** [process(inputL, inputR, outputL, outputR, numSamples)]: [inputR] is
    not read; the outputs are the [numSamples] pairs written. *)
Fixpoint process (st : Engine) (inputL : list float)
  : Engine * list (float * float) :=
  match inputL with
  | [] => (st, [])
  | x :: rest =>
      let '(st, o) := process_sample st x in
      let '(st, os) := process st rest in
      (st, o :: os)
  end.

Definition clear (st : Engine) : Engine :=
  let st := set_loopBuffer (fv_zeros (fv_size (loopBuffer st))) st in
  let st := set_playbackPosition 0 st in
  let st := set_playbackPhase F32.zero st in
  let st := set_recordedLength 0 st in
  let st := set_isRecording false st in
  let st := set_lastOutputL F32.zero st in
  let st := set_lastOutputR F32.zero st in
  let st := set_slices [] st in
  let st := set_currentSliceIndex 0 st in
  let st := set_lastAmplitude F32.zero st in
  let st := set_lastScanTargetIndex (-1) st in
  let st := set_voices [] st in
  let st := set_numVoices 1 st in
  let st := set_eq (EQ.clear (arithF lm) (eq st)) st in
  let st := set_delay (Delay.clear (delay st)) st in
  set_reverb (Reverb.clear (reverb st)) st.

(** *** The public operations, as data *)
Inductive Op :=
| OpSetRecording (rec : bool)
| OpSetLooping (loop : bool)
| OpSetMinSliceTime (time : float)
| OpSetScan (scan : float)
| OpSetFeedback (amount : float)
| OpSetMix (mix : float)
| OpSetSpeed (spd : float)
| OpSetPolyVoices (voices_count : Z)
| OpSetEQLow (gain : float)
| OpSetEQMid (gain : float)
| OpSetEQHigh (gain : float)
| OpSetDelayTime (timeL timeR : float)
| OpSetDelayFeedback (fb : float)
| OpSetDelayWet (wet : float)
| OpSetReverbRoom (room : float)
| OpSetReverbDamping (damp : float)
| OpSetReverbDecay (decay : float)
| OpSetReverbWet (wet : float)
| OpRescanSlices (threshold minSliceTimeSec : float)
| OpRedistributeVoices
| OpProcess (inputL : list float)
| OpClear.

Definition apply_op (st : Engine) (o : Op) : Engine :=
  match o with
  | OpSetRecording rec => setRecording rec st
  | OpSetLooping loop => setLooping loop st
  | OpSetMinSliceTime time => setMinSliceTime time st
  | OpSetScan scan => setScan scan st
  | OpSetFeedback amount => setFeedback amount st
  | OpSetMix mix => setMix mix st
  | OpSetSpeed spd => setSpeed spd st
  | OpSetPolyVoices n => setPolyVoices n st
  | OpSetEQLow gain => setEQLow gain st
  | OpSetEQMid gain => setEQMid gain st
  | OpSetEQHigh gain => setEQHigh gain st
  | OpSetDelayTime l r => setDelayTime l r st
  | OpSetDelayFeedback fb => setDelayFeedback fb st
  | OpSetDelayWet wet => setDelayWet wet st
  | OpSetReverbRoom room => setReverbRoom room st
  | OpSetReverbDamping damp => setReverbDamping damp st
  | OpSetReverbDecay decay => setReverbDecay decay st
  | OpSetReverbWet wet => setReverbWet wet st
  | OpRescanSlices threshold t => rescanSlices threshold t st
  | OpRedistributeVoices => redistributeVoices st
  | OpProcess inputL => fst (process st inputL)
  | OpClear => clear st
  end.

(** The engine after a sequence of calls. *)
Definition run (st : Engine) (ops : list Op) : Engine := fold_left apply_op ops st.

(** *** Query functions *)
Definition getNumSlices (st : Engine) : Z := size (slices st).
Definition getCurrentSlice (st : Engine) : Z := currentSliceIndex st.
Definition getNumVoices (st : Engine) : Z := numVoices st.
Definition getIsRecording (st : Engine) : bool := isRecording st.

End WithLibm.

(** * Properties of the slice detector *)

Section VectorLemmas.
Context {A : Type}.

Lemma pop_back_snoc (l : list A) (x : A) : pop_back (l ++ [x]) = l.
Proof. apply removelast_last. Qed.

Lemma upd_back_snoc (f : A -> A) (l : list A) (x : A) :
  upd_back f (l ++ [x]) = l ++ [f x].
Proof. unfold upd_back. now rewrite last_snoc, pop_back_snoc. Qed.

Lemma snoc_or_nil (l : list A) : l = [] \/ exists l' x, l = l' ++ [x].
Proof.
  destruct (last l) as [x|] eqn:E.
  - right. apply last_Some in E as [l' ->]. now exists l', x.
  - left. now apply last_None.
Qed.
End VectorLemmas.

(** The number of samples of a closed slice, [endSample - startSample + 1]
    (the [sliceLength] the detector compares with [minSliceSamples]). *)
Definition slice_length (s : Slice) : Z := endSample s - startSample s + 1.

(** Strictly ascending by [startSample], and an earlier slice ends before a
    later one starts. *)
Definition ascending_disjoint (l : list Slice) : Prop :=
  forall (i j : nat) (a b : Slice),
    l !! i = Some a -> l !! j = Some b -> (i < j)%nat ->
    startSample a < startSample b /\ endSample a < startSample b.

Section Chain.
(** [Q] is what is known of every closed slice (its minimal length, say). *)
Variable Q : Slice -> Prop.

(** The closed slices of [l] lie in [lo, hi), one after the other. *)
Fixpoint closed_seq (lo : Z) (l : list Slice) (hi : Z) : Prop :=
  match l with
  | [] => lo <= hi
  | s :: r =>
      active s = true /\ lo <= startSample s <= endSample s /\ Q s
      /\ closed_seq (endSample s + 1) r hi
  end.

Lemma closed_seq_le lo l hi : closed_seq lo l hi -> lo <= hi.
Proof.
  revert lo. induction l as [|s r IH]; simpl; intros lo H; [lia|].
  destruct H as (_ & ? & _ & H). apply IH in H. lia.
Qed.

Lemma closed_seq_mono lo l hi hi' :
  closed_seq lo l hi -> hi <= hi' -> closed_seq lo l hi'.
Proof.
  revert lo. induction l as [|s r IH]; simpl; intros lo H Hle; [lia|].
  destruct H as (? & ? & ? & H). eauto.
Qed.

Lemma closed_seq_snoc lo l s hi :
  closed_seq lo l (startSample s) -> active s = true ->
  startSample s <= endSample s -> Q s -> endSample s + 1 <= hi ->
  closed_seq lo (l ++ [s]) hi.
Proof.
  revert lo. induction l as [|c r IH]; simpl; intros lo H Ha Hs Hq Hh.
  - repeat split; auto; lia.
  - destruct H as (? & ? & ? & H). repeat split; auto; lia.
Qed.

Lemma closed_seq_Forall lo l hi :
  closed_seq lo l hi ->
  Forall (fun s => active s = true /\ lo <= startSample s
                   /\ startSample s <= endSample s /\ endSample s < hi /\ Q s) l.
Proof.
  revert lo. induction l as [|s r IH]; simpl; intros lo H; [constructor|].
  destruct H as (Ha & Hs & Hq & H). constructor.
  - apply closed_seq_le in H. repeat split; auto; lia.
  - eapply Forall_impl; [apply (IH _ H)|]. simpl. intros x Hx.
    repeat split; try apply Hx. lia.
Qed.

Lemma closed_seq_ascending lo l hi :
  closed_seq lo l hi -> ascending_disjoint l.
Proof.
  revert lo. induction l as [|s r IH]; simpl; intros lo H i j a b Hi Hj Hij.
  - discriminate.
  - destruct H as (Ha & Hs & Hq & H). destruct j as [|j]; [lia|]. simpl in Hj.
    destruct i as [|i]; simpl in Hi.
    + injection Hi as <-. apply closed_seq_Forall in H.
      rewrite Forall_forall in H.
      assert (b ∈ r) as Hb by (eapply list_elem_of_lookup_2; eauto).
      apply H in Hb. lia.
    + eapply (IH _ H i j); eauto. lia.
Qed.

(** The list while the detector runs, [pos] samples seen: closed slices,
    then the open one ([endSample = 0]). *)
Definition in_progress (pos : Z) (l : list Slice) : Prop :=
  l = [] \/
  exists cl o, l = cl ++ [o] /\ endSample o = 0 /\ active o = true
               /\ 0 <= startSample o < pos
               /\ closed_seq 0 cl (startSample o)
               /\ Forall (fun s => 0 < endSample s) cl.

Lemma in_progress_mono pos pos' l :
  in_progress pos l -> pos <= pos' -> in_progress pos' l.
Proof.
  intros [->|(cl & o & -> & ? & ? & ? & ? & ?)] Hle; [now left|].
  right. exists cl, o. repeat split; auto; lia.
Qed.

Lemma in_progress_ascending pos l : in_progress pos l -> ascending_disjoint l.
Proof.
  intros [->|(cl & o & -> & He & Ha & Hs & Hc & Hp)] i j a b Hi Hj Hij.
  - discriminate.
  - apply lookup_snoc_Some in Hj as [[Hjl Hj]|[Hjl <-]].
    + rewrite lookup_app_l in Hi by lia.
      eapply closed_seq_ascending; eauto.
    + rewrite lookup_app_l in Hi by lia.
      apply closed_seq_Forall in Hc. rewrite Forall_forall in Hc.
      assert (a ∈ cl) as Hin by (eapply list_elem_of_lookup_2; eauto).
      apply Hc in Hin. lia.
Qed.

Lemma back_open_snoc cl o :
  endSample o = 0 -> active o = true -> back_open (cl ++ [o]) = true.
Proof.
  intros He Ha. unfold back_open. rewrite last_snoc, Ha, He. reflexivity.
Qed.

Lemma set_endSample_same o : set_endSample (endSample o) o = o.
Proof. now destruct o. Qed.

(** What both detectors do to the list at a rising crossing. *)
Definition after_crossing (minSliceSamples pos : Z) (l : list Slice) : list Slice :=
  let l1 := close_or_drop minSliceSamples pos l in
  if back_closed_or_empty l1 then push_back l1 (newSlice pos) else l1.

Lemma after_crossing_in_progress minSliceSamples pos l :
  (forall s, minSliceSamples <= slice_length s -> Q s) ->
  0 <= pos -> in_progress pos l ->
  in_progress (pos + 1) (after_crossing minSliceSamples pos l).
Proof.
  intros HQ Hpos [->|(cl & o & -> & He & Ha & Hs & Hc & Hp)].
  - right. exists [], (newSlice pos). simpl. repeat split; auto; lia.
  - unfold after_crossing, close_or_drop. rewrite last_snoc.
    destruct (minSliceSamples <=? pos - startSample o) eqn:Hm.
    + rewrite upd_back_snoc. unfold back_closed_or_empty.
      rewrite last_snoc. simpl.
      destruct (0 <? pos - 1) eqn:Hp1.
      * right. exists (cl ++ [set_endSample (pos - 1) o]), (newSlice pos).
        simpl. repeat split; auto; try lia.
        -- apply closed_seq_snoc; simpl; auto; try lia.
           apply HQ. unfold slice_length. simpl. lia.
        -- apply Forall_app. split; auto. constructor; [|constructor].
           simpl. lia.
      * assert (pos - 1 = endSample o) as -> by lia.
        rewrite set_endSample_same. right. exists cl, o.
        repeat split; auto; lia.
    + rewrite pop_back_snoc.
      assert (back_closed_or_empty cl = true) as ->.
      { unfold back_closed_or_empty.
        destruct (snoc_or_nil cl) as [->|(cl' & c & ->)]; [reflexivity|].
        rewrite last_snoc. apply Forall_app in Hp as [_ Hp].
        inversion Hp; subst. lia. }
      right. exists cl, (newSlice pos). simpl. repeat split; auto; try lia.
      eapply closed_seq_mono; eauto. lia.
Qed.

Lemma track_peak_in_progress pos a l :
  in_progress pos l -> in_progress pos (track_peak a l).
Proof.
  intros [->|(cl & o & -> & He & Ha & Hs & Hc & Hp)]; [now left|].
  unfold track_peak. rewrite back_open_snoc by auto.
  rewrite upd_back_snoc. right. eexists cl, _. split; [reflexivity|].
  simpl. repeat split; auto; lia.
Qed.

(** The end of the buffer: the open slice is closed or dropped. *)
Lemma close_last_closed minSliceSamples len l :
  (forall s, minSliceSamples <= slice_length s -> Q s) ->
  in_progress len l ->
  closed_seq 0 (close_last minSliceSamples len l) (Z.max len 0).
Proof.
  intros HQ [->|(cl & o & -> & He & Ha & Hs & Hc & Hp)]; [simpl; lia|].
  unfold close_last. rewrite back_open_snoc by auto.
  unfold close_or_drop. rewrite last_snoc.
  destruct (minSliceSamples <=? len - startSample o) eqn:Hm.
  - rewrite upd_back_snoc. apply closed_seq_snoc; simpl; auto; try lia.
    apply HQ. unfold slice_length. simpl. lia.
  - rewrite pop_back_snoc. eapply closed_seq_mono; eauto. lia.
Qed.

(** One iteration of the batch loop. *)
Lemma rescan_iter_in_progress threshold minSliceSamples buf l lastAmp pos :
  (forall s, minSliceSamples <= slice_length s -> Q s) ->
  0 <= pos -> in_progress pos l ->
  in_progress (pos + 1)
    (fst (rescan_iter threshold minSliceSamples buf (l, lastAmp) pos)).
Proof.
  intros HQ Hpos H. unfold rescan_iter. simpl.
  apply track_peak_in_progress.
  destruct (F32.lt lastAmp threshold && F32.ge (F32.abs (fv_get buf pos)) threshold).
  - pose proof (after_crossing_in_progress minSliceSamples pos l HQ Hpos H) as H'.
    unfold after_crossing in H'.
    destruct H as [->|(cl & o & -> & He & Ha & Hs & Hc & Hp)]; [exact H'|].
    rewrite last_snoc, Ha. exact H'.
  - eapply in_progress_mono; eauto. lia.
Qed.

Lemma rescan_loop_in_progress threshold minSliceSamples buf (n : nat) :
  (forall s, minSliceSamples <= slice_length s -> Q s) ->
  in_progress (Z.of_nat n)
    (fst (fold_left (rescan_iter threshold minSliceSamples buf)
                    (seqZ 0 (Z.of_nat n)) ([], F32.zero))).
Proof.
  intros HQ. induction n as [|n IH]; [now left|].
  rewrite seqZ_S, fold_left_app. simpl.
  destruct (fold_left _ _ _) as [l a]. simpl in IH.
  replace (Z.of_nat (S n)) with (Z.of_nat n + 1) by lia.
  rewrite Z.add_0_l.
  apply rescan_iter_in_progress; auto. lia.
Qed.

Lemma detect_slices_closed threshold minSliceSamples buf len :
  (forall s, minSliceSamples <= slice_length s -> Q s) ->
  closed_seq 0 (detect_slices threshold minSliceSamples buf len) (Z.max len 0).
Proof.
  intros HQ. unfold detect_slices.
  destruct (Z.le_gt_cases len 0) as [Hle|Hgt].
  - rewrite seqZ_nil by lia. simpl. unfold close_last. simpl. lia.
  - pose proof (rescan_loop_in_progress threshold minSliceSamples buf
                  (Z.to_nat len) HQ) as H.
    rewrite Z2Nat.id in H by lia.
    destruct (fold_left _ _ _) as [l a]. simpl in H.
    now apply close_last_closed.
Qed.

End Chain.

(** * Frame properties of the engine's operations

    What the slice detector and the recorder own: the committed list and
    length, the staging list and cursor, the recording flag, and the two
    parameters [minSliceSamples] is computed from. *)

Definition detector_view (st : Engine) :=
  (slices st, recordedLength st, tempSlices st, tempRecordPosition st,
   tempRecordedLength st, tempLastAmplitude st, isRecording st,
   minSliceTime st, sampleRate st).

Lemma fold_left_invariant {A B} (P : A -> Prop) (f : A -> B -> A) (l : list B) (a : A) :
  P a -> (forall a x, P a -> P (f a x)) -> P (fold_left f l a).
Proof.
  revert a. induction l as [|x l IH]; simpl; intros a Ha Hf; auto.
Qed.

(** Reading a member after assignments to members. *)
Ltac eng_simpl :=
  cbn [sampleRate loopBuffer playbackPosition playbackPhase recordedLength
     lastScanTargetIndex tempBuffer tempSlices tempRecordPosition
     tempRecordedLength tempLastAmplitude slices currentSliceIndex
     lastAmplitude lastMinSliceTime voices numVoices randomEngine
     lastScanValue isRecording looping minSliceTime scanValue
     feedbackAmount mixAmount speed lastOutputL lastOutputR eq delay reverb
     delayWet reverbWet set_loopBuffer set_playbackPosition
     set_playbackPhase set_recordedLength set_lastScanTargetIndex
     set_tempBuffer set_tempSlices set_tempRecordPosition
     set_tempRecordedLength set_tempLastAmplitude set_slices
     set_currentSliceIndex set_lastAmplitude set_lastMinSliceTime
     set_voices set_numVoices set_randomEngine set_lastScanValue
     set_isRecording set_looping set_minSliceTime set_scanValue
     set_feedbackAmount set_mixAmount set_speed set_lastOutputL
     set_lastOutputR set_eq set_delay set_reverb set_delayWet set_reverbWet
     fst snd].

Tactic Notation "eng_simpl" "in" hyp(H) :=
  cbn [sampleRate loopBuffer playbackPosition playbackPhase recordedLength
     lastScanTargetIndex tempBuffer tempSlices tempRecordPosition
     tempRecordedLength tempLastAmplitude slices currentSliceIndex
     lastAmplitude lastMinSliceTime voices numVoices randomEngine
     lastScanValue isRecording looping minSliceTime scanValue
     feedbackAmount mixAmount speed lastOutputL lastOutputR eq delay reverb
     delayWet reverbWet set_loopBuffer set_playbackPosition
     set_playbackPhase set_recordedLength set_lastScanTargetIndex
     set_tempBuffer set_tempSlices set_tempRecordPosition
     set_tempRecordedLength set_tempLastAmplitude set_slices
     set_currentSliceIndex set_lastAmplitude set_lastMinSliceTime
     set_voices set_numVoices set_randomEngine set_lastScanValue
     set_isRecording set_looping set_minSliceTime set_scanValue
     set_feedbackAmount set_mixAmount set_speed set_lastOutputL
     set_lastOutputR set_eq set_delay set_reverb set_delayWet set_reverbWet
     fst snd] in H.

Ltac eng_cases :=
  repeat (eng_simpl;
          match goal with
          | |- context [if ?c then _ else _] =>
              lazymatch c with
              | context [if _ then _ else _] => fail
              | _ => destruct c eqn:?
              end
          end);
  eng_simpl.

Ltac break_match :=
  repeat match goal with
         | |- context [match ?x with _ => _ end] => destruct x
         end.

Section Frames.
Variable lm : Libm.

Lemma redistribute_iter_view st i :
  detector_view (redistribute_iter st i) = detector_view st.
Proof. unfold redistribute_iter. break_match; reflexivity. Qed.

Lemma redistributeVoices_view st :
  detector_view (redistributeVoices st) = detector_view st.
Proof.
  unfold redistributeVoices.
  destruct (_ || _); [reflexivity|].
  apply (fold_left_invariant (fun s => detector_view s = detector_view st)); auto.
  intros a x Ha. now rewrite redistribute_iter_view.
Qed.

Lemma poly_iter_view st i : detector_view (poly_iter st i) = detector_view st.
Proof. unfold poly_iter. break_match; reflexivity. Qed.

Lemma setPolyVoices_view n st :
  detector_view (setPolyVoices n st) = detector_view st.
Proof.
  unfold setPolyVoices.
  destruct (negb _); [|reflexivity].
  match goal with |- context [if ?c then _ else _] => destruct c end.
  - apply (fold_left_invariant (fun s => detector_view s = detector_view st));
      [reflexivity|].
    intros a x Ha. now rewrite poly_iter_view.
  - apply (fold_left_invariant (fun s => detector_view s = detector_view st));
      [reflexivity|].
    intros a x Ha. exact Ha.
Qed.

Lemma setScan_view scan st : detector_view (setScan scan st) = detector_view st.
Proof.
  unfold setScan. match goal with |- context [if ?c then _ else _] => destruct c end;
    [|reflexivity].
  change (detector_view
            (redistributeVoices (set_scanValue (F32.clamp scan F32.zero F32.c1) st))
          = detector_view st).
  now rewrite redistributeVoices_view.
Qed.

Lemma scan_step_view st : detector_view (scan_step st) = detector_view st.
Proof. unfold scan_step. break_match; reflexivity. Qed.

Lemma play_single_view st :
  detector_view (fst (fst (play_single st))) = detector_view st.
Proof. unfold play_single. break_match; reflexivity. Qed.

Lemma play_multi_view st :
  detector_view (fst (fst (play_multi st))) = detector_view st.
Proof. unfold play_multi. break_match; reflexivity. Qed.

Lemma playback_view st :
  detector_view (fst (fst (playback st))) = detector_view st.
Proof.
  unfold playback. destruct (0 <? recordedLength st); [|reflexivity].
  destruct (_ || _); [apply play_single_view|apply play_multi_view].
Qed.

Lemma effects_view input loopL loopR st :
  detector_view (fst (fst (effects lm input loopL loopR st))) = detector_view st.
Proof. unfold effects. break_match; reflexivity. Qed.

End Frames.

(** * The detector's invariants on the engine *)

(** The committed list: closed slices inside the recording. *)
Definition SInv (Q : Slice -> Prop) (st : Engine) : Prop :=
  closed_seq Q 0 (slices st) (Z.max (recordedLength st) 0).

(** The staging list while recording is armed. *)
Definition TInv (Q : Slice -> Prop) (st : Engine) : Prop :=
  isRecording st = true ->
  in_progress Q (tempRecordPosition st) (tempSlices st)
  /\ tempRecordedLength st = tempRecordPosition st
  /\ 0 <= tempRecordPosition st.

Lemma SInv_view Q st st' :
  detector_view st' = detector_view st -> SInv Q st -> SInv Q st'.
Proof.
  unfold detector_view, SInv. intros H. injection H as -> -> _ _ _ _ _ _ _. auto.
Qed.

Lemma TInv_view Q st st' :
  detector_view st' = detector_view st -> TInv Q st -> TInv Q st'.
Proof.
  unfold detector_view, TInv. intros H. injection H as _ _ -> -> -> _ -> _ _. auto.
Qed.

(** The incremental detector's block at a rising crossing (lines 382-397). *)
Definition record_crossing (minSliceSamples pos : Z) (l : list Slice) : list Slice :=
  let l := if back_open l then close_or_drop minSliceSamples pos l else l in
  if back_closed_or_empty l then push_back l (newSlice pos) else l.

Lemma record_crossing_in_progress Q minSliceSamples pos l :
  in_progress Q pos l ->
  record_crossing minSliceSamples pos l = after_crossing minSliceSamples pos l.
Proof.
  intros [->|(cl & o & -> & He & Ha & _)]; [reflexivity|].
  unfold record_crossing. now rewrite back_open_snoc by auto.
Qed.

Section EngineInvariants.
Variable lm : Libm.

(** [minSliceSamples] as [process] and [setRecording] compute it from the
    knob and the sample rate. *)
Definition cur_minSliceSamples (st : Engine) : Z :=
  minSliceSamples_of (getMinSliceTime lm (minSliceTime st)) st.

Lemma cur_minSliceSamples_view st st' :
  detector_view st' = detector_view st ->
  cur_minSliceSamples st' = cur_minSliceSamples st.
Proof.
  unfold detector_view, cur_minSliceSamples, minSliceSamples_of.
  intros H. injection H as _ _ _ _ _ _ _ -> ->. reflexivity.
Qed.

Lemma isRecording_view st st' :
  detector_view st' = detector_view st -> isRecording st' = isRecording st.
Proof. unfold detector_view. intros H. now injection H. Qed.

Lemma record_sample_frame x st :
  slices (record_sample lm x st) = slices st
  /\ recordedLength (record_sample lm x st) = recordedLength st
  /\ isRecording (record_sample lm x st) = isRecording st
  /\ minSliceTime (record_sample lm x st) = minSliceTime st
  /\ sampleRate (record_sample lm x st) = sampleRate st.
Proof. unfold record_sample. break_match; repeat split; reflexivity. Qed.

Lemma record_sample_idle x st :
  isRecording st && (tempRecordPosition st <? LOOP_BUFFER_SIZE) = false ->
  record_sample lm x st = st.
Proof. unfold record_sample. now intros ->. Qed.

Lemma record_sample_temp x st :
  isRecording st && (tempRecordPosition st <? LOOP_BUFFER_SIZE) = true ->
  tempSlices (record_sample lm x st)
  = track_peak (F32.abs x)
      (if F32.lt (tempLastAmplitude st) F32.c0_5 && F32.ge (F32.abs x) F32.c0_5
       then record_crossing (cur_minSliceSamples st) (tempRecordPosition st)
                            (tempSlices st)
       else tempSlices st)
  /\ tempRecordPosition (record_sample lm x st) = tempRecordPosition st + 1
  /\ tempRecordedLength (record_sample lm x st) = tempRecordPosition st + 1
  /\ tempLastAmplitude (record_sample lm x st) = F32.abs x.
Proof.
  unfold record_sample, record_crossing, cur_minSliceSamples,
    minSliceSamples_of. intros ->.
  eng_cases; repeat split; reflexivity.
Qed.

Lemma record_sample_SInv Q x st : SInv Q st -> SInv Q (record_sample lm x st).
Proof.
  unfold SInv. destruct (record_sample_frame x st) as (-> & -> & _). auto.
Qed.

Lemma record_sample_TInv Q x st :
  (forall s, cur_minSliceSamples st <= slice_length s -> Q s) ->
  TInv Q st -> TInv Q (record_sample lm x st).
Proof.
  intros HQ HT.
  destruct (isRecording st && (tempRecordPosition st <? LOOP_BUFFER_SIZE)) eqn:E.
  - unfold TInv in *.
    destruct (record_sample_temp x st E) as (-> & -> & -> & _).
    destruct (record_sample_frame x st) as (_ & _ & -> & _).
    intros Hr. destruct (HT Hr) as (Hp & Hlen & Hpos).
    split; [|lia].
    apply track_peak_in_progress.
    destruct (F32.lt _ _ && _).
    + rewrite (record_crossing_in_progress Q) by exact Hp.
      apply after_crossing_in_progress; auto.
    + eapply in_progress_mono; eauto. lia.
  - now rewrite record_sample_idle.
Qed.

Lemma process_sample_view st x :
  detector_view (fst (process_sample lm st x))
  = detector_view (record_sample lm x st).
Proof.
  unfold process_sample.
  destruct (playback (scan_step (record_sample lm x st))) as [[st1 loopL] loopR] eqn:E1.
  destruct (effects lm x loopL loopR st1) as [[st2 fL] fR] eqn:E2. simpl.
  pose proof (effects_view lm x loopL loopR st1) as H2. rewrite E2 in H2.
  pose proof (playback_view (scan_step (record_sample lm x st))) as H1.
  rewrite E1 in H1. simpl in H1, H2.
  now rewrite H2, H1, scan_step_view.
Qed.

Lemma process_step st x rest :
  process lm st (x :: rest)
  = let '(st1, o) := process_sample lm st x in
    let '(st2, os) := process lm st1 rest in (st2, o :: os).
Proof. reflexivity. Qed.

(** A property of the detector's view kept by every sample is kept by
    the render call. *)
Lemma process_invariant (P : Engine -> Prop) :
  (forall st st', detector_view st' = detector_view st -> P st -> P st') ->
  (forall st x, P st -> P (record_sample lm x st)) ->
  forall inputL st, P st -> P (fst (process lm st inputL)).
Proof.
  intros Hview Hrec. induction inputL as [|x rest IH]; intros st HP; [exact HP|].
  rewrite process_step.
  destruct (process_sample lm st x) as [st1 o] eqn:E1.
  destruct (process lm st1 rest) as [st2 os] eqn:E2. simpl.
  specialize (IH st1). rewrite E2 in IH. apply IH.
  eapply Hview; [|apply (Hrec st x HP)].
  rewrite <- process_sample_view, E1. reflexivity.
Qed.

End EngineInvariants.

Section OperationInvariants.
Variable lm : Libm.

Lemma rescanSlices_idle threshold t st :
  recordedLength st <= 0 -> rescanSlices threshold t st = st.
Proof.
  intros H. unfold rescanSlices.
  destruct (recordedLength st <=? 0) eqn:E; [reflexivity|lia].
Qed.

Lemma rescanSlices_view threshold t st :
  0 < recordedLength st ->
  detector_view (rescanSlices threshold t st)
  = (detect_slices threshold (minSliceSamples_of t st) (loopBuffer st)
                   (recordedLength st),
     recordedLength st, tempSlices st, tempRecordPosition st,
     tempRecordedLength st, tempLastAmplitude st, isRecording st,
     minSliceTime st, sampleRate st).
Proof.
  intros H. unfold rescanSlices, minSliceSamples_of.
  destruct (recordedLength st <=? 0) eqn:E; [lia|].
  eng_cases; reflexivity.
Qed.

Lemma rescanSlices_SInv Q threshold t st :
  (forall s, minSliceSamples_of t st <= slice_length s -> Q s) ->
  SInv Q st -> SInv Q (rescanSlices threshold t st).
Proof.
  intros HQ HS. destruct (Z.le_gt_cases (recordedLength st) 0) as [Hle|Hgt].
  - now rewrite rescanSlices_idle.
  - pose proof (rescanSlices_view threshold t st) as Hv.
    unfold detector_view in Hv. specialize (Hv ltac:(lia)).
    injection Hv as Hs Hl _. unfold SInv. rewrite Hs, Hl.
    now apply detect_slices_closed.
Qed.

Lemma rescanSlices_TInv Q threshold t st :
  TInv Q st -> TInv Q (rescanSlices threshold t st).
Proof.
  intros HT. destruct (Z.le_gt_cases (recordedLength st) 0) as [Hle|Hgt].
  - now rewrite rescanSlices_idle.
  - pose proof (rescanSlices_view threshold t st) as Hv.
    unfold detector_view in Hv. specialize (Hv ltac:(lia)).
    injection Hv as _ _ Ht Hp Hl _ Hr _ _. unfold TInv.
    now rewrite Ht, Hp, Hl, Hr.
Qed.

Lemma setRecording_noop rec st :
  rec = isRecording st -> setRecording lm rec st = st.
Proof.
  intros ->. unfold setRecording. now destruct (isRecording st).
Qed.

Lemma setRecording_start st :
  isRecording st = false ->
  detector_view (setRecording lm true st)
  = (slices st, recordedLength st, [], 0, 0, F32.zero, true,
     minSliceTime st, sampleRate st).
Proof. intros H. unfold setRecording. rewrite H. reflexivity. Qed.

Lemma setRecording_stop st :
  isRecording st = true ->
  let l := close_last (cur_minSliceSamples lm st) (tempRecordedLength st)
                      (tempSlices st) in
  detector_view (setRecording lm false st)
  = (l, tempRecordedLength st, l, tempRecordPosition st,
     tempRecordedLength st, tempLastAmplitude st, false,
     minSliceTime st, sampleRate st).
Proof.
  intros H l. unfold setRecording.
  rewrite H. simpl andb. cbv iota.
  match goal with
  | |- context [if 1 <? _ then redistributeVoices ?s else _] => set (S := s)
  end.
  assert (detector_view S
          = (l, tempRecordedLength st, l, tempRecordPosition st,
             tempRecordedLength st, tempLastAmplitude st, true,
             minSliceTime st, sampleRate st)) as HS.
  { subst S l. unfold detector_view, cur_minSliceSamples, minSliceSamples_of.
    eng_simpl. rewrite H. reflexivity. }
  clearbody S.
  assert (forall S', detector_view S' = detector_view S ->
                     detector_view (set_isRecording false S')
                     = (l, tempRecordedLength st, l, tempRecordPosition st,
                        tempRecordedLength st, tempLastAmplitude st, false,
                        minSliceTime st, sampleRate st)) as Hfin.
  { intros S' HS'. rewrite HS in HS'. unfold detector_view in *. eng_simpl.
    injection HS' as -> -> -> -> -> -> _ -> ->. reflexivity. }
  destruct (1 <? numVoices S); apply Hfin;
    [apply redistributeVoices_view|reflexivity].
Qed.

(** Every public operation keeps the committed list a sequence of closed
    slices inside the recording, and the staging list well formed. *)
Lemma apply_op_Inv st o :
  SInv (fun _ => True) st /\ TInv (fun _ => True) st ->
  SInv (fun _ => True) (apply_op lm st o)
  /\ TInv (fun _ => True) (apply_op lm st o).
Proof.
  intros [HS HT].
  assert (forall st', detector_view st' = detector_view st ->
                      SInv (fun _ => True) st' /\ TInv (fun _ => True) st') as Hframe.
  { intros st' Hv. split; [eapply SInv_view|eapply TInv_view]; eauto. }
  destruct o; simpl; try (apply Hframe; reflexivity).
  - (* setRecording *)
    destruct (Bool.eqb rec (isRecording st)) eqn:E.
    { apply Bool.eqb_prop in E. rewrite setRecording_noop by auto. auto. }
    destruct rec, (isRecording st) eqn:Hr; try discriminate.
    + pose proof (setRecording_start st Hr) as Hv. unfold detector_view in Hv.
      injection Hv as Hs Hl Ht Hp Htl _ Hrr _ _.
      unfold SInv, TInv. rewrite Hs, Hl, Ht, Hp, Htl. split; [exact HS|].
      intros _. split; [now left|lia].
    + pose proof (setRecording_stop st Hr) as Hv. unfold detector_view in Hv.
      simpl in Hv. injection Hv as Hs Hl _ _ _ _ Hrr _ _.
      unfold SInv, TInv. rewrite Hs, Hl, Hrr. split; [|discriminate].
      destruct (HT Hr) as (Hip & -> & _).
      now apply close_last_closed.
  - (* setMinSliceTime *)
    unfold setMinSliceTime.
    match goal with |- context [if ?c then _ else _] => destruct c eqn:E end.
    + match goal with
      | |- context [redistributeVoices ?s] =>
          pose proof (redistributeVoices_view s) as Hv
      end.
      match type of Hv with
      | _ = detector_view (rescanSlices ?th ?t ?s0) =>
          assert (SInv (fun _ => True) (rescanSlices th t s0)
                  /\ TInv (fun _ => True) (rescanSlices th t s0)) as [HS' HT']
            by (split; [apply rescanSlices_SInv|apply rescanSlices_TInv]; auto)
      end.
      split; [eapply SInv_view; [|exact HS']|eapply TInv_view; [|exact HT']];
        rewrite <- Hv; reflexivity.
    + split; [exact HS|exact HT].
  - apply Hframe. apply setScan_view.
  - apply Hframe. apply setPolyVoices_view.
  - split; [apply rescanSlices_SInv|apply rescanSlices_TInv]; auto.
  - apply Hframe. apply redistributeVoices_view.
  - (* process *)
    apply (process_invariant lm
             (fun s => SInv (fun _ => True) s /\ TInv (fun _ => True) s)); auto.
    + intros s s' Hv [? ?]. split; [eapply SInv_view|eapply TInv_view]; eauto.
    + intros s x [? ?]. split;
        [now apply record_sample_SInv|now apply record_sample_TInv].
  - (* clear *)
    unfold SInv, TInv, clear. eng_simpl. split; [simpl; lia|discriminate].
Qed.

Lemma Alien4AudioEngine_Inv sr g :
  SInv (fun _ => True) (Alien4AudioEngine lm sr g)
  /\ TInv (fun _ => True) (Alien4AudioEngine lm sr g).
Proof. split; [unfold SInv; simpl; lia|discriminate]. Qed.

Lemma run_Inv ops st :
  SInv (fun _ => True) st /\ TInv (fun _ => True) st ->
  SInv (fun _ => True) (run lm st ops) /\ TInv (fun _ => True) (run lm st ops).
Proof.
  intros H. unfold run. apply fold_left_invariant; auto.
  intros a x. apply apply_op_Inv.
Qed.

End OperationInvariants.

(** * Binary32 comparison and the output clamp *)

Lemma SFcompare_antisym (a b : float) :
  SFcompare b a = option_map CompOpp (SFcompare a b).
Proof.
  destruct a as [sa|sa| |sa ma ea], b as [sb|sb| |sb mb eb]; simpl;
    try reflexivity;
    try (destruct sa; reflexivity); try (destruct sb; reflexivity);
    try (destruct sa, sb; reflexivity).
  pose proof (Pos.compare_cont_antisym ma mb Eq) as Hm. simpl in Hm.
  destruct sa, sb; simpl; try reflexivity;
    rewrite (Z.compare_antisym ea eb); destruct (ea ?= eb); simpl;
    try reflexivity; rewrite <- Hm; try reflexivity;
    now rewrite CompOpp_involutive.
Qed.

(** [!(hi < v)] for a [v] that is not a NaN gives [v <= hi]. *)
Lemma not_lt_le (a b : float) :
  F32.lt a b = false -> SFcompare a b <> None -> F32.le b a = true.
Proof.
  unfold F32.lt, F32.le, SFltb, SFleb. rewrite (SFcompare_antisym a b).
  destruct (SFcompare a b) as [[]|]; simpl; congruence.
Qed.

Lemma lt_le (a b : float) : F32.lt a b = true -> F32.le a b = true.
Proof.
  unfold F32.lt, F32.le, SFltb, SFleb.
  destruct (SFcompare a b) as [[]|]; congruence.
Qed.

(** A finite float between [-10.0f] and [10.0f]. *)
Definition in_clamp_range (x : float) : Prop :=
  F32.is_finite x = true
  /\ F32.le (F32.opp F32.c10) x = true /\ F32.le x F32.c10 = true.

(** Whatever [value] is (a NaN and the infinities included),
    [clamp(value, -10.0f, 10.0f)] is a finite float in [-10, 10]: a NaN
    fails both comparisons of [std::min] and [std::max] and comes out as
    [-10.0f]. *)
Lemma clamp_in_range (value : float) :
  in_clamp_range (F32.clamp value (F32.opp F32.c10) F32.c10).
Proof.
  unfold in_clamp_range, F32.clamp, F32.max, F32.min.
  destruct (F32.lt F32.c10 value) eqn:Hhi.
  - vm_compute. auto.
  - destruct (F32.lt (F32.opp F32.c10) value) eqn:Hlo.
    + assert (SFcompare F32.c10 value <> None) as Hn.
      { destruct value; try discriminate; vm_compute in Hlo; discriminate. }
      repeat split.
      * destruct value as [| [] | |]; try reflexivity; vm_compute in Hhi, Hlo;
          discriminate.
      * now apply lt_le.
      * now apply not_lt_le.
    + vm_compute. auto.
Qed.

(** * The claims *)

Lemma process_sample_output lm st x :
  exists finalL finalR,
    snd (process_sample lm st x)
    = (F32.clamp finalL (F32.opp F32.c10) F32.c10,
       F32.clamp finalR (F32.opp F32.c10) F32.c10).
Proof.
  unfold process_sample.
  destruct (playback _) as [[st1 loopL] loopR].
  destruct (effects lm x loopL loopR st1) as [[st2 finalL] finalR].
  now exists finalL, finalR.
Qed.

(** C1.  A render call on [n] input samples, whatever they are (NaN and
    infinities included) and whatever state the setters left the engine in,
    writes exactly [n] output pairs, and every written sample of both
    channels is a finite float within the clamp range [-10, 10]. *)
Theorem C1_process_output_finite_and_clamped :
  forall (lm : Libm) (st : Engine) (inputL : list float),
    length (snd (process lm st inputL)) = length inputL
    /\ Forall (fun o => in_clamp_range (fst o) /\ in_clamp_range (snd o))
              (snd (process lm st inputL)).
Proof.
  intros lm st inputL. revert st.
  induction inputL as [|x rest IH]; intros st; [split; [reflexivity|constructor]|].
  rewrite process_step.
  destruct (process_sample_output lm st x) as (fL & fR & Ho).
  destruct (process_sample lm st x) as [st1 o]. simpl in Ho. subst o.
  specialize (IH st1). destruct (process lm st1 rest) as [st2 os].
  simpl in *. destruct IH as [IHl IHf]. split; [now rewrite IHl|].
  constructor; [|exact IHf]. simpl. split; apply clamp_in_range.
Qed.

(** ** C2: the single pulse *)

(** The recorded signal of the test: 1000 samples, [1.0f] on 100..199. *)
Definition pulse_input : list float :=
  repeat F32.zero 100 ++ repeat F32.c1 100 ++ repeat F32.zero 800.

(** [7 / 32768] seconds: at 48 kHz, [(int)(t * sampleRate)] is 10. *)
Definition t_10_samples : float :=
  Eval vm_compute in F32.div (F32.of_int 7) (F32.of_int 32768).

Definition k0_625 : float := Eval vm_compute in F32.lit 625 3.
Definition sr48000 : float := Eval vm_compute in F32.of_int 48000.

Definition pulse_slice (e : Z) : Slice :=
  {| startSample := 100; endSample := e; peakAmplitude := F32.c1; active := true |}.

(** C2, as the code behaves.  On the 1000-sample buffer that is zero except
    for [1.0f] on 100..199, with threshold 0.5 and [minSliceSamples = 10],
    the detector produces exactly one slice; it starts at 100 and, no later
    onset closing it, it is closed at the end of the recording:
    [endSample = 999].  The same list is what [rescanSlices(0.5f, t)] leaves
    in an engine at 48 kHz that recorded and committed this signal. *)
Theorem C2_single_pulse_slice_runs_to_end :
  detect_slices F32.c0_5 10 (pulse_buffer 1000 100 199) 1000 = [pulse_slice 999]
  /\ forall (lm : Libm) (g : RandomEngine),
       let st := run lm (Alien4AudioEngine lm sr48000 g)
                   [OpSetMinSliceTime k0_625; OpSetRecording true;
                    OpProcess pulse_input; OpSetRecording false;
                    OpRescanSlices F32.c0_5 t_10_samples] in
       recordedLength st = 1000
       /\ minSliceSamples_of t_10_samples st = 10
       /\ slices st = [pulse_slice 999].
Proof.
  split; [vm_compute; reflexivity|].
  intros lm g. vm_compute. auto.
Qed.

(** C2 as stated fails: the list is not a single slice ending at 199. *)
Lemma C2_counterexample :
  ~ (exists s, detect_slices F32.c0_5 10 (pulse_buffer 1000 100 199) 1000 = [s]
               /\ startSample s = 100 /\ endSample s = 199).
Proof.
  intros (s & Hs & _ & He).
  assert (detect_slices F32.c0_5 10 (pulse_buffer 1000 100 199) 1000
          = [pulse_slice 999]) as H by (vm_compute; reflexivity).
  rewrite H in Hs. injection Hs as <-. discriminate He.
Qed.

(** ** C7: silence *)

(** Every sample of the first [len] is a zero (of either sign). *)
Definition all_zero (buf : fvec) (len : Z) : Prop :=
  forall i, 0 <= i < len -> exists s, fv_get buf i = S754_zero s.

Lemma zero_below_threshold (threshold : float) (s : bool) :
  F32.lt F32.zero threshold = true ->
  F32.ge (F32.abs (S754_zero s)) threshold = false.
Proof.
  unfold F32.lt, F32.ge, F32.abs, SFltb, SFleb.
  destruct threshold as [| [] | | [] ? ?]; simpl; congruence.
Qed.

Lemma rescan_loop_silence threshold minSliceSamples buf (n : nat) :
  F32.lt F32.zero threshold = true ->
  all_zero buf (Z.of_nat n) ->
  exists a, fold_left (rescan_iter threshold minSliceSamples buf)
                      (seqZ 0 (Z.of_nat n)) ([], F32.zero) = ([], a).
Proof.
  intros Hthr. induction n as [|n IH]; intros Hz; [now exists F32.zero|].
  rewrite seqZ_S, fold_left_app. simpl.
  destruct IH as [a ->]. { intros i Hi. apply Hz. lia. }
  destruct (Hz (Z.of_nat n)) as [s Hs]; [lia|].
  unfold rescan_iter. rewrite Z.add_0_l, Hs, zero_below_threshold by auto.
  rewrite andb_false_r. now eexists.
Qed.

(** C7.  For every buffer length, every threshold strictly greater than 0
    and every [minSliceSamples], the slice detector run over a buffer whose
    samples are all zero produces the empty slice list. *)
Theorem C7_silence_gives_no_slices :
  forall (threshold : float) (minSliceSamples : Z) (buf : fvec) (len : Z),
    F32.lt F32.zero threshold = true ->
    all_zero buf len ->
    detect_slices threshold minSliceSamples buf len = [].
Proof.
  intros threshold minSliceSamples buf len Hthr Hz. unfold detect_slices.
  destruct (Z.le_gt_cases len 0) as [Hle|Hgt].
  - rewrite seqZ_nil by lia. reflexivity.
  - destruct (rescan_loop_silence threshold minSliceSamples buf (Z.to_nat len) Hthr)
      as [a Ha].
    { rewrite Z2Nat.id by lia. exact Hz. }
    rewrite Z2Nat.id in Ha by lia. rewrite Ha. reflexivity.
Qed.

Lemma C7_witness :
  F32.lt F32.zero F32.c0_5 = true
  /\ all_zero (fv_zeros 1000) 1000
  /\ detect_slices F32.c0_5 10 (fv_zeros 1000) 1000 = [].
Proof.
  assert (all_zero (fv_zeros 1000) 1000) as Hz.
  { intros i _. exists false. reflexivity. }
  split; [reflexivity|]. split; [exact Hz|].
  apply (C7_silence_gives_no_slices F32.c0_5 10 (fv_zeros 1000) 1000);
    [reflexivity|exact Hz].
Defined.

(** The same through [rescanSlices] on an engine holding a recording. *)
Lemma rescanSlices_silence threshold t st :
  0 < recordedLength st ->
  F32.lt F32.zero threshold = true ->
  all_zero (loopBuffer st) (recordedLength st) ->
  slices (rescanSlices threshold t st) = [].
Proof.
  intros Hlen Hthr Hz.
  pose proof (rescanSlices_view threshold t st Hlen) as Hv.
  unfold detector_view in Hv. injection Hv as -> _.
  now apply C7_silence_gives_no_slices.
Qed.

(** ** C5: ordering and non-overlap *)

Section StagingOrder.
Variable lm : Libm.

Lemma tempSlices_view st st' :
  detector_view st' = detector_view st -> tempSlices st' = tempSlices st.
Proof. unfold detector_view. intros H. now injection H. Qed.

Lemma rescanSlices_temp threshold t st :
  tempSlices (rescanSlices threshold t st) = tempSlices st.
Proof.
  destruct (Z.le_gt_cases (recordedLength st) 0) as [Hle|Hgt].
  - now rewrite rescanSlices_idle.
  - pose proof (rescanSlices_view threshold t st Hgt) as Hv.
    unfold detector_view in Hv. now injection Hv.
Qed.

Lemma record_sample_ascending x st :
  TInv (fun _ => True) st ->
  ascending_disjoint (tempSlices st) ->
  ascending_disjoint (tempSlices (record_sample lm x st)).
Proof.
  intros HT HA.
  destruct (isRecording st && (tempRecordPosition st <? LOOP_BUFFER_SIZE)) eqn:E.
  - pose proof (record_sample_TInv lm (fun _ => True) x st (fun _ _ => I) HT) as HT'.
    destruct (record_sample_frame lm x st) as (_ & _ & Hr & _).
    apply andb_prop in E as [E _]. rewrite <- Hr in E.
    destruct (HT' E) as (Hip & _). eapply in_progress_ascending; eauto.
  - now rewrite record_sample_idle.
Qed.

(** The staging list is ascending and non-overlapping after every public
    operation, armed or not. *)
Lemma apply_op_temp_ascending st o :
  TInv (fun _ => True) st ->
  ascending_disjoint (tempSlices st) ->
  ascending_disjoint (tempSlices (apply_op lm st o)).
Proof.
  intros HT HA.
  assert (forall st', detector_view st' = detector_view st ->
                      ascending_disjoint (tempSlices st')) as Hframe.
  { intros st' Hv. now rewrite (tempSlices_view _ _ Hv). }
  destruct o; simpl; try (apply Hframe; reflexivity).
  - destruct (Bool.eqb rec (isRecording st)) eqn:E.
    { apply Bool.eqb_prop in E. now rewrite setRecording_noop. }
    destruct rec, (isRecording st) eqn:Hr; try discriminate.
    + pose proof (setRecording_start lm st Hr) as Hv. unfold detector_view in Hv.
      injection Hv as _ _ -> _. intros i j a b Hi. discriminate Hi.
    + pose proof (setRecording_stop lm st Hr) as Hv. unfold detector_view in Hv.
      simpl in Hv. injection Hv as _ _ -> _.
      destruct (HT Hr) as (Hip & Hlen & _). rewrite Hlen.
      eapply closed_seq_ascending.
      apply (close_last_closed (fun _ => True) _ _ _ (fun _ _ => I) Hip).
  - unfold setMinSliceTime.
    match goal with |- context [if ?c then _ else _] => destruct c end; [|exact HA].
    cbn [tempSlices set_lastMinSliceTime].
    rewrite (tempSlices_view _ _ (redistributeVoices_view _)).
    rewrite rescanSlices_temp. exact HA.
  - apply Hframe, setScan_view.
  - apply Hframe, setPolyVoices_view.
  - now rewrite rescanSlices_temp.
  - apply Hframe, redistributeVoices_view.
  - apply (process_invariant lm
             (fun s => TInv (fun _ => True) s /\ ascending_disjoint (tempSlices s)));
      auto.
    + intros s s' Hv [? ?]. split; [eapply TInv_view; eauto|].
      now rewrite (tempSlices_view _ _ Hv).
    + intros s x [? ?]. split;
        [now apply record_sample_TInv|now apply record_sample_ascending].
Qed.

Lemma run_ordered ops st :
  SInv (fun _ => True) st /\ TInv (fun _ => True) st
  /\ ascending_disjoint (tempSlices st) ->
  SInv (fun _ => True) (run lm st ops) /\ TInv (fun _ => True) (run lm st ops)
  /\ ascending_disjoint (tempSlices (run lm st ops)).
Proof.
  intros H. unfold run. apply fold_left_invariant; auto.
  intros a x (HS & HT & HA).
  destruct (apply_op_Inv lm a x (conj HS HT)). auto using apply_op_temp_ascending.
Qed.

End StagingOrder.

(** C5.  For every buffer, length, threshold and minimal length, the list
    the batch detector produces is strictly ascending by [startSample] and
    no slice reaches the start of a later one; and after any sequence of
    public calls on a freshly constructed engine the committed list (from
    rescans and from incremental recording) and the staging list of the
    incremental detector are so ordered too. *)
Theorem C5_slices_ascending_and_disjoint :
  (forall (threshold : float) (minSliceSamples : Z) (buf : fvec) (len : Z),
      ascending_disjoint (detect_slices threshold minSliceSamples buf len))
  /\ (forall (lm : Libm) (sr : float) (g : RandomEngine) (ops : list Op),
         ascending_disjoint (slices (run lm (Alien4AudioEngine lm sr g) ops))
         /\ ascending_disjoint (tempSlices (run lm (Alien4AudioEngine lm sr g) ops))).
Proof.
  split.
  - intros threshold minSliceSamples buf len.
    eapply closed_seq_ascending.
    apply (detect_slices_closed (fun _ => True)). auto.
  - intros lm sr g ops.
    destruct (run_ordered lm ops (Alien4AudioEngine lm sr g)) as (HS & _ & HA).
    { destruct (Alien4AudioEngine_Inv lm sr g) as [HS HT].
      split; [exact HS|split; [exact HT|]].
      intros i j a b Hi. discriminate Hi. }
    split; [eapply closed_seq_ascending; exact HS|exact HA].
Qed.

(** ** C6: minimum length *)

(** Every slice of the list has at least [m] samples. *)
Definition min_length (m : Z) (l : list Slice) : Prop :=
  Forall (fun s => m <= slice_length s) l.

(** A statement that holds whatever the platform's libm computes. *)
Definition for_every_libm (P : Libm -> Prop) : Prop := forall lm, P lm.

(** The calls that leave an armed recording and the minimum-slice-time
    parameter alone. *)
Definition keeps_recording_parameters (o : Op) : bool :=
  match o with
  | OpSetRecording _ | OpSetMinSliceTime _ | OpClear => false
  | _ => true
  end.

Lemma closed_seq_min_length m lo l hi :
  closed_seq (fun s => m <= slice_length s) lo l hi -> min_length m l.
Proof.
  intros H. apply closed_seq_Forall in H.
  eapply Forall_impl; [exact H|]. simpl. tauto.
Qed.

Section MinimumLength.
Variable lm : Libm.

(** While armed with [minSliceSamples = m]: the closed staging slices
    have at least [m] samples. *)
Definition armed (m : Z) (st : Engine) : Prop :=
  isRecording st = true /\ cur_minSliceSamples lm st = m
  /\ TInv (fun s => m <= slice_length s) st.

Lemma armed_view m st st' :
  detector_view st' = detector_view st -> armed m st -> armed m st'.
Proof.
  intros Hv (Hr & Hm & HT). split; [|split].
  - now rewrite (isRecording_view _ _ Hv).
  - now rewrite (cur_minSliceSamples_view lm _ _ Hv).
  - eapply TInv_view; eauto.
Qed.

Lemma armed_record_sample m x st : armed m st -> armed m (record_sample lm x st).
Proof.
  intros (Hr & Hm & HT).
  destruct (record_sample_frame lm x st) as (_ & _ & Hr' & Hk & Hs).
  split; [|split].
  - congruence.
  - unfold cur_minSliceSamples, minSliceSamples_of in *. now rewrite Hk, Hs.
  - apply record_sample_TInv; auto. intros s. now rewrite Hm.
Qed.

Lemma armed_rescanSlices m threshold t st :
  armed m st -> armed m (rescanSlices threshold t st).
Proof.
  intros H. destruct (Z.le_gt_cases (recordedLength st) 0) as [Hle|Hgt].
  - now rewrite rescanSlices_idle.
  - destruct H as (Hr & Hm & HT).
    pose proof (rescanSlices_view threshold t st Hgt) as Hv.
    unfold detector_view in Hv. injection Hv as _ _ Ht Hp Hl _ Hrr Hk Hs.
    split; [|split].
    + congruence.
    + unfold cur_minSliceSamples, minSliceSamples_of in *. now rewrite Hk, Hs.
    + unfold TInv. now rewrite Ht, Hp, Hl, Hrr.
Qed.

Lemma armed_apply_op m st o :
  keeps_recording_parameters o = true -> armed m st -> armed m (apply_op lm st o).
Proof.
  intros Hk H.
  destruct o; try discriminate Hk; simpl;
    try (apply (armed_view m st); [reflexivity|exact H]).
  - eapply armed_view; [apply setScan_view|exact H].
  - eapply armed_view; [apply setPolyVoices_view|exact H].
  - now apply armed_rescanSlices.
  - eapply armed_view; [apply redistributeVoices_view|exact H].
  - apply (process_invariant lm (armed m)); auto.
    + intros s s'. apply armed_view.
    + intros s x. apply armed_record_sample.
Qed.

Lemma armed_run m body st :
  forallb keeps_recording_parameters body = true ->
  armed m st -> armed m (run lm st body).
Proof.
  revert st. induction body as [|o body IH]; intros st Hk H; [exact H|].
  simpl in Hk. apply andb_prop in Hk as [Ho Hk].
  unfold run. simpl. apply IH; auto. now apply armed_apply_op.
Qed.

Lemma commit_min_length st body :
  isRecording st = false ->
  forallb keeps_recording_parameters body = true ->
  let st' := run lm st (OpSetRecording true :: body ++ [OpSetRecording false]) in
  min_length (cur_minSliceSamples lm st') (slices st').
Proof.
  intros Hr Hk.
  set (m := cur_minSliceSamples lm st).
  assert (armed m (setRecording lm true st)) as H1.
  { pose proof (setRecording_start lm st Hr) as Hv. unfold detector_view in Hv.
    injection Hv as _ _ Ht Hp Hl _ Hrr Hkn Hs. split; [|split].
    - exact Hrr.
    - unfold m, cur_minSliceSamples, minSliceSamples_of. now rewrite Hkn, Hs.
    - unfold TInv. rewrite Ht, Hp, Hl. intros _. split; [now left|lia]. }
  pose proof (armed_run m body _ Hk H1) as (Hr2 & Hm2 & HT2).
  cbv zeta. unfold run. simpl fold_left. rewrite fold_left_app. simpl fold_left.
  fold (run lm (setRecording lm true st) body).
  set (s2 := run lm (setRecording lm true st) body) in *.
  pose proof (setRecording_stop lm s2 Hr2) as Hv. unfold detector_view in Hv.
  simpl in Hv. injection Hv as Hsl _ _ _ _ _ _ Hkn Hs.
  assert (cur_minSliceSamples lm (setRecording lm false s2) = m) as ->.
  { unfold cur_minSliceSamples, minSliceSamples_of in *. now rewrite Hkn, Hs. }
  rewrite Hsl. destruct (HT2 Hr2) as (Hip & Hlen & _). rewrite Hlen, Hm2.
  eapply closed_seq_min_length.
  apply (close_last_closed (fun s => m <= slice_length s)); auto.
Qed.

End MinimumLength.

(** C6, as the code behaves.  Every slice the batch detector produces has at
    least [minSliceSamples] samples, so after a rescan on a recording every
    committed slice has at least the [minSliceSamples] of that rescan,
    [(int)(minSliceTimeSec * sampleRate)].  After a stop-recording commit
    every committed slice has at least the [minSliceSamples] computed at
    the commit provided the recording was not interrupted and the
    minimum-slice-time parameter was not set between the start of the
    recording and the commit: a slice closed during the recording was
    measured against the parameter of that moment, and only the last, open
    slice is measured at the commit. *)
Theorem C6_minimum_length_when_parameter_is_kept :
  (forall (threshold : float) (minSliceSamples : Z) (buf : fvec) (len : Z),
      min_length minSliceSamples
                 (detect_slices threshold minSliceSamples buf len))
  /\ (forall (threshold t : float) (st : Engine),
         0 < recordedLength st ->
         min_length (minSliceSamples_of t st)
                    (slices (rescanSlices threshold t st)))
  /\ (forall (lm : Libm) (st : Engine) (body : list Op),
         isRecording st = false ->
         forallb keeps_recording_parameters body = true ->
         let st' := run lm st (OpSetRecording true :: body ++ [OpSetRecording false]) in
         min_length (cur_minSliceSamples lm st') (slices st')).
Proof.
  split; [|split].
  - intros threshold m buf len. eapply closed_seq_min_length.
    apply (detect_slices_closed (fun s => m <= slice_length s)). auto.
  - intros threshold t st Hlen.
    pose proof (rescanSlices_view threshold t st Hlen) as Hv.
    unfold detector_view in Hv. injection Hv as Hs _.
    rewrite Hs. eapply closed_seq_min_length.
    apply (detect_slices_closed (fun s => _ <= slice_length s)). auto.
  - intros lm st body. apply commit_min_length.
Qed.

(** *** Concrete sessions *)

(** A random engine whose slice draws are all 0 and whose speed draws are
    all [1.0f]. *)
Definition g_const : RandomEngine :=
  {| int_draws := repeat 0 64; real_draws := repeat F32.c1 64 |}.

Definition sr100 : float := Eval vm_compute in F32.of_int 100.

(** An onset ([1.0f]) followed by [k] silent samples. *)
Definition onset (k : nat) : list float := F32.c1 :: repeat F32.zero k.

(** At 100 Hz: arm with a minimum slice time of 2 s (knob 0.625, 200
    samples), record two onsets 200 samples apart, raise the knob to 1.0
    (5 s, 500 samples) while still recording, and stop. *)
Definition C6_session : list Op :=
  [OpSetMinSliceTime k0_625; OpSetRecording true;
   OpProcess (onset 199 ++ onset 199);
   OpSetMinSliceTime F32.c1; OpSetRecording false].

Lemma C6_session_state lm :
  let st := run lm (Alien4AudioEngine lm sr100 g_const) C6_session in
  slices st = [ {| startSample := 0; endSample := 199;
                   peakAmplitude := F32.c1; active := true |} ]
  /\ cur_minSliceSamples lm st = 500.
Proof. vm_compute. auto. Qed.

(** C6 as stated fails: right after this commit the committed list holds a
    slice of 200 samples while [minSliceSamples], computed from the
    parameter active at the commit, is 500. *)
Lemma C6_counterexample :
  for_every_libm (fun lm =>
    let st := run lm (Alien4AudioEngine lm sr100 g_const) C6_session in
    ~ min_length (cur_minSliceSamples lm st) (slices st)).
Proof.
  intros lm. destruct (C6_session_state lm) as [Hs Hm]. cbv zeta in *.
  rewrite Hs, Hm. intros H. inversion H as [|s l Hlen _]; subst.
  unfold slice_length in Hlen. simpl in Hlen. lia.
Qed.

Lemma C6_witness :
  for_every_libm (fun lm =>
    let st := setMinSliceTime lm k0_625 (Alien4AudioEngine lm sr100 g_const) in
    let body := [OpProcess (onset 199 ++ onset 199); OpSetScan F32.c0_5] in
    let st' := run lm st (OpSetRecording true :: body ++ [OpSetRecording false]) in
    0 < recordedLength st'
    /\ isRecording st = false
    /\ forallb keeps_recording_parameters body = true
    /\ min_length (cur_minSliceSamples lm st') (slices st')
    /\ min_length (minSliceSamples_of F32.c1 st')
                  (slices (rescanSlices F32.c0_5 F32.c1 st'))).
Proof.
  intros lm. cbv zeta.
  assert (0 < recordedLength
                (run lm (setMinSliceTime lm k0_625 (Alien4AudioEngine lm sr100 g_const))
                     (OpSetRecording true
                      :: [OpProcess (onset 199 ++ onset 199); OpSetScan F32.c0_5]
                      ++ [OpSetRecording false]))) as Hlen
    by (vm_compute; reflexivity).
  split; [exact Hlen|]. split; [reflexivity|]. split; [reflexivity|]. split.
  - apply (proj2 (proj2 C6_minimum_length_when_parameter_is_kept) lm);
      reflexivity.
  - apply (proj1 (proj2 C6_minimum_length_when_parameter_is_kept)). exact Hlen.
Defined.

(** ** C10 and C3: the current slice index after a rescan in poly mode *)

(** [1 / 128] seconds: at 48 kHz, [(int)(t * sampleRate)] is 375. *)
Definition t_375_samples : float :=
  Eval vm_compute in F32.div (F32.of_int 1) (F32.of_int 128).

(** At 100 Hz, through the setters only.  Record two slices of 200 samples
    (minimum 2 s), switch to two voices, scan to the last slice and render
    one sample; then raise the minimum slice time to 5 s, which rescans the
    recording into an empty list, and render one more sample. *)
Definition C10_session_setters : list Op :=
  [OpSetMinSliceTime k0_625; OpSetRecording true;
   OpProcess (onset 199 ++ onset 199); OpSetRecording false;
   OpSetPolyVoices 2; OpSetScan F32.c1; OpProcess [F32.zero];
   OpSetMinSliceTime F32.c1; OpProcess [F32.zero]].

(** At 48 kHz.  Record 1000 samples with onsets at 0, 300 and 600, commit,
    rescan with a minimum of 10 samples (three slices), switch to two
    voices, scan to the last slice and render one sample; then rescan with
    a minimum of 375 samples (one slice is left) and render one sample. *)
Definition C10_session_48k : list Op :=
  [OpSetMinSliceTime k0_625; OpSetRecording true;
   OpProcess (onset 299 ++ onset 299 ++ onset 399); OpSetRecording false;
   OpRescanSlices F32.c0_5 t_10_samples;
   OpSetPolyVoices 2; OpSetScan F32.c1; OpProcess [F32.zero];
   OpRescanSlices F32.c0_5 t_375_samples; OpProcess [F32.zero]].

(** C10 fails on the code.  In both sessions the rescan itself clamps
    [currentSliceIndex] (to 0), but voice 0 keeps the slice index it was
    given by the scan, and the next render call copies it back:
    [getCurrentSlice()] is 1 with an empty list in the first session, and 2
    with a list of one slice in the second. *)
Theorem C10_current_slice_left_out_of_range :
  forall lm : Libm,
    (let before := run lm (Alien4AudioEngine lm sr100 g_const)
                       (removelast C10_session_setters) in
     let st := run lm (Alien4AudioEngine lm sr100 g_const) C10_session_setters in
     getNumSlices before = 0 /\ getCurrentSlice before = 0
     /\ getNumSlices st = 0 /\ getCurrentSlice st = 1)
    /\ (let before := run lm (Alien4AudioEngine lm sr48000 g_const)
                          (removelast C10_session_48k) in
        let st := run lm (Alien4AudioEngine lm sr48000 g_const) C10_session_48k in
        getNumSlices before = 1 /\ getCurrentSlice before = 0
        /\ getNumSlices st = 1 /\ getCurrentSlice st = 2).
Proof. intros lm. split; vm_compute; auto. Qed.

(** *** What [setPolyVoices] does guarantee *)

(** Index [t] is a slice of the list that is active and starts inside the
    recording, or it is the engine's current slice index [cur]. *)
Definition valid_or_current (sl : list Slice) (recLen cur t : Z) : Prop :=
  (0 <= t < size sl /\ active (slice_at sl t) = true
   /\ startSample (slice_at sl t) < recLen)
  \/ t = cur.

(** What [poly_iter], [draw_int] and the retry loop leave untouched. *)
Definition poly_frame (st st' : Engine) : Prop :=
  slices st' = slices st /\ recordedLength st' = recordedLength st
  /\ currentSliceIndex st' = currentSliceIndex st
  /\ numVoices st' = numVoices st
  /\ length (voices st') = length (voices st).

Lemma draw_int_nonneg n g : 0 < n -> 0 <= fst (draw_int n g).
Proof.
  intros Hn. unfold draw_int. destruct (int_draws g); simpl; [lia|].
  apply Z.mod_pos_bound. lia.
Qed.

Lemma retry_draw_nonneg invalid n left target g :
  0 < n -> 0 <= target -> 0 <= fst (retry_draw invalid n left target g).
Proof.
  intros Hn. revert target g.
  induction left as [|left IH]; intros target g Ht; simpl; [exact Ht|].
  destruct (invalid target); [|exact Ht].
  pose proof (draw_int_nonneg n g Hn) as Hd.
  destruct (draw_int n g) as [t' g']. apply IH. exact Hd.
Qed.

Lemma poly_iter_spec st i :
  0 <= i -> 0 < size (slices st) ->
  poly_frame st (poly_iter st i)
  /\ exists v,
       voices (poly_iter st i) = <[ Z.to_nat i := v ]> (voices st)
       /\ (i = 0 -> Voice.sliceIndex v = currentSliceIndex st)
       /\ valid_or_current (slices st) (recordedLength st) (currentSliceIndex st)
                           (Voice.sliceIndex v).
Proof.
  intros Hi Hn. unfold poly_iter, poly_frame.
  destruct (i =? 0) eqn:E0.
  - eng_simpl. rewrite length_insert. repeat split.
    exists (inherit_voice st). repeat split. now right.
  - pose proof (draw_int_nonneg (size (slices st)) (randomEngine st) Hn) as Hd.
    destruct (draw_int (size (slices st)) (randomEngine st)) as [t0 g0].
    pose proof (retry_draw_nonneg (poly_invalid st) (size (slices st)) 20 t0 g0 Hn Hd)
      as Hr.
    destruct (retry_draw (poly_invalid st) (size (slices st)) 20 t0 g0) as [t1 g1].
    simpl in Hr. cbv zeta.
    change (poly_invalid (set_randomEngine g1 st) t1) with (poly_invalid st t1).
    eng_simpl. destruct (draw_real g1) as [spd g2]. eng_simpl.
    rewrite length_insert.
    repeat split. eexists. split; [reflexivity|]. simpl. split; [lia|].
    destruct (poly_invalid st t1) eqn:Ev; [now right|]. left.
    unfold poly_invalid in Ev.
    apply orb_false_elim in Ev as [Ev E3]. apply orb_false_elim in Ev as [E1 E2].
    apply negb_false_iff in E2. repeat split; auto; lia.
Qed.

Lemma fold_poly_iter_spec (l : list Z) : forall st,
  Forall (fun i => 0 <= i) l -> 0 < size (slices st) ->
  let st' := fold_left poly_iter l st in
  poly_frame st st'
  /\ forall (j : nat) (v : Voice.t),
       voices st' !! j = Some v ->
       (In (Z.of_nat j) l ->
        valid_or_current (slices st) (recordedLength st) (currentSliceIndex st)
                         (Voice.sliceIndex v)
        /\ (j = 0%nat -> Voice.sliceIndex v = currentSliceIndex st))
       /\ (~ In (Z.of_nat j) l -> voices st !! j = Some v).
Proof.
  induction l as [|a l IH]; intros st Hl Hn.
  - simpl. split; [unfold poly_frame; auto|]. intros j v Hv. split; [tauto|auto].
  - inversion Hl as [|? ? Ha Hl']; subst. simpl fold_left. cbv zeta.
    destruct (poly_iter_spec st a Ha Hn)
      as ((Fs & Fr & Fc & Fn & Fl) & va & Hva & Hv0 & Hgood).
    assert (0 < size (slices (poly_iter st a))) as Hn' by now rewrite Fs.
    destruct (IH (poly_iter st a) Hl' Hn') as ((Gs & Gr & Gc & Gn & Gl) & Hall).
    split; [unfold poly_frame; repeat split; congruence|].
    intros j v Hv. destruct (Hall j v Hv) as [Hin Hout].
    rewrite Fs, Fr, Fc in Hin.
    destruct (in_dec Z.eq_dec (Z.of_nat j) l) as [Hjl|Hjl].
    + split; [intros _; now apply Hin|]. simpl. tauto.
    + specialize (Hout Hjl). rewrite Hva in Hout.
      destruct (Z.eq_dec a (Z.of_nat j)) as [->|Hne].
      * rewrite Nat2Z.id in Hout.
        apply list_lookup_insert_Some in Hout as [(_ & <- & _)|(Hc & _)]; [|lia].
        split; [|simpl; tauto]. intros _. split; [exact Hgood|].
        intros ->. now apply Hv0.
      * rewrite list_lookup_insert_ne in Hout by lia.
        split; [|auto]. simpl. intros [?|?]; [lia|tauto].
Qed.

(** The resize from 1 to 8 voices over a non-empty slice list: eight
    voices, each bound to a slice that is active and starts inside the
    recording, or else to the engine's current slice index, which is what
    voice 0 is always bound to. *)
Lemma setPolyVoices_1_to_8 (st : Engine) :
  numVoices st = 1 -> 0 < size (slices st) ->
  let st' := setPolyVoices 8 st in
  numVoices st' = 8 /\ length (voices st') = 8%nat
  /\ currentSliceIndex st' = currentSliceIndex st
  /\ forall (j : nat) (v : Voice.t),
       voices st' !! j = Some v ->
       valid_or_current (slices st) (recordedLength st) (currentSliceIndex st)
                        (Voice.sliceIndex v)
       /\ (j = 0%nat -> Voice.sliceIndex v = currentSliceIndex st).
Proof.
  intros H1 Hn. unfold setPolyVoices. rewrite H1. simpl negb. cbv iota beta zeta.
  eng_simpl. change (clampZ 8 1 8) with 8.
  assert (negb (size (slices st) =? 0) && (1 <? 8) = true) as ->.
  { destruct (size (slices st) =? 0) eqn:E; [|reflexivity].
    apply Z.eqb_eq in E. exfalso. lia. }
  set (st1 := set_voices _ _).
  assert (length (voices st1) = 8%nat) as Hlen.
  { subst st1. eng_simpl. unfold resize_voices.
    rewrite length_app, length_take, length_replicate.
    change (Z.to_nat 8) with 8%nat. lia. }
  destruct (fold_poly_iter_spec (seqZ 0 8) st1) as ((Fs & Fr & Fc & Fn & Fl) & Hall).
  { apply Forall_seqZ. lia. }
  { exact Hn. }
  split; [rewrite Fn; reflexivity|]. split; [rewrite Fl; exact Hlen|].
  split; [rewrite Fc; reflexivity|].
  intros j v Hv. destruct (Hall j v Hv) as [Hin _]. apply Hin.
  apply list_elem_of_In, elem_of_seqZ.
  apply lookup_lt_Some in Hv. rewrite Fl, Hlen in Hv. lia.
Qed.

(** The sessions of C10, followed by [setPolyVoices(1)] and then the resize
    from 1 to 8 voices. *)
Definition C3_session_setters : list Op :=
  [OpSetMinSliceTime k0_625; OpSetRecording true;
   OpProcess (onset 199 ++ onset 199 ++ onset 499); OpSetRecording false;
   OpSetPolyVoices 2; OpSetScan F32.c1; OpProcess [F32.zero];
   OpSetMinSliceTime F32.c1; OpProcess [F32.zero];
   OpSetPolyVoices 1; OpSetPolyVoices 8].

Definition C3_session_48k : list Op :=
  C10_session_48k ++ [OpSetPolyVoices 1; OpSetPolyVoices 8].

(** What the voices are bound to. *)
Definition bound_slices (st : Engine) : list Z := map Voice.sliceIndex (voices st).

(** C3 fails on the code.  Before the last call there is one voice and one
    committed slice; [setPolyVoices(8)] leaves eight voices, seven bound to
    slice 0 and voice 0 bound to index 2, outside the list: it inherits
    [currentSliceIndex], which C10's defect left out of range. *)
Theorem C3_voice_bound_out_of_range :
  forall lm : Libm,
    (let before := run lm (Alien4AudioEngine lm sr100 g_const)
                       (removelast C3_session_setters) in
     let st := run lm (Alien4AudioEngine lm sr100 g_const) C3_session_setters in
     getNumVoices before = 1 /\ getNumSlices before = 1
     /\ getNumVoices st = 8 /\ getNumSlices st = 1
     /\ bound_slices st = [2; 0; 0; 0; 0; 0; 0; 0])
    /\ (let before := run lm (Alien4AudioEngine lm sr48000 g_const)
                          (removelast C3_session_48k) in
        let st := run lm (Alien4AudioEngine lm sr48000 g_const) C3_session_48k in
        getNumVoices before = 1 /\ getNumSlices before = 1
        /\ getNumVoices st = 8 /\ getNumSlices st = 1
        /\ bound_slices st = [2; 0; 0; 0; 0; 0; 0; 0]).
Proof. intros lm. split; vm_compute; auto 10. Qed.

(** ** C4: non-finite interpolated samples *)

(** In the multi-voice path a voice whose interpolated sample is not finite
    leaves both accumulators as they are. *)
Lemma play_voice_skips_nonfinite st vs loopL loopR v :
  let vc := voice_at vs v in
  let voiceSpeed :=
    F32.clamp (speed st * Voice.speedMultiplier vc)%f32 (F32.opp F32.c16) F32.c16 in
  let phase := (Voice.playbackPhase vc + voiceSpeed)%f32 in
  let delta := F32.to_int phase in
  let position :=
    wrap_position (slices st) (Voice.sliceIndex vc) (recordedLength st)
                  (F32.lt voiceSpeed F32.zero) (Voice.playbackPosition vc + delta) in
  F32.is_finite
    (snd (read_sample (loopBuffer st) (recordedLength st) position
                      (phase - F32.of_int delta)%f32)) = false ->
  snd (fst (play_voice st (vs, loopL, loopR) v)) = loopL
  /\ snd (play_voice st (vs, loopL, loopR) v) = loopR.
Proof.
  cbv zeta. unfold play_voice.
  destruct (read_sample _ _ _ _) as [p s]. simpl. intros ->. auto.
Qed.

(** At 48 kHz, one voice: record the single sample [+inf], commit. *)
Definition C4_session : list Op :=
  [OpSetMinSliceTime k0_625; OpSetRecording true;
   OpProcess [F32.pinf]; OpSetRecording false].

(** C4 fails on the code in the single-voice path.  After the session the
    playback block reads the recorded [+inf], interpolates it to a NaN, and
    assigns it to both loop outputs: there is no [std::isfinite] test on
    that path, and the NaN goes into the mix. *)
Theorem C4_single_voice_passes_nonfinite_sample :
  forall lm : Libm,
    let st := run lm (Alien4AudioEngine lm sr48000 g_const) C4_session in
    getNumVoices st = 1 /\ recordedLength st = 1
    /\ snd (fst (playback st)) = F32.nan /\ snd (playback st) = F32.nan.
Proof. intros lm. vm_compute. auto. Qed.

(** ** C8: the reverb's diffusion stages *)

Module ReverbFacts.
Import Reverb.

(** One diffusion stage as the loop body runs it: the left sample and then
    the right sample through buffer [j] and its index. *)
Definition shared_stage (j : nat)
    (s : float * float * list fvec * list Z) : float * float * list fvec * list Z :=
  let '(diffusedL, diffusedR, bufs, idxs) := s in
  let '(dl, b, i) :=
    processAllpassFilter diffusedL (at_ (fv_zeros 0) bufs j) (at_ 0 idxs j) in
  let '(dr, b, i) := processAllpassFilter diffusedR b i in
  (dl, dr, <[ j := b ]> bufs, <[ j := i ]> idxs).

Lemma diffuse_four_shared_stages combOutL combOutR bufs idxs :
  diffuse combOutL combOutR bufs idxs
  = shared_stage 3 (shared_stage 2 (shared_stage 1 (shared_stage 0
      (combOutL, combOutR, bufs, idxs)))).
Proof. reflexivity. Qed.

(** The index of a stage of size [size] after one sample: two steps. *)
Definition two_steps (size index : Z) : Z := cmod (cmod (index + 1) size + 1) size.

Lemma shared_stage_index j dl dr bufs idxs :
  (j < length bufs)%nat -> (j < length idxs)%nat ->
  let '(_, _, bufs', idxs') := shared_stage j (dl, dr, bufs, idxs) in
  map fv_size bufs' = map fv_size bufs
  /\ idxs' = <[ j := two_steps (fv_size (at_ (fv_zeros 0) bufs j)) (at_ 0 idxs j) ]> idxs.
Proof.
  intros Hb Hi. unfold shared_stage, processAllpassFilter. simpl.
  split; [|reflexivity].
  rewrite list_fmap_insert. simpl. apply list_insert_id.
  rewrite list_lookup_fmap. unfold at_.
  destruct (bufs !! j) eqn:E; [reflexivity|].
  apply lookup_ge_None in E. lia.
Qed.

(** The per-sample state of the four stages: sizes kept, every index two
    steps further. *)
Lemma process_iter_allpass fb dc rs l r rv i0 i1 i2 i3 :
  map fv_size (allpassBuffers rv) = ALLPASS_SIZES ->
  allpassIndices rv = [i0; i1; i2; i3] ->
  let rv' := fst (process_iter fb dc rs l r rv) in
  map fv_size (allpassBuffers rv') = ALLPASS_SIZES
  /\ allpassIndices rv'
     = [two_steps 556 i0; two_steps 441 i1; two_steps 341 i2; two_steps 225 i3].
Proof.
  intros Hs Hi. unfold process_iter.
  destruct (comb_bank _ _ _ (combBuffersL rv) _ _) as [[[sumL cbL] ciL] clL].
  destruct (comb_bank _ _ _ (combBuffersR rv) _ _) as [[[sumR cbR] ciR] clR].
  rewrite diffuse_four_shared_stages, Hi.
  destruct (allpassBuffers rv) as [|b0 [|b1 [|b2 [|b3 [|]]]]]; try discriminate Hs.
  injection Hs as H0 H1 H2 H3.
  unfold shared_stage, processAllpassFilter, at_. simpl.
  rewrite H0, H1, H2, H3. split; reflexivity.
Qed.






End ReverbFacts.



(** ** C9: the equaliser at 0 dB, in binary32 *)

Module EQBinary32.

(** A function known at finitely many arguments, by the encodings of the
    arguments and of the values; NaN elsewhere. *)
Definition table (l : list (Z * Z)) (x : float) : float :=
  match List.find (fun kv => SFeqb x (F32.of_bits (fst kv))) l with
  | Some kv => F32.of_bits (snd kv)
  | None => F32.nan
  end.

(** The math library at the arguments the equaliser passes it at 48 kHz and
    0 dB: [pow(x, 0) = 1] and [tanh(0) = 0], which the C standard fixes, and
    the correctly rounded sine and cosine of the three [w0] (250 Hz, 1 kHz
    and 4 kHz), which are the values of glibc's [sinf] and [cosf]. *)
Definition libm_48k : Libm :=
  {| powf := fun x y => match y with S754_zero _ => F32.c1 | _ => F32.nan end;
     tanhf := fun x => match x with S754_zero _ => x | _ => F32.nan end;
     sinf := table [(0x3d060a92, 0x3d060472); (0x3e060a92, 0x3e05a8a9);
                    (0x3f060a92, 0x3f000000)];
     cosf := table [(0x3d060a92, 0x3f7fdce9); (0x3e060a92, 0x3f7dcf55);
                    (0x3f060a92, 0x3f5db3d7)] |}.

(** [ThreeBandEQ eq(48000.0f)]. *)
Definition eq_48k : EQ.t (T := float) := EQ.make (arithF libm_48k) sr48000.

Definition outputs (ins : list (float * float)) : list (float * float) :=
  snd (EQ.run (arithF libm_48k) eq_48k ins).

Definition FLT_MAX : float := F32.of_bits 0x7f7fffff.

Definition finite_pair (p : float * float) : bool :=
  F32.is_finite (fst p) && F32.is_finite (snd p).

(** [|a - b| <= tol] *)
Definition within (tol a b : float) : bool := F32.le (F32.abs (a - b)%f32) tol.

(** The claim at binary32, in its weakest reading: on every sequence of
    finite input pairs, every output pair is within some tolerance of its
    input pair. *)
Definition identity_up_to_tolerance : Prop :=
  forall ins : list (float * float),
    forallb finite_pair ins = true ->
    exists tol : float,
      Forall2 (fun o i => within tol (fst o) (fst i) = true
                          /\ within tol (snd o) (snd i) = true)
              (outputs ins) ins.

(** The three [w0] of the constructor are the arguments of the tables. *)
Lemma w0_48k :
  map (fun f => w0_f32 (F32.of_int f) sr48000) [250; 1000; 4000]
  = map F32.of_bits [0x3d060a92; 0x3e060a92; 0x3f060a92].
Proof. vm_compute. reflexivity. Qed.

(** The coefficients [b0, b1, b2, a1, a2] of the three bands. *)
Lemma coefficients_48k :
  let coeffs (c : EQ.BiquadCoeffs) := [EQ.b0 c; EQ.b1 c; EQ.b2 c; EQ.a1 c; EQ.a2 c] in
  coeffs (EQ.lowShelf eq_48k)
  = map F32.of_bits [0x3f800000; 0xbffa13c1; 0x3f746c1b; 0xbffa13c1; 0x3f746c1b]
  /\ coeffs (EQ.midPeak eq_48k)
     = map F32.of_bits [0x3f800000; 0xbfee42a1; 0x3f60a1e7; 0xbfee42a1; 0x3f60a1e7]
  /\ coeffs (EQ.highShelf eq_48k)
     = map F32.of_bits [0x3f800000; 0xbfa3cafe; 0x3ef486f8; 0xbfa3cafe; 0x3ef486f8].
Proof. vm_compute. auto. Qed.

(** A biquad whose numerator and denominator coincide, at binary32. *)
Definition unit_coeffs (c : EQ.BiquadCoeffs (T := float)) : Prop :=
  EQ.b0 c = F32.c1 /\ EQ.b1 c = EQ.a1 c /\ EQ.b2 c = EQ.a2 c.

Lemma unit_coeffs_48k :
  unit_coeffs (EQ.lowShelf eq_48k) /\ unit_coeffs (EQ.midPeak eq_48k)
  /\ unit_coeffs (EQ.highShelf eq_48k).
Proof. unfold unit_coeffs. vm_compute. auto 10. Qed.

(** Eight samples of ordinary size: 0.5, -0.25, 0.125, 1, 0.001, 0.3, -0.7
    and 0.9 on the left, the same in reverse on the right.  The outputs
    are not the inputs, but each is within [2^-19] of its input. *)
Definition ordinary : list (float * float) :=
  let xs := map F32.of_bits [0x3f000000; 0xbe800000; 0x3e000000; 0x3f800000;
                         0x3a83126f; 0x3e99999a; 0xbf333333; 0x3f666666] in
  combine xs (rev xs).

Lemma ordinary_run :
  outputs ordinary
  = combine
      (map F32.of_bits [0x3f000000; 0xbe7ffffc; 0x3e00000a; 0x3f800002;
                    0x3a831ea0; 0x3e9999ac; 0xbf333326; 0x3f66667b])
      (map F32.of_bits [0x3f666666; 0xbf333334; 0x3e99998c; 0x3a82fb00;
                    0x3f7ffff1; 0x3dffff67; 0xbe80002c; 0x3effffd1])
  /\ forallb (fun oi => within (F32.of_bits 0x36000000) (fst (fst oi)) (fst (snd oi))
                        && within (F32.of_bits 0x36000000) (snd (fst oi)) (snd (snd oi)))
             (combine (outputs ordinary) ordinary) = true.
Proof. vm_compute. auto. Qed.

(** The largest finite float, then silence: the second output pair is NaN. *)
Lemma overflow_run :
  outputs [(FLT_MAX, FLT_MAX); (F32.zero, F32.zero)]
  = [(FLT_MAX, FLT_MAX); (F32.nan, F32.nan)].
Proof. vm_compute. reflexivity. Qed.

End EQBinary32.

(** C9 as stated fails at binary32: after the finite input [FLT_MAX] the
    products [b1 * x1] and [a1 * y1] of the low shelf overflow, their
    difference is a NaN, and no tolerance holds for the next output. *)
Lemma C9_counterexample : ~ EQBinary32.identity_up_to_tolerance.
Proof.
  intros H.
  destruct (H [(EQBinary32.FLT_MAX, EQBinary32.FLT_MAX); (F32.zero, F32.zero)] eq_refl)
    as [tol Htol].
  rewrite EQBinary32.overflow_run in Htol.
  inversion Htol as [|? ? ? ? _ Hrest]; subst.
  inversion Hrest as [|? ? ? ? [Hl _] _]; subst.
  simpl in Hl. unfold EQBinary32.within in Hl.
  destruct tol; discriminate Hl.
Qed.

(** ** Binary32 rounding, read at the real numbers *)

Module Rounding.

(** [fexp] at binary32: the exponent of the last place of a number of
    magnitude below [2^x]. *)
Definition fexp32 (x : Z) : Z := Z.max (x - 24) (-149).

Lemma fexp32_eq x : fexp F32.prec F32.emax x = fexp32 x.
Proof. reflexivity. Qed.

Definition digits (m : positive) : Z := Zpos (digits2_pos m).

Lemma digits_pos m : 1 <= digits m.
Proof. unfold digits. lia. Qed.

Lemma digits_bounds m : 2 ^ (digits m - 1) <= Zpos m < 2 ^ digits m.
Proof.
  assert (Zpos m < 2 ^ digits m <= 2 * Zpos m) as H.
  { unfold digits. induction m as [m IH|m IH|]; cbn [digits2_pos].
    - rewrite Pos2Z.inj_succ, Pos2Z.inj_xI, Z.pow_succ_r by lia. lia.
    - rewrite Pos2Z.inj_succ, Pos2Z.inj_xO, Z.pow_succ_r by lia. lia.
    - cbn. lia. }
  pose proof (digits_pos m) as Hd.
  replace (digits m) with (Z.succ (digits m - 1)) in H by lia.
  rewrite Z.pow_succ_r in H by lia.
  replace (digits m) with (Z.succ (digits m - 1)) at 2 by lia.
  rewrite Z.pow_succ_r by lia. lia.
Qed.

Lemma digits_unique m k : 2 ^ (k - 1) <= Zpos m < 2 ^ k -> digits m = k.
Proof.
  intros [Hlo Hhi]. pose proof (digits_bounds m) as [Dlo Dhi].
  pose proof (digits_pos m) as Hd.
  assert (1 <= k) as Hk.
  { destruct (Z_lt_le_dec k 1) as [Hlt|]; [|assumption].
    assert (2 ^ k <= 2 ^ 0) as H by (apply Z.pow_le_mono_r; lia).
    change (2 ^ 0) with 1 in H. lia. }
  destruct (Z_lt_le_dec (digits m) k) as [Hlt|Hge].
  - assert (2 ^ digits m <= 2 ^ (k - 1)) by (apply Z.pow_le_mono_r; lia). lia.
  - destruct (Z_lt_le_dec k (digits m)) as [Hlt|Hge']; [|lia].
    assert (2 ^ k <= 2 ^ (digits m - 1)) by (apply Z.pow_le_mono_r; lia). lia.
Qed.

Lemma digits_le m k : 0 <= k -> Zpos m < 2 ^ k -> digits m <= k.
Proof.
  intros Hk Hhi. pose proof (digits_bounds m) as [Dlo _].
  destruct (Z_lt_le_dec k (digits m)) as [Hlt|]; [|assumption].
  assert (2 ^ k <= 2 ^ (digits m - 1)) by (apply Z.pow_le_mono_r; lia). lia.
Qed.

Lemma digits_ge m k : 2 ^ (k - 1) <= Zpos m -> k <= digits m.
Proof.
  intros Hlo. pose proof (digits_bounds m) as [_ Dhi]. pose proof (digits_pos m).
  destruct (Z_lt_le_dec (digits m) k) as [Hlt|]; [|assumption].
  assert (2 ^ digits m <= 2 ^ (k - 1)) by (apply Z.pow_le_mono_r; lia). lia.
Qed.

(** *** The right shift that keeps a round bit and a sticky bit *)

Lemma iter_pos_nat {A} (f : A -> A) p : forall x,
  SpecFloat.iter_pos f p x = Nat.iter (Pos.to_nat p) f x.
Proof.
  induction p as [p IH|p IH|]; intros x.
  - change (SpecFloat.iter_pos f p~1 x)
      with (SpecFloat.iter_pos f p (SpecFloat.iter_pos f p (f x))).
    rewrite !IH, Pos2Nat.inj_xI.
    replace (S (2 * Pos.to_nat p)) with (Pos.to_nat p + (Pos.to_nat p + 1))%nat by lia.
    rewrite !Nat.iter_add. reflexivity.
  - change (SpecFloat.iter_pos f p~0 x)
      with (SpecFloat.iter_pos f p (SpecFloat.iter_pos f p x)).
    rewrite !IH, Pos2Nat.inj_xO.
    replace (2 * Pos.to_nat p)%nat with (Pos.to_nat p + Pos.to_nat p)%nat by lia.
    rewrite Nat.iter_add. reflexivity.
  - reflexivity.
Qed.

Lemma shr_1_spec m r s :
  0 <= m ->
  shr_1 {| shr_m := m; shr_r := r; shr_s := s |}
  = {| shr_m := m / 2; shr_r := Z.odd m; shr_s := r || s |}.
Proof.
  intros Hm. destruct m as [|p|p]; [reflexivity| |lia].
  destruct p as [p|p|]; cbn [shr_1].
  - f_equal. rewrite Pos2Z.inj_xI.
    apply (Z.div_unique_pos _ _ _ 1); lia.
  - f_equal. rewrite Pos2Z.inj_xO.
    apply (Z.div_unique_pos _ _ _ 0); lia.
  - reflexivity.
Qed.

(** After [k] shifts of [m]: the quotient, with the round bit the last bit
    shifted out and the sticky bit clear only if the bits before were 0. *)
Lemma shr_nat m k :
  0 <= m ->
  let rec := Nat.iter k shr_1 {| shr_m := m; shr_r := false; shr_s := false |} in
  shr_m rec = m / 2 ^ Z.of_nat k
  /\ (shr_r rec || shr_s rec = false -> m mod 2 ^ Z.of_nat k = 0)
  /\ ((1 <= k)%nat ->
      shr_r rec = Z.odd (m / 2 ^ (Z.of_nat k - 1))
      /\ (shr_s rec = false -> m mod 2 ^ (Z.of_nat k - 1) = 0)).
Proof.
  intros Hm. induction k as [|k IH]; cbv zeta.
  - cbn. rewrite Z.div_1_r. split; [reflexivity|]. split; [intros _; apply Z.mod_1_r|lia].
  - cbv zeta in IH. destruct IH as (HA & HB & _).
    rewrite Nat.iter_succ.
    destruct (Nat.iter k shr_1 _) as [q r s]. cbn [shr_m shr_r shr_s] in *.
    assert (0 <= q) as Hq by (subst q; apply Z.div_pos; lia).
    rewrite shr_1_spec by exact Hq. cbn [shr_m shr_r shr_s].
    rewrite Nat2Z.inj_succ.
    replace (Z.succ (Z.of_nat k) - 1) with (Z.of_nat k) by lia.
    rewrite Z.pow_succ_r by lia.
    assert (0 < 2 ^ Z.of_nat k) as Hp by (apply Z.pow_pos_nonneg; lia).
    split; [subst q; rewrite Z.mul_comm, Z.div_div by lia; reflexivity|].
    split.
    + intros H. apply orb_false_elim in H as [Hodd Hrs].
      specialize (HB Hrs).
      rewrite Z.mul_comm, Z.rem_mul_r by lia.
      rewrite HB, Zmod_odd, <- HA, Hodd. lia.
    + intros _. split; [now rewrite HA|exact HB].
Qed.

(** Round to nearest even after [k >= 1] shifts is within half a unit of
    the last place kept. *)
Lemma round_shifted m k :
  0 <= m -> (1 <= k)%nat ->
  let rec := Nat.iter k shr_1 {| shr_m := m; shr_r := false; shr_s := false |} in
  let m1 := round_nearest_even (shr_m rec) (loc_of_shr_record rec) in
  (m1 = m / 2 ^ Z.of_nat k \/ m1 = m / 2 ^ Z.of_nat k + 1)
  /\ 2 * Z.abs (m1 * 2 ^ Z.of_nat k - m) <= 2 ^ Z.of_nat k.
Proof.
  intros Hm Hk. cbv zeta.
  destruct (shr_nat m k Hm) as (HA & _ & HC). destruct (HC Hk) as [Hr Hs]. clear HC.
  destruct (Nat.iter k shr_1 _) as [q r s]. cbn [shr_m shr_r shr_s] in *.
  set (n := Z.of_nat k) in *. assert (1 <= n) as Hn by lia.
  assert (0 < 2 ^ (n - 1)) as Hp by (apply Z.pow_pos_nonneg; lia).
  assert (2 ^ n = 2 ^ (n - 1) * 2) as Hpow.
  { replace n with (Z.succ (n - 1)) at 1 by lia. rewrite Z.pow_succ_r by lia. lia. }
  assert (m mod 2 ^ n = m mod 2 ^ (n - 1) + 2 ^ (n - 1) * ((m / 2 ^ (n - 1)) mod 2))
    as Hmod by (rewrite Hpow; apply Z.rem_mul_r; lia).
  pose proof (Z.div_mod m (2 ^ n) ltac:(lia)) as Hdm. rewrite <- HA in Hdm.
  pose proof (Z.mod_pos_bound m (2 ^ (n - 1)) Hp) as Hlow.
  rewrite Zmod_odd, <- Hr in Hmod.
  destruct r.
  - (* the round bit is set *)
    assert (m1_cases :
              round_nearest_even q (loc_of_shr_record
                                      {| shr_m := q; shr_r := true; shr_s := s |}) = q + 1
              \/ (round_nearest_even q (loc_of_shr_record
                                          {| shr_m := q; shr_r := true; shr_s := s |}) = q
                  /\ s = false)).
    { destruct s; cbn; [now left|]. destruct (Z.even q); [right|left]; auto. }
    destruct m1_cases as [->|[-> Hs0]].
    + split; [right; now rewrite HA|]. lia.
    + split; [left; exact HA|]. specialize (Hs Hs0). lia.
  - assert (round_nearest_even q (loc_of_shr_record
                                    {| shr_m := q; shr_r := false; shr_s := s |}) = q) as ->
      by (destruct s; reflexivity).
    split; [left; exact HA|]. lia.
Qed.


(** *** Powers of two and the value of a float *)

Definition bpow (e : Z) : R := powerRZ 2 e.

Lemma bpow_pos e : (0 < bpow e)%R.
Proof. apply powerRZ_lt. lra. Qed.

Lemma bpow_add a b : bpow (a + b) = (bpow a * bpow b)%R.
Proof. apply powerRZ_add. lra. Qed.

Lemma bpow_IZR k : 0 <= k -> bpow k = IZR (2 ^ k).
Proof.
  intros Hk. unfold bpow. rewrite <- (Z2Nat.id k Hk) at 1.
  rewrite <- pow_powerRZ, pow_IZR, Z2Nat.id by exact Hk. reflexivity.
Qed.

Lemma bpow_le a b : a <= b -> (bpow a <= bpow b)%R.
Proof.
  intros H. replace b with (a + (b - a)) by lia. rewrite bpow_add.
  rewrite (bpow_IZR (b - a)) by lia.
  assert (1 <= 2 ^ (b - a)) as H1.
  { change 1 with (2 ^ 0). apply Z.pow_le_mono_r; lia. }
  apply IZR_le in H1. pose proof (bpow_pos a). nra.
Qed.

Lemma bpow_lt a b : a < b -> (bpow a < bpow b)%R.
Proof.
  intros H. replace b with (a + (b - a)) by lia. rewrite bpow_add.
  rewrite (bpow_IZR (b - a)) by lia.
  assert (2 ^ 1 <= 2 ^ (b - a)) as H1 by (apply Z.pow_le_mono_r; lia).
  change (2 ^ 1) with 2 in H1. apply IZR_le in H1. pose proof (bpow_pos a). nra.
Qed.

Lemma bpow_lt_inv a b : (bpow a < bpow b)%R -> a < b.
Proof.
  intros H. destruct (Z_lt_le_dec a b) as [|Hge]; [assumption|].
  apply bpow_le in Hge. lra.
Qed.

Definition signed (s : bool) (x : R) : R := if s then (- x)%R else x.

(** The real number a float denotes; 0 for the infinities and NaN. *)
Definition val (x : float) : R :=
  match x with
  | S754_finite s m e => signed s (IZR (Zpos m) * bpow e)
  | _ => 0%R
  end.

(** A binary32 number: a zero, or a finite float whose mantissa and
    exponent are those of the format. *)
Definition ok (x : float) : Prop :=
  match x with
  | S754_zero _ => True
  | S754_finite _ m e => bounded F32.prec F32.emax m e = true
  | _ => False
  end.

(** [r] is a binary32 number of sign [s] and magnitude [x]. *)
Definition denotes (r : float) (s : bool) (x : R) : Prop :=
  ok r /\ val r = signed s x.

Lemma bounded_spec m e :
  bounded F32.prec F32.emax m e = true <-> fexp32 (digits m + e) = e /\ e <= 104.
Proof.
  unfold bounded, canonical_mantissa. rewrite andb_true_iff, Z.eqb_eq, Z.leb_le.
  reflexivity.
Qed.

(** The second normalisation of [binary_round_aux]: a mantissa of at most
    [2^24], which is [2^24] only through a carry of the rounding. *)
Lemma second_stage s m1 e1 :
  0 <= m1 <= 2 ^ 24 -> -149 <= e1 <= 103 -> (m1 < 2 ^ 23 -> e1 = -149) ->
  denotes
    (let '(mrs, e2) := shr_fexp F32.prec F32.emax m1 e1 loc_Exact in
     match shr_m mrs with
     | Z0 => S754_zero s
     | Zpos m => if e2 <=? F32.emax - F32.prec then S754_finite s m e2
                 else S754_infinity s
     | Zneg _ => S754_nan
     end)
    s (IZR m1 * bpow e1).
Proof.
  intros Hm He Hsub. unfold denotes, shr_fexp.
  change (fexp F32.prec F32.emax) with fexp32.
  change (F32.emax - F32.prec) with 104.
  destruct m1 as [|p|p]; [| |lia].
  - (* zero *)
    cbn [Zdigits2 shr_record_of_loc]. unfold fexp32.
    replace (Z.max (0 + e1 - 24) (-149) - e1) with (Z.max (-24) (-149 - e1)) by lia.
    assert (Z.max (-24) (-149 - e1) <= 0) as Hn by lia.
    destruct (Z.max (-24) (-149 - e1)) as [|q|q]; [| lia|]; cbn;
      (split; [exact I|destruct s; cbn; lra]).
  - cbn [Zdigits2 shr_record_of_loc]. fold (digits p).
    pose proof (digits_bounds p) as [Dlo Dhi]. pose proof (digits_pos p) as Dpos.
    destruct (Z.eq_dec (Zpos p) (2 ^ 24)) as [E|NE].
    + (* the carry: one exact shift *)
      assert (digits p = 25) as -> by (apply digits_unique; rewrite E; cbn; lia).
      assert (fexp32 (25 + e1) - e1 = 1) as -> by (unfold fexp32; lia).
      assert (p = 16777216%positive) as -> by (cbn in E; lia).
      cbn [shr SpecFloat.iter_pos shr_1 shr_m].
      replace (e1 + 1 <=? 104) with true by (symmetry; apply Z.leb_le; lia).
      split.
      * apply bounded_spec. split; [|lia].
        change (digits 8388608) with 24. unfold fexp32. lia.
      * cbn [val]. rewrite bpow_add.
        replace (bpow 1) with 2%R by (symmetry; apply (powerRZ_1 2)).
        destruct s; cbn [signed]; lra.
    + assert (digits p <= 24) as Dle by (apply digits_le; lia).
      assert (fexp32 (digits p + e1) - e1 = 0) as ->.
      { unfold fexp32.
        destruct (Z_lt_le_dec (Zpos p) (2 ^ 23)) as [Hlt|Hge]; [rewrite (Hsub Hlt); lia|].
        assert (24 <= digits p) by (apply digits_ge; exact Hge). lia. }
      cbn [shr shr_m].
      replace (e1 <=? 104) with true by (symmetry; apply Z.leb_le; lia).
      split; [|reflexivity].
      apply bounded_spec. split; [|lia]. unfold fexp32.
      destruct (Z_lt_le_dec (Zpos p) (2 ^ 23)) as [Hlt|Hge]; [rewrite (Hsub Hlt); lia|].
      assert (24 <= digits p) by (apply digits_ge; exact Hge). lia.
Qed.

(** [binary_round_aux] on an exact mantissa [m] at exponent [e] that has
    at least the digits of the format: the result is a binary32 number
    [m1 * 2^e1] with [e1 = fexp32 (digits m + e)], within half a unit of
    the last place of [m * 2^e]. *)
Lemma round_aux_core s m e :
  let e1 := fexp32 (digits m + e) in
  e <= e1 -> digits m + e <= 127 ->
  exists m1,
    0 <= m1
    /\ 2 * Z.abs (m1 * 2 ^ (e1 - e) - Zpos m) <= 2 ^ (e1 - e)
    /\ denotes (binary_round_aux F32.prec F32.emax s (Zpos m) e loc_Exact)
               s (IZR m1 * bpow e1).
Proof.
  intros e1 He Hov. unfold binary_round_aux.
  pose proof (digits_bounds m) as [Dlo Dhi]. pose proof (digits_pos m) as Dpos.
  assert (-149 <= e1 <= 103) as He1 by (unfold e1, fexp32; lia).
  unfold shr_fexp at 1. change (fexp F32.prec F32.emax) with fexp32.
  cbn [Zdigits2 shr_record_of_loc]. fold (digits m). fold e1.
  assert (e1 = fexp32 (digits m + e)) as Edef by reflexivity. clearbody e1.
  unfold fexp32 in Edef.
  destruct (e1 - e) as [|p|p] eqn:En; [| |lia].
  - (* no shift *)
    cbn [shr shr_m loc_of_shr_record round_nearest_even].
    assert (e1 = e) as -> by lia.
    exists (Zpos m). split; [lia|]. split; [cbn; lia|].
    apply second_stage; [|lia|].
    + split; [lia|]. assert (digits m <= 24) by lia.
      assert (2 ^ digits m <= 2 ^ 24) by (apply Z.pow_le_mono_r; lia). lia.
    + intros Hlt. assert (digits m <= 23) by (apply digits_le; lia). lia.
  - cbn [shr]. rewrite iter_pos_nat.
    assert (e + Zpos p = e1) as -> by lia.
    destruct (round_shifted (Zpos m) (Pos.to_nat p) ltac:(lia) ltac:(lia))
      as [Hm1 Herr].
    rewrite positive_nat_Z in Hm1, Herr.
    set (m1 := round_nearest_even _ _) in *. clearbody m1.
    assert (0 < 2 ^ Zpos p) as Hpp by (apply Z.pow_pos_nonneg; lia).
    assert (0 <= Zpos m / 2 ^ Zpos p) as Hq0 by (apply Z.div_pos; lia).
    assert (Zpos m / 2 ^ Zpos p < 2 ^ 24) as Hq24.
    { apply Z.div_lt_upper_bound; [lia|]. rewrite <- Z.pow_add_r by lia.
      assert (2 ^ digits m <= 2 ^ (Zpos p + 24)) by
        (apply Z.pow_le_mono_r; lia). lia. }
    exists m1. split; [lia|]. split; [exact Herr|].
    apply second_stage; [lia|lia|].
    intros Hlt. destruct (Z.eq_dec e1 (-149)) as [|Hne]; [assumption|exfalso].
    assert (Zpos p = digits m - 24) as Hp by lia.
    assert (2 ^ 23 <= Zpos m / 2 ^ Zpos p); [|lia].
    apply Z.div_le_lower_bound; [lia|]. rewrite <- Z.pow_add_r by lia.
    replace (Zpos p + 23) with (digits m - 1) by lia. exact Dlo.
Qed.


(** *** The standard model of the three operations *)

(** Half a unit in the last place, relative ([2^-24]) and absolute
    ([2^-150], below the smallest subnormal). *)
Definition eps : R := bpow (-24).
Definition eta : R := bpow (-150).

(** [r] is a binary32 number within the rounding error of [x]. *)
Definition rounds_to (r : float) (x : R) : Prop :=
  ok r /\ (Rabs (val r - x) <= eps * Rabs x + eta)%R.

Lemma eps_pos : (0 < eps)%R.
Proof. apply bpow_pos. Qed.

Lemma eta_pos : (0 < eta)%R.
Proof. apply bpow_pos. Qed.

Lemma rounds_to_exact r x : ok r -> val r = x -> rounds_to r x.
Proof.
  intros Hok <-. split; [exact Hok|].
  replace (val r - val r)%R with 0%R by ring. rewrite Rabs_R0.
  pose proof eps_pos. pose proof eta_pos. pose proof (Rabs_pos (val r)). nra.
Qed.

Lemma Rabs_signed s x : Rabs (signed s x) = Rabs x.
Proof. destruct s; cbn [signed]; [apply Rabs_Ropp|reflexivity]. Qed.

Lemma signed_minus s x y : (signed s x - signed s y)%R = signed s (x - y).
Proof. destruct s; cbn [signed]; ring. Qed.

Lemma IZR_pos_bpow m e : (0 < IZR (Zpos m) * bpow e)%R.
Proof.
  apply Rmult_lt_0_compat; [apply IZR_lt; lia|apply bpow_pos].
Qed.

Lemma no_overflow m e :
  (IZR (Zpos m) * bpow e < bpow 127)%R -> digits m + e <= 127.
Proof.
  intros H. pose proof (digits_bounds m) as [Dlo _]. pose proof (digits_pos m).
  apply IZR_le in Dlo. rewrite <- bpow_IZR in Dlo by lia.
  assert (bpow (digits m - 1 + e) < bpow 127)%R as Hlt.
  { rewrite bpow_add. pose proof (bpow_pos e). nra. }
  apply bpow_lt_inv in Hlt. lia.
Qed.

Lemma round_aux_real s m e :
  e <= fexp32 (digits m + e) ->
  (IZR (Zpos m) * bpow e < bpow 127)%R ->
  rounds_to (binary_round_aux F32.prec F32.emax s (Zpos m) e loc_Exact)
            (signed s (IZR (Zpos m) * bpow e)).
Proof.
  intros He Hov. pose proof (no_overflow m e Hov) as Hd.
  destruct (round_aux_core s m e He Hd) as (m1 & Hm1 & Herr & Hok & Hval).
  split; [exact Hok|]. rewrite Hval, signed_minus, !Rabs_signed.
  set (e1 := fexp32 (digits m + e)) in *.
  set (n := e1 - e) in *. assert (0 <= n) as Hn by lia.
  assert (bpow e1 = IZR (2 ^ n) * bpow e)%R as Hb.
  { rewrite <- bpow_IZR by exact Hn. rewrite <- bpow_add. f_equal. lia. }
  assert (0 < 2 ^ n) as Hpn by (apply Z.pow_pos_nonneg; lia).
  (* the error is at most half of [2^e1] *)
  assert (Rabs (IZR m1 * bpow e1 - IZR (Zpos m) * bpow e) <= bpow e1 / 2)%R as Hhalf.
  { rewrite Hb.
    replace (IZR m1 * (IZR (2 ^ n) * bpow e) - IZR (Zpos m) * bpow e)%R
      with (IZR (m1 * 2 ^ n - Zpos m) * bpow e)%R
      by (rewrite minus_IZR, mult_IZR; ring).
    rewrite Rabs_mult, (Rabs_pos_eq (bpow e)) by (left; apply bpow_pos).
    rewrite <- abs_IZR.
    assert (2 * IZR (Z.abs (m1 * 2 ^ n - Zpos m)) <= IZR (2 ^ n))%R as H2.
    { rewrite <- (mult_IZR 2). apply IZR_le. exact Herr. }
    pose proof (bpow_pos e). nra. }
  eapply Rle_trans; [exact Hhalf|].
  rewrite (Rabs_pos_eq (_ * _)) by (left; apply IZR_pos_bpow).
  assert (bpow e1 / 2 = bpow (e1 - 1))%R as ->.
  { replace e1 with (e1 - 1 + 1) at 1 by lia. rewrite bpow_add.
    replace (bpow 1) with 2%R by (symmetry; apply (powerRZ_1 2)). field. }
  pose proof (IZR_pos_bpow m e). pose proof eps_pos. pose proof eta_pos.
  unfold e1, fexp32. destruct (Z.max_spec (digits m + e - 24) (-149)) as [[_ ->]|[_ ->]].
  - change (bpow (-149 - 1)) with eta. nra.
  - pose proof (digits_bounds m) as [Dlo _]. pose proof (digits_pos m).
    apply IZR_le in Dlo. rewrite <- bpow_IZR in Dlo by lia.
    replace (digits m + e - 24 - 1) with (-24 + ((digits m - 1) + e)) by lia.
    rewrite !bpow_add. fold eps. pose proof (bpow_pos e).
    assert (eps * (bpow (digits m - 1) * bpow e)
            <= eps * (IZR (Zpos m) * bpow e))%R.
    { apply Rmult_le_compat_l; [lra|]. apply Rmult_le_compat_r; [lra|exact Dlo]. }
    lra.
Qed.

Lemma iter_xO m d : Zpos (Pos.iter xO m d) = Zpos m * 2 ^ Zpos d.
Proof.
  induction d as [|d IH] using Pos.peano_ind.
  - cbn. lia.
  - rewrite Pos.iter_succ, Pos2Z.inj_xO, IH, Pos2Z.inj_succ, Z.pow_succ_r by lia. ring.
Qed.

Lemma shl_align_spec m e e' :
  e' <= e ->
  snd (shl_align m e e') = e'
  /\ Zpos (fst (shl_align m e e')) = Zpos m * 2 ^ (e - e').
Proof.
  intros H. unfold shl_align. destruct (e' - e) as [|p|p] eqn:E; [|lia|].
  - cbn [fst snd]. replace (e - e') with 0 by lia. split; lia.
  - cbn [fst snd]. split; [reflexivity|]. rewrite iter_xO. f_equal. f_equal. lia.
Qed.

Lemma shl_align_id m e e' : e <= e' -> shl_align m e e' = (m, e).
Proof.
  intros H. unfold shl_align. destruct (e' - e) as [|p|p] eqn:E; [reflexivity..|lia].
Qed.

Lemma digits_shift m m' j :
  0 <= j -> Zpos m' = Zpos m * 2 ^ j -> digits m' = digits m + j.
Proof.
  intros Hj E. apply digits_unique. rewrite E.
  pose proof (digits_bounds m) as [Dlo Dhi]. pose proof (digits_pos m).
  assert (0 < 2 ^ j) by (apply Z.pow_pos_nonneg; lia).
  replace (digits m + j - 1) with (digits m - 1 + j) by lia.
  rewrite !Z.pow_add_r by lia. nia.
Qed.

Lemma round_real s m e :
  (IZR (Zpos m) * bpow e < bpow 127)%R ->
  rounds_to (binary_round F32.prec F32.emax s m e) (signed s (IZR (Zpos m) * bpow e)).
Proof.
  intros Hov. unfold binary_round. change (fexp F32.prec F32.emax) with fexp32.
  fold (digits m). set (e1 := fexp32 (digits m + e)).
  destruct (Z_lt_le_dec e1 e) as [Hlt|Hge].
  - destruct (shl_align_spec m e e1 ltac:(lia)) as [Hs Hf].
    destruct (shl_align m e e1) as [mz ez]. cbn [fst snd] in *. subst ez.
    pose proof (digits_shift m mz (e - e1) ltac:(lia) Hf) as Hd.
    assert (IZR (Zpos mz) * bpow e1 = IZR (Zpos m) * bpow e)%R as Hv.
    { rewrite Hf, mult_IZR, <- bpow_IZR by lia. rewrite Rmult_assoc, <- bpow_add.
      f_equal. f_equal. lia. }
    rewrite <- Hv. apply round_aux_real; [|now rewrite Hv].
    rewrite Hd. replace (digits m + (e - e1) + e1) with (digits m + e) by lia.
    fold e1. lia.
  - rewrite shl_align_id by exact Hge. apply round_aux_real; [exact Hge|exact Hov].
Qed.

(** A zero or a finite float, by its sign and magnitude. *)
Lemma ok_cases x :
  ok x ->
  (exists s, x = S754_zero s)
  \/ (exists s m e, x = S754_finite s m e
                    /\ bounded F32.prec F32.emax m e = true).
Proof.
  destruct x as [s|s| |s m e]; cbn; intros H; try contradiction.
  - left. now exists s.
  - right. now exists s, m, e.
Qed.

Lemma mul_digits mx ex my ey :
  bounded F32.prec F32.emax mx ex = true ->
  bounded F32.prec F32.emax my ey = true ->
  ex + ey <= fexp32 (digits (mx * my) + (ex + ey)).
Proof.
  intros Hx Hy. apply bounded_spec in Hx as [Hx _]. apply bounded_spec in Hy as [Hy _].
  pose proof (digits_bounds mx) as [Xlo _]. pose proof (digits_bounds my) as [Ylo _].
  pose proof (digits_pos mx). pose proof (digits_pos my).
  assert (digits mx + digits my - 1 <= digits (mx * my)) as Hd.
  { apply digits_ge. rewrite Pos2Z.inj_mul.
    replace (digits mx + digits my - 1 - 1) with ((digits mx - 1) + (digits my - 1))
      by lia.
    rewrite Z.pow_add_r by lia.
    assert (0 < 2 ^ (digits mx - 1)) by (apply Z.pow_pos_nonneg; lia).
    assert (0 < 2 ^ (digits my - 1)) by (apply Z.pow_pos_nonneg; lia). nia. }
  unfold fexp32 in *. lia.
Qed.

Lemma signed_mul sx sy x y :
  (signed sx x * signed sy y)%R = signed (xorb sx sy) (x * y).
Proof. destruct sx, sy; cbn [signed xorb]; ring. Qed.

Lemma mul_spec x y :
  ok x -> ok y -> (Rabs (val x * val y) < bpow 127)%R ->
  rounds_to (F32.mul x y) (val x * val y).
Proof.
  intros Hx Hy Hov.
  destruct (ok_cases x Hx) as [[sx ->]|(sx & mx & ex & -> & Bx)];
    destruct (ok_cases y Hy) as [[sy ->]|(sy & my & ey & -> & By)];
    try (apply rounds_to_exact; [exact I|cbn [val F32.mul SFmul]; ring]).
  unfold F32.mul, SFmul. cbn [val] in *.
  assert (signed sx (IZR (Zpos mx) * bpow ex) * signed sy (IZR (Zpos my) * bpow ey)
          = signed (xorb sx sy) (IZR (Zpos (mx * my)) * bpow (ex + ey)))%R as E.
  { rewrite signed_mul, Pos2Z.inj_mul, mult_IZR, bpow_add. f_equal. ring. }
  rewrite E in *. rewrite Rabs_signed in Hov.
  rewrite Rabs_pos_eq in Hov by (left; apply IZR_pos_bpow).
  apply round_aux_real; [apply mul_digits; assumption|exact Hov].
Qed.

(** The sum of two signed mantissas at the smaller exponent. *)
Lemma align_value s m e ez :
  ez <= e ->
  (IZR (cond_Zopp s (Zpos (fst (shl_align m e ez)))) * bpow ez)%R
  = signed s (IZR (Zpos m) * bpow e).
Proof.
  intros H. destruct (shl_align_spec m e ez H) as [_ ->].
  assert (IZR (Zpos m * 2 ^ (e - ez)) * bpow ez = IZR (Zpos m) * bpow e)%R as E.
  { rewrite mult_IZR, <- bpow_IZR by lia. rewrite Rmult_assoc, <- bpow_add.
    f_equal. f_equal. lia. }
  destruct s; cbn [cond_Zopp signed]; [rewrite opp_IZR|]; lra.
Qed.

Lemma normalize_real z e :
  (Rabs (IZR z * bpow e) < bpow 127)%R ->
  rounds_to (binary_normalize F32.prec F32.emax z e false) (IZR z * bpow e).
Proof.
  intros Hov. destruct z as [|p|p]; cbn [binary_normalize].
  - apply rounds_to_exact; [exact I|cbn; ring].
  - rewrite Rabs_pos_eq in Hov by (left; apply IZR_pos_bpow).
    apply (round_real false p e Hov).
  - assert (IZR (Zneg p) * bpow e = signed true (IZR (Zpos p) * bpow e))%R as E.
    { cbn [signed]. change (Zneg p) with (- Zpos p). rewrite opp_IZR. ring. }
    rewrite E in *. rewrite Rabs_signed, Rabs_pos_eq in Hov
      by (left; apply IZR_pos_bpow).
    apply (round_real true p e Hov).
Qed.

Lemma add_spec x y :
  ok x -> ok y -> (Rabs (val x + val y) < bpow 127)%R ->
  rounds_to (F32.add x y) (val x + val y).
Proof.
  intros Hx Hy Hov.
  destruct (ok_cases x Hx) as [[sx ->]|(sx & mx & ex & -> & Bx)];
    destruct (ok_cases y Hy) as [[sy ->]|(sy & my & ey & -> & By)].
  - apply rounds_to_exact; [destruct sx, sy; exact I|destruct sx, sy; cbn; ring].
  - apply rounds_to_exact; [exact By|cbn [val F32.add SFadd]; ring].
  - apply rounds_to_exact; [exact Bx|cbn [val F32.add SFadd]; ring].
  - unfold F32.add, SFadd. cbn [val] in *.
    rewrite <- (align_value sx mx ex (Z.min ex ey)) in * by lia.
    rewrite <- (align_value sy my ey (Z.min ex ey)) in * by lia.
    rewrite <- Rmult_plus_distr_r, <- plus_IZR in *.
    apply normalize_real. exact Hov.
Qed.

Lemma sub_spec x y :
  ok x -> ok y -> (Rabs (val x - val y) < bpow 127)%R ->
  rounds_to (F32.sub x y) (val x - val y).
Proof.
  intros Hx Hy Hov.
  destruct (ok_cases x Hx) as [[sx ->]|(sx & mx & ex & -> & Bx)];
    destruct (ok_cases y Hy) as [[sy ->]|(sy & my & ey & -> & By)].
  - apply rounds_to_exact; [destruct sx, sy; exact I|destruct sx, sy; cbn; ring].
  - apply rounds_to_exact; [exact By|].
    cbn [val F32.sub SFsub]. destruct sy; cbn [signed negb]; ring.
  - apply rounds_to_exact; [exact Bx|cbn [val F32.sub SFsub]; ring].
  - unfold F32.sub, SFsub. cbn [val] in *.
    rewrite <- (align_value sx mx ex (Z.min ex ey)) in * by lia.
    rewrite <- (align_value sy my ey (Z.min ex ey)) in * by lia.
    rewrite <- Rmult_minus_distr_r, <- minus_IZR in *.
    apply normalize_real. exact Hov.
Qed.


(** *** Comparisons and bounds *)

Lemma bounded_value m e :
  bounded F32.prec F32.emax m e = true ->
  (bpow (digits m - 1 + e) <= IZR (Zpos m) * bpow e < bpow (digits m + e))%R.
Proof.
  intros _. pose proof (digits_bounds m) as [Dlo Dhi]. pose proof (digits_pos m).
  apply IZR_le in Dlo. apply IZR_lt in Dhi.
  rewrite <- bpow_IZR in Dlo, Dhi by lia. rewrite !bpow_add.
  pose proof (bpow_pos e). split; [apply Rmult_le_compat_r|apply Rmult_lt_compat_r]; lra.
Qed.

(** [<=] on two positive binary32 numbers is [<=] on their values. *)
Lemma le_val_pos m1 e1 m2 e2 :
  bounded F32.prec F32.emax m1 e1 = true ->
  bounded F32.prec F32.emax m2 e2 = true ->
  F32.le (S754_finite false m1 e1) (S754_finite false m2 e2) = true ->
  (IZR (Zpos m1) * bpow e1 <= IZR (Zpos m2) * bpow e2)%R.
Proof.
  intros B1 B2. unfold F32.le, SFleb, SFcompare.
  pose proof (bounded_value m1 e1 B1) as [_ H1].
  pose proof (bounded_value m2 e2 B2) as [H2 _].
  apply bounded_spec in B1 as [C1 _]. apply bounded_spec in B2 as [C2 _].
  destruct (Z.compare_spec e1 e2) as [->|Hlt|Hgt]; [| |discriminate].
  - fold (Pos.compare m1 m2). intros H.
    assert (Zpos m1 <= Zpos m2) as Hm.
    { destruct (Pos.compare_spec m1 m2); [subst; lia|lia|discriminate]. }
    apply IZR_le in Hm. pose proof (bpow_pos e2).
    apply Rmult_le_compat_r; lra.
  - intros _. unfold fexp32 in C1, C2.
    assert (digits m1 + e1 <= digits m2 - 1 + e2) as Hd by lia.
    apply bpow_le in Hd. lra.
Qed.

(** The magnitude test of a sample against a bound. *)
Lemma abs_le_val x B :
  ok x -> ok B -> F32.le (F32.abs x) B = true -> (Rabs (val x) <= val B)%R.
Proof.
  intros Hx HB.
  destruct (ok_cases x Hx) as [[sx ->]|(sx & mx & ex & -> & Bx)];
    destruct (ok_cases B HB) as [[sB ->]|(sB & mB & eB & -> & BB)];
    cbn [F32.abs SFabs val].
  - intros _. rewrite Rabs_R0. lra.
  - destruct sB; [discriminate|]. intros _. rewrite Rabs_R0. cbn [signed].
    left. apply IZR_pos_bpow.
  - discriminate.
  - destruct sB; [discriminate|]. intros H. rewrite Rabs_signed.
    rewrite Rabs_pos_eq by (left; apply IZR_pos_bpow). cbn [signed].
    apply le_val_pos; assumption.
Qed.

Lemma le_val_nonneg x y :
  ok x -> ok y -> (0 < val x)%R -> F32.le x y = true -> (val x <= val y)%R.
Proof.
  intros Hx Hy Hpos.
  destruct (ok_cases x Hx) as [[sx ->]|(sx & mx & ex & -> & Bx)];
    [cbn in Hpos; lra|].
  destruct sx; [cbn [val signed] in Hpos; pose proof (IZR_pos_bpow mx ex); lra|].
  destruct (ok_cases y Hy) as [[sy ->]|(sy & my & ey & -> & By)]; [discriminate|].
  destruct sy; [discriminate|]. cbn [val signed]. apply le_val_pos; assumption.
Qed.

Lemma ok_is_finite x : ok x -> F32.is_finite x = true.
Proof. destruct x; cbn; intros H; (reflexivity || contradiction). Qed.

Lemma valid_ok x :
  valid_binary F32.prec F32.emax x = true -> F32.is_finite x = true -> ok x.
Proof. destruct x; cbn; intros H1 H2; (exact I || discriminate || exact H1). Qed.

Lemma bpow_neg k : 0 <= k -> bpow (- k) = (/ IZR (2 ^ k))%R.
Proof.
  intros Hk. unfold bpow. rewrite powerRZ_neg'. fold (bpow k).
  now rewrite bpow_IZR.
Qed.

Lemma eps_value : eps = (/ 16777216)%R.
Proof. unfold eps. change (-24) with (- (24)). rewrite bpow_neg by lia. reflexivity. Qed.

(** *** The operations with explicit bounds on the operands *)

Lemma Rabs_le_iff x y : (Rabs x <= y)%R <-> (- y <= x <= y)%R.
Proof.
  split; intros H.
  - unfold Rabs in H. destruct (Rcase_abs x); lra.
  - apply Rabs_le. exact H.
Qed.

Lemma mul_bound x y X Y :
  ok x -> ok y -> (Rabs (val x) <= X)%R -> (Rabs (val y) <= Y)%R ->
  (X * Y < bpow 127)%R ->
  ok (F32.mul x y)
  /\ (Rabs (val (F32.mul x y) - val x * val y) <= eps * (X * Y) + eta)%R.
Proof.
  intros Hx Hy HX HY Hov.
  assert (Rabs (val x * val y) <= X * Y)%R as Hp.
  { rewrite Rabs_mult. pose proof (Rabs_pos (val x)). pose proof (Rabs_pos (val y)).
    apply Rmult_le_compat; assumption. }
  destruct (mul_spec x y Hx Hy ltac:(lra)) as [Hok Herr].
  split; [exact Hok|]. pose proof eps_pos.
  assert (eps * Rabs (val x * val y) <= eps * (X * Y))%R
    by (apply Rmult_le_compat_l; lra).
  lra.
Qed.

Lemma add_bound x y X Y :
  ok x -> ok y -> (Rabs (val x) <= X)%R -> (Rabs (val y) <= Y)%R ->
  (X + Y < bpow 127)%R ->
  ok (F32.add x y)
  /\ (Rabs (val (F32.add x y) - (val x + val y)) <= eps * (X + Y) + eta)%R.
Proof.
  intros Hx Hy HX HY Hov.
  assert (Rabs (val x + val y) <= X + Y)%R as Hp.
  { eapply Rle_trans; [apply Rabs_triang|lra]. }
  destruct (add_spec x y Hx Hy ltac:(lra)) as [Hok Herr].
  split; [exact Hok|]. pose proof eps_pos.
  assert (eps * Rabs (val x + val y) <= eps * (X + Y))%R
    by (apply Rmult_le_compat_l; lra).
  lra.
Qed.

Lemma sub_bound x y X Y :
  ok x -> ok y -> (Rabs (val x) <= X)%R -> (Rabs (val y) <= Y)%R ->
  (X + Y < bpow 127)%R ->
  ok (F32.sub x y)
  /\ (Rabs (val (F32.sub x y) - (val x - val y)) <= eps * (X + Y) + eta)%R.
Proof.
  intros Hx Hy HX HY Hov.
  assert (Rabs (val x - val y) <= X + Y)%R as Hp.
  { unfold Rminus. eapply Rle_trans; [apply Rabs_triang|]. rewrite Rabs_Ropp. lra. }
  destruct (sub_spec x y Hx Hy ltac:(lra)) as [Hok Herr].
  split; [exact Hok|]. pose proof eps_pos.
  assert (eps * Rabs (val x - val y) <= eps * (X + Y))%R
    by (apply Rmult_le_compat_l; lra).
  lra.
Qed.

End Rounding.

(** ** C9: the equaliser at 0 dB, the rounding of the binary32 program *)

Module EQRounding.
Import Rounding.
Local Open Scope R_scope.

(** *** The error recurrence of one band

    With [b0 = 1], [b1 = a1 = a] and [b2 = a2 = b], the difference
    [d = output - input] of a band obeys [d' = - a d1 - b d2 + rho], where
    [rho] is the rounding error of the nine operations of [processBiquad].
    The quadratic form [Q] is scaled by [b < 1] by the recurrence without
    [rho], which bounds [d] for ever. *)

Definition Q (a b d1 d2 : R) : R := d1 * d1 + a * d1 * d2 + b * d2 * d2.

Lemma square_bound t k : 0 <= k -> t * t <= k * k -> - k <= t <= k.
Proof. intros Hk H. split; nra. Qed.

Lemma lyapunov_step a b beta gamma D R d1 d2 rho :
  0 < b -> b <= beta * beta -> 0 <= beta -> 0 < gamma -> 0 <= D -> 0 <= R ->
  4 * b * (gamma * gamma) <= 4 * b - a * a ->
  R <= (1 - beta) * (gamma * D) ->
  Q a b d1 d2 <= (gamma * D) * (gamma * D) ->
  - R <= rho <= R ->
  Q a b (- a * d1 - b * d2 + rho) d1 <= (gamma * D) * (gamma * D)
  /\ - D <= - a * d1 - b * d2 + rho <= D.
Proof.
  intros Hb Hbeta Hbeta0 Hgamma HD HR Hdisc Hbudget HQ Hrho.
  set (K := gamma * D) in *. assert (0 <= K) as HK by (unfold K; nra).
  set (c := - a * d1 - b * d2).
  set (t := c + a * d1 / 2).
  assert (Q a b c d1 = b * Q a b d1 d2) as Hstep by (unfold Q, c; ring).
  assert (Q a b c d1 <= (beta * K) * (beta * K)) as Hc.
  { rewrite Hstep.
    assert (b * Q a b d1 d2 <= b * (K * K)) by (apply Rmult_le_compat_l; lra).
    assert (b * (K * K) <= beta * beta * (K * K))
      by (apply Rmult_le_compat_r; [nra|lra]).
    lra. }
  assert (t * t <= Q a b c d1) as Ht.
  { assert (Q a b c d1 - t * t = (b - a * a / 4) * (d1 * d1)) as E
      by (unfold Q, t; field).
    assert (0 <= b - a * a / 4) by nra.
    assert (0 <= (b - a * a / 4) * (d1 * d1))
      by (apply Rmult_le_pos; [assumption|nra]).
    lra. }
  assert (- (beta * K) <= t <= beta * K) as Htb
    by (apply square_bound; [nra|lra]).
  assert (Q a b (c + rho) d1 = Q a b c d1 + 2 * rho * t + rho * rho) as HQ'
    by (unfold Q, t; field).
  assert (Q a b (c + rho) d1 <= K * K) as Hgoal.
  { rewrite HQ'.
    assert (2 * rho * t <= 2 * R * (beta * K)) by nra.
    assert (rho * rho <= R * R) by nra.
    assert (beta * K + R <= K) by (unfold K in *; lra).
    assert (0 <= beta * K + R) by nra.
    assert ((beta * K + R) * (beta * K + R) <= K * K) by nra.
    nra. }
  split; [exact Hgoal|].
  set (d := c + rho) in *.
  assert (4 * b * Q a b d d1
          = (2 * b * d1 + a * d) * (2 * b * d1 + a * d) + (4 * b - a * a) * (d * d))
    as Hd by (unfold Q; ring).
  assert (4 * b * (gamma * gamma) * (d * d) <= 4 * b * (K * K)) as Hdd.
  { assert ((4 * b - a * a) * (d * d) <= 4 * b * Q a b d d1).
    { rewrite Hd. pose proof (Rle_0_sqr (2 * b * d1 + a * d)) as Hs.
      unfold Rsqr in Hs. lra. }
    assert (4 * b * (gamma * gamma) * (d * d) <= (4 * b - a * a) * (d * d))
      by (apply Rmult_le_compat_r; [nra|lra]).
    assert (4 * b * Q a b d d1 <= 4 * b * (K * K))
      by (apply Rmult_le_compat_l; lra).
    lra. }
  apply square_bound; [exact HD|].
  unfold K in Hdd.
  assert (0 < 4 * b * (gamma * gamma))
    by (apply Rmult_lt_0_compat; [lra|apply Rmult_lt_0_compat; lra]).
  assert (4 * b * (gamma * gamma) * (d * d) <= 4 * b * (gamma * gamma) * (D * D)).
  { replace (4 * b * (gamma * gamma) * (D * D))
      with (4 * b * (gamma * D * (gamma * D))) by ring. exact Hdd. }
  apply (Rmult_le_reg_l (4 * b * (gamma * gamma))); assumption.
Qed.


Lemma val_c1 : val F32.c1 = 1.
Proof.
  unfold F32.c1. cbn [val signed]. change (-23)%Z with (- (23))%Z.
  rewrite bpow_neg by lia. change (2 ^ 23)%Z with 8388608%Z. field.
Qed.

Lemma ok_c1 : ok F32.c1.
Proof. reflexivity. Qed.

(** *** One band *)

Section Band.
Variable c : EQ.BiquadCoeffs (T := float).
Hypothesis c_unit : EQBinary32.unit_coeffs c.
Hypothesis ok_a1 : ok (EQ.a1 c).
Hypothesis ok_a2 : ok (EQ.a2 c).

Let a : R := val (EQ.a1 c).
Let b : R := val (EQ.a2 c).
Hypothesis a_range : - 2 <= a <= 2.
Hypothesis b_range : 0 < b <= 1.

(** [beta] bounds the modulus of the poles, [gamma] the sine of their
    argument; [U] bounds the inputs of the band and [D] its error. *)
Variables beta gamma U D : R.
Hypothesis beta_range : 0 <= beta.
Hypothesis beta_ok : b <= beta * beta.
Hypothesis gamma_pos : 0 < gamma.
Hypothesis gamma_ok : 4 * b * (gamma * gamma) <= 4 * b - a * a.
Hypothesis U_lo : bpow (-100) <= U.
Hypothesis U_hi : 71 / 10 * U <= bpow 127.
Hypothesis D_range : 0 <= D <= U / 256.
Hypothesis budget : 28 * (U / 16777216) <= (1 - beta) * (gamma * D).

(** The expression of [processBiquad], left to right. *)
Definition response (u x1 x2 y1 y2 : float) : float :=
  (EQ.b0 c * u + EQ.b1 c * x1 + EQ.b2 c * x2 - EQ.a1 c * y1 - EQ.a2 c * y2)%f32.

Lemma eta_small : eta <= U / 1125899906842624.
Proof.
  unfold eta. replace (-150)%Z with (- (50) + -100)%Z by lia.
  rewrite bpow_add, bpow_neg by lia.
  change (2 ^ 50)%Z with 1125899906842624%Z.
  pose proof (bpow_pos (-100)).
  assert (/ 1125899906842624 * bpow (-100) <= / 1125899906842624 * U)
    by (apply Rmult_le_compat_l; lra).
  lra.
Qed.

Lemma U_pos : 0 < U.
Proof. pose proof (bpow_pos (-100)). lra. Qed.

(** The nine roundings of one output add up to at most [28 eps U]. *)
Lemma response_error u x1 x2 y1 y2 :
  ok u -> ok x1 -> ok x2 -> ok y1 -> ok y2 ->
  Rabs (val u) <= U -> Rabs (val x1) <= U -> Rabs (val x2) <= U ->
  Rabs (val y1) <= U + D -> Rabs (val y2) <= U + D ->
  ok (response u x1 x2 y1 y2)
  /\ Rabs (val (response u x1 x2 y1 y2)
           - (val u + a * val x1 + b * val x2 - a * val y1 - b * val y2))
     <= 28 * (U / 16777216).
Proof.
  intros Hu Hx1 Hx2 Hy1 Hy2 Bu Bx1 Bx2 By1 By2.
  destruct c_unit as (E0 & E1 & E2).
  unfold response. rewrite E0, E1, E2.
  pose proof eta_small as Heta. pose proof eta_pos as Heta0. pose proof U_pos as HU.
  assert (Rabs (val F32.c1) <= 1) as B1 by (rewrite val_c1, Rabs_R1; lra).
  assert (Rabs a <= 2) as Ba by (apply Rabs_le_iff; lra).
  assert (Rabs b <= 1) as Bb by (apply Rabs_le_iff; lra).
  fold a b in Ba, Bb. unfold a, b in Ba, Bb.
  (* the four products *)
  destruct (mul_bound F32.c1 u 1 U ok_c1 Hu B1 Bu ltac:(lra)) as [Ht0 Et0].
  destruct (mul_bound (EQ.a1 c) x1 2 U ok_a1 Hx1 Ba Bx1 ltac:(lra)) as [Ht1 Et1].
  destruct (mul_bound (EQ.a2 c) x2 1 U ok_a2 Hx2 Bb Bx2 ltac:(lra)) as [Ht2 Et2].
  destruct (mul_bound (EQ.a1 c) y1 2 (U + D) ok_a1 Hy1 Ba By1 ltac:(lra)) as [Ht3 Et3].
  destruct (mul_bound (EQ.a2 c) y2 1 (U + D) ok_a2 Hy2 Bb By2 ltac:(lra)) as [Ht4 Et4].
  assert (Rabs (val (EQ.a1 c) * val x1) <= 2 * U) as P1
    by (rewrite Rabs_mult; apply Rmult_le_compat; try apply Rabs_pos; assumption).
  assert (Rabs (val (EQ.a2 c) * val x2) <= 1 * U) as P2
    by (rewrite Rabs_mult; apply Rmult_le_compat; try apply Rabs_pos; assumption).
  assert (Rabs (val (EQ.a1 c) * val y1) <= 2 * (U + D)) as P3
    by (rewrite Rabs_mult; apply Rmult_le_compat; try apply Rabs_pos; assumption).
  assert (Rabs (val (EQ.a2 c) * val y2) <= 1 * (U + D)) as P4
    by (rewrite Rabs_mult; apply Rmult_le_compat; try apply Rabs_pos; assumption).
  rewrite val_c1 in Et0. rewrite eps_value in Et0, Et1, Et2, Et3, Et4.
  set (t0 := (F32.c1 * u)%f32) in *. set (t1 := (EQ.a1 c * x1)%f32) in *.
  set (t2 := (EQ.a2 c * x2)%f32) in *. set (t3 := (EQ.a1 c * y1)%f32) in *.
  set (t4 := (EQ.a2 c * y2)%f32) in *.
  apply Rabs_le_iff in Bu, Bx1, Bx2, By1, By2, Et0, Et1, Et2, Et3, Et4, P1, P2, P3, P4.
  assert (Rabs (val t0) <= 1001 / 1000 * U) as T0 by (apply Rabs_le_iff; lra).
  assert (Rabs (val t1) <= 2001 / 1000 * U) as T1 by (apply Rabs_le_iff; lra).
  assert (Rabs (val t2) <= 1001 / 1000 * U) as T2 by (apply Rabs_le_iff; lra).
  assert (Rabs (val t3) <= 2009 / 1000 * U) as T3 by (apply Rabs_le_iff; lra).
  assert (Rabs (val t4) <= 1005 / 1000 * U) as T4 by (apply Rabs_le_iff; lra).
  (* the four sums *)
  destruct (add_bound t0 t1 _ _ Ht0 Ht1 T0 T1 ltac:(lra)) as [Hs1 Es1].
  set (s1 := (t0 + t1)%f32) in *. rewrite eps_value in Es1.
  apply Rabs_le_iff in Es1.
  assert (Rabs (val s1) <= 3003 / 1000 * U) as S1
    by (apply Rabs_le_iff; apply Rabs_le_iff in T0, T1; lra).
  destruct (add_bound s1 t2 _ _ Hs1 Ht2 S1 T2 ltac:(lra)) as [Hs2 Es2].
  set (s2 := (s1 + t2)%f32) in *. rewrite eps_value in Es2.
  apply Rabs_le_iff in Es2.
  assert (Rabs (val s2) <= 4005 / 1000 * U) as S2
    by (apply Rabs_le_iff; apply Rabs_le_iff in S1, T2; lra).
  destruct (sub_bound s2 t3 _ _ Hs2 Ht3 S2 T3 ltac:(lra)) as [Hs3 Es3].
  set (s3 := (s2 - t3)%f32) in *. rewrite eps_value in Es3.
  apply Rabs_le_iff in Es3.
  assert (Rabs (val s3) <= 6015 / 1000 * U) as S3
    by (apply Rabs_le_iff; apply Rabs_le_iff in S2, T3; lra).
  destruct (sub_bound s3 t4 _ _ Hs3 Ht4 S3 T4 ltac:(lra)) as [Hs4 Es4].
  set (s4 := (s3 - t4)%f32) in *. rewrite eps_value in Es4.
  apply Rabs_le_iff in Es4.
  split; [exact Hs4|]. apply Rabs_le_iff. fold a b. unfold a, b. lra.
Qed.

(** The state of one channel of the band: the two last inputs and the two
    last outputs are binary32 numbers, the inputs within [U], and the two
    last errors within [D] and inside the ellipse of [Q]. *)
Definition channel_inv (x1 x2 y1 y2 : float) : Prop :=
  ok x1 /\ ok x2 /\ ok y1 /\ ok y2
  /\ Rabs (val x1) <= U /\ Rabs (val x2) <= U
  /\ Rabs (val y1 - val x1) <= D /\ Rabs (val y2 - val x2) <= D
  /\ Q a b (val y1 - val x1) (val y2 - val x2) <= (gamma * D) * (gamma * D).

Lemma channel_inv_zero : channel_inv F32.zero F32.zero F32.zero F32.zero.
Proof.
  pose proof U_pos. unfold channel_inv, Q. cbn [val ok F32.zero].
  replace (0 - 0) with 0 by ring. rewrite Rabs_R0.
  repeat split; try exact I; try lra. nra.
Qed.

Lemma channel_step u x1 x2 y1 y2 :
  ok u -> Rabs (val u) <= U -> channel_inv x1 x2 y1 y2 ->
  let v := response u x1 x2 y1 y2 in
  ok v /\ Rabs (val v - val u) <= D /\ channel_inv u x1 v y1.
Proof.
  intros Hu Bu (Hx1 & Hx2 & Hy1 & Hy2 & Bx1 & Bx2 & Bd1 & Bd2 & HQ). cbv zeta.
  assert (Rabs (val y1) <= U + D) as By1.
  { apply Rabs_le_iff. apply Rabs_le_iff in Bx1, Bd1. lra. }
  assert (Rabs (val y2) <= U + D) as By2.
  { apply Rabs_le_iff. apply Rabs_le_iff in Bx2, Bd2. lra. }
  destruct (response_error u x1 x2 y1 y2 Hu Hx1 Hx2 Hy1 Hy2 Bu Bx1 Bx2 By1 By2)
    as [Hv Ev].
  set (v := response u x1 x2 y1 y2) in *.
  set (rho := val v - (val u + a * val x1 + b * val x2 - a * val y1 - b * val y2))
    in *.
  apply Rabs_le_iff in Ev.
  pose proof U_pos as HU.
  destruct (lyapunov_step a b beta gamma D (28 * (U / 16777216))
              (val y1 - val x1) (val y2 - val x2) rho)
    as [HQ' Hd']; try assumption; try lra.
  assert (- a * (val y1 - val x1) - b * (val y2 - val x2) + rho = val v - val u)
    as E by (unfold rho; ring).
  rewrite E in HQ', Hd'.
  split; [exact Hv|]. split; [apply Rabs_le_iff; exact Hd'|].
  unfold channel_inv. repeat split; try assumption.
  apply Rabs_le_iff; exact Hd'.
Qed.


(** The four numbers of one channel in the state of a band. *)
Definition channel_of (right : bool) (s : EQ.BiquadState (T := float)) : Prop :=
  if right then channel_inv (EQ.x1r s) (EQ.x2r s) (EQ.y1r s) (EQ.y2r s)
  else channel_inv (EQ.x1 s) (EQ.x2 s) (EQ.y1 s) (EQ.y2 s).

Definition band_inv (s : EQ.BiquadState (T := float)) : Prop :=
  channel_of false s /\ channel_of true s.

Lemma band_inv_zero lm : band_inv (EQ.BiquadState0 (arithF lm)).
Proof. split; exact channel_inv_zero. Qed.

(** [processBiquad] on a sample within [U]: the output is a binary32 number
    within [D] of the sample, and the state keeps its invariant. *)
Lemma processBiquad_step lm u s right :
  ok u -> Rabs (val u) <= U -> band_inv s ->
  let r := EQ.processBiquad (arithF lm) u c s right in
  ok (fst r) /\ Rabs (val (fst r) - val u) <= D /\ band_inv (snd r).
Proof.
  intros Hu Bu [HL HR]. cbv zeta. destruct right.
  - destruct (channel_step u _ _ _ _ Hu Bu HR) as (Hv & Ev & Hinv).
    split; [exact Hv|]. split; [exact Ev|]. split; [exact HL|exact Hinv].
  - destruct (channel_step u _ _ _ _ Hu Bu HL) as (Hv & Ev & Hinv).
    split; [exact Hv|]. split; [exact Ev|]. split; [exact Hinv|exact HR].
Qed.

End Band.

(** *** The three bands at 48 kHz *)

Definition low : EQ.BiquadCoeffs (T := float) := EQ.lowShelf EQBinary32.eq_48k.
Definition mid : EQ.BiquadCoeffs (T := float) := EQ.midPeak EQBinary32.eq_48k.
Definition high : EQ.BiquadCoeffs (T := float) := EQ.highShelf EQBinary32.eq_48k.

(** [a1] and [a2] of the three bands: about -1.9537 and 0.9548, -1.8614
    and 0.8775, -1.2796 and 0.4776. *)
Lemma coefficients :
  EQ.a1 low = S754_finite true 16389057 (-23)
  /\ EQ.a2 low = S754_finite false 16018459 (-24)
  /\ EQ.a1 mid = S754_finite true 15614625 (-23)
  /\ EQ.a2 mid = S754_finite false 14721511 (-24)
  /\ EQ.a1 high = S754_finite true 10734334 (-23)
  /\ EQ.a2 high = S754_finite false 16025336 (-25).
Proof. vm_compute. auto 10. Qed.

Lemma val_finite s m k :
  (0 <= k)%Z -> val (S754_finite s m (- k)) = signed s (IZR (Zpos m) / IZR (2 ^ k)).
Proof. intros Hk. cbn [val]. now rewrite bpow_neg. Qed.

Lemma values :
  val (EQ.a1 low) = - (16389057 / 8388608)
  /\ val (EQ.a2 low) = 16018459 / 16777216
  /\ val (EQ.a1 mid) = - (15614625 / 8388608)
  /\ val (EQ.a2 mid) = 14721511 / 16777216
  /\ val (EQ.a1 high) = - (10734334 / 8388608)
  /\ val (EQ.a2 high) = 16025336 / 33554432.
Proof.
  destruct coefficients as (-> & -> & -> & -> & -> & ->).
  change (-23)%Z with (- (23))%Z. change (-24)%Z with (- (24))%Z.
  change (-25)%Z with (- (25))%Z.
  rewrite !val_finite by lia. cbn [signed].
  change (2 ^ 23)%Z with 8388608%Z. change (2 ^ 24)%Z with 16777216%Z.
  change (2 ^ 25)%Z with 33554432%Z. repeat split; reflexivity.
Qed.

Lemma coefficients_ok :
  ok (EQ.a1 low) /\ ok (EQ.a2 low) /\ ok (EQ.a1 mid) /\ ok (EQ.a2 mid)
  /\ ok (EQ.a1 high) /\ ok (EQ.a2 high).
Proof.
  destruct coefficients as (-> & -> & -> & -> & -> & ->).
  repeat split; reflexivity.
Qed.

(** The inputs of the three bands for samples within [U], and the errors
    the bands add. *)
Definition U1 (U : R) : R := U * (10032 / 10000).
Definition U2 (U : R) : R := U1 U * (10003 / 10000).
Definition D0 (U : R) : R := U * (32 / 10000).
Definition D1 (U : R) : R := U1 U * (3 / 10000).
Definition D2 (U : R) : R := U2 U * (2 / 100000).

Definition low_inv (U : R) := band_inv low (2314 / 100000) U (D0 U).
Definition mid_inv (U : R) := band_inv mid (11328 / 100000) (U1 U) (D1 U).
Definition high_inv (U : R) := band_inv high (37796 / 100000) (U2 U) (D2 U).

Section Scale.
Variable U : R.
Hypothesis U_lo : bpow (-100) <= U.
Hypothesis U_hi : U <= bpow 124.

Lemma scale_pos : 0 < U.
Proof. pose proof (bpow_pos (-100)). lra. Qed.

Lemma scale_hi : 8 * U <= bpow 127.
Proof.
  replace 127%Z with (3 + 124)%Z by lia. rewrite bpow_add.
  replace (bpow 3) with 8; [lra|]. rewrite bpow_IZR by lia. reflexivity.
Qed.

Lemma low_step lm u s right :
  ok u -> Rabs (val u) <= U -> low_inv U s ->
  let r := EQ.processBiquad (arithF lm) u low s right in
  ok (fst r) /\ Rabs (val (fst r) - val u) <= D0 U /\ low_inv U (snd r).
Proof.
  pose proof scale_pos. pose proof scale_hi.
  destruct values as (Va1 & Va2 & _). destruct coefficients_ok as (O1 & O2 & _).
  destruct EQBinary32.unit_coeffs_48k as (Hu & _).
  apply (processBiquad_step low Hu O1 O2) with (beta := 97713 / 100000);
    rewrite ?Va1, ?Va2; unfold D0; lra.
Qed.

Lemma mid_step lm u s right :
  ok u -> Rabs (val u) <= U1 U -> mid_inv U s ->
  let r := EQ.processBiquad (arithF lm) u mid s right in
  ok (fst r) /\ Rabs (val (fst r) - val u) <= D1 U /\ mid_inv U (snd r).
Proof.
  pose proof scale_pos. pose proof scale_hi.
  destruct values as (_ & _ & Va1 & Va2 & _).
  destruct coefficients_ok as (_ & _ & O1 & O2 & _).
  destruct EQBinary32.unit_coeffs_48k as (_ & Hu & _).
  apply (processBiquad_step mid Hu O1 O2) with (beta := 93674 / 100000);
    rewrite ?Va1, ?Va2; unfold D1, U1; lra.
Qed.

Lemma high_step lm u s right :
  ok u -> Rabs (val u) <= U2 U -> high_inv U s ->
  let r := EQ.processBiquad (arithF lm) u high s right in
  ok (fst r) /\ Rabs (val (fst r) - val u) <= D2 U /\ high_inv U (snd r).
Proof.
  pose proof scale_pos. pose proof scale_hi.
  destruct values as (_ & _ & _ & _ & Va1 & Va2).
  destruct coefficients_ok as (_ & _ & _ & _ & O1 & O2).
  destruct EQBinary32.unit_coeffs_48k as (_ & _ & Hu).
  apply (processBiquad_step high Hu O1 O2) with (beta := 69109 / 100000);
    rewrite ?Va1, ?Va2; unfold D2, U2, U1; lra.
Qed.

(** The equaliser: the coefficients of the constructor at 48 kHz, and the
    three states within their bounds. *)
Definition eq_inv (e : EQ.t (T := float)) : Prop :=
  EQ.lowShelf e = low /\ EQ.midPeak e = mid /\ EQ.highShelf e = high
  /\ low_inv U (EQ.lowState e) /\ mid_inv U (EQ.midState e)
  /\ high_inv U (EQ.highState e).

(** [o] is a binary32 number within [U / 256] of [i]. *)
Definition near (i o : float) : Prop := ok o /\ Rabs (val o - val i) <= U / 256.

Lemma eq_inv_start : eq_inv EQBinary32.eq_48k.
Proof.
  pose proof scale_pos.
  unfold eq_inv. split; [reflexivity|]. split; [reflexivity|]. split; [reflexivity|].
  split; [|split]; (split; apply channel_inv_zero; unfold D0, D1, D2, U2, U1; lra).
Qed.

(** One sample through the three bands. *)
Lemma three_bands lm u sl sm sh right :
  ok u -> Rabs (val u) <= U -> low_inv U sl -> mid_inv U sm -> high_inv U sh ->
  let r1 := EQ.processBiquad (arithF lm) u low sl right in
  let r2 := EQ.processBiquad (arithF lm) (fst r1) mid sm right in
  let r3 := EQ.processBiquad (arithF lm) (fst r2) high sh right in
  near u (fst r3)
  /\ low_inv U (snd r1) /\ mid_inv U (snd r2) /\ high_inv U (snd r3).
Proof.
  intros Hu Bu Hl Hm Hh. cbv zeta. pose proof scale_pos as HU.
  destruct (low_step lm u sl right Hu Bu Hl) as (O1 & E1 & I1).
  set (r1 := EQ.processBiquad (arithF lm) u low sl right) in *.
  assert (Rabs (val (fst r1)) <= U1 U) as B1.
  { apply Rabs_le_iff. apply Rabs_le_iff in Bu, E1. unfold U1, D0 in *. lra. }
  destruct (mid_step lm (fst r1) sm right O1 B1 Hm) as (O2 & E2 & I2).
  set (r2 := EQ.processBiquad (arithF lm) (fst r1) mid sm right) in *.
  assert (Rabs (val (fst r2)) <= U2 U) as B2.
  { apply Rabs_le_iff. apply Rabs_le_iff in B1, E2. unfold U2, D1 in *. lra. }
  destruct (high_step lm (fst r2) sh right O2 B2 Hh) as (O3 & E3 & I3).
  split; [|split; [exact I1|split; [exact I2|exact I3]]]. split; [exact O3|].
  apply Rabs_le_iff. apply Rabs_le_iff in E1, E2, E3.
  unfold D0, D1, D2, U2, U1 in *. lra.
Qed.

Lemma eq_process_near lm l r e :
  eq_inv e -> ok l -> ok r -> Rabs (val l) <= U -> Rabs (val r) <= U ->
  let res := EQ.process (arithF lm) l r e in
  eq_inv (fst res) /\ near l (fst (snd res)) /\ near r (snd (snd res)).
Proof.
  intros (Cl & Cm & Ch & Il & Im & Ih) Hl Hr Bl Br. cbv zeta.
  unfold EQ.process. rewrite Cl, Cm, Ch.
  destruct (three_bands lm l _ _ _ false Hl Bl Il Im Ih) as (Nl & Il1 & Im1 & Ih1).
  destruct (EQ.processBiquad (arithF lm) l low (EQ.lowState e) false) as [t1 ls].
  cbn [fst snd] in *.
  destruct (EQ.processBiquad (arithF lm) t1 mid (EQ.midState e) false) as [t2 ms].
  cbn [fst snd] in *.
  destruct (EQ.processBiquad (arithF lm) t2 high (EQ.highState e) false) as [t3 hs].
  cbn [fst snd] in *.
  destruct (three_bands lm r _ _ _ true Hr Br Il1 Im1 Ih1) as (Nr & Il2 & Im2 & Ih2).
  destruct (EQ.processBiquad (arithF lm) r low ls true) as [t4 ls'].
  cbn [fst snd] in *.
  destruct (EQ.processBiquad (arithF lm) t4 mid ms true) as [t5 ms'].
  cbn [fst snd] in *.
  destruct (EQ.processBiquad (arithF lm) t5 high hs true) as [t6 hs'].
  cbn [fst snd] in *.
  split; [|split; [exact Nl|exact Nr]].
  unfold eq_inv. cbn [EQ.with_states EQ.lowShelf EQ.midPeak EQ.highShelf
                      EQ.lowState EQ.midState EQ.highState fst].
  split; [exact Cl|]. split; [exact Cm|]. split; [exact Ch|].
  split; [exact Il2|]. split; [exact Im2|exact Ih2].
Qed.

Lemma run_near lm ins : forall e,
  eq_inv e ->
  Forall (fun p => (ok (fst p) /\ Rabs (val (fst p)) <= U)
                   /\ (ok (snd p) /\ Rabs (val (snd p)) <= U)) ins ->
  Forall2 (fun i o => near (fst i) (fst o) /\ near (snd i) (snd o))
          ins (snd (EQ.run (arithF lm) e ins)).
Proof.
  induction ins as [|[l r] ins IH]; intros e He Hins; [constructor|].
  inversion Hins as [|? ? [[Hl Bl] [Hr Br]] Hrest]; subst. cbn [fst snd] in *.
  cbn [EQ.run].
  destruct (eq_process_near lm l r e He Hl Hr Bl Br) as (He' & Nl & Nr).
  destruct (EQ.process (arithF lm) l r e) as [e1 [ol or]]. cbn [fst snd] in *.
  specialize (IH e1 He' Hrest).
  destruct (EQ.run (arithF lm) e1 ins) as [e2 os]. cbn [fst snd] in *.
  constructor; [split; [exact Nl|exact Nr]|exact IH].
Qed.

End Scale.

(** *** The samples the statement ranges over *)

(** [2^k] in binary32, for [-126 <= k <= 127]. *)
Definition pow2 (k : Z) : float := S754_finite false 8388608 (k - 23).

(** A bound [B] on the magnitude of the samples: a binary32 number between
    [2^-100] and [2^124]. *)
Definition bound_ok (B : float) : bool :=
  valid_binary F32.prec F32.emax B && F32.le (pow2 (-100)) B && F32.le B (pow2 124).

(** A binary32 sample of magnitude at most [B] (so neither infinite nor
    NaN). *)
Definition sample_ok (B x : float) : bool :=
  valid_binary F32.prec F32.emax x && F32.le (F32.abs x) B.

Definition pair_ok (B : float) (p : float * float) : bool :=
  sample_ok B (fst p) && sample_ok B (snd p).

(** The output [o] is finite and within [B / 256] of the input [i]. *)
Definition close (B i o : float) : Prop :=
  F32.is_finite o = true /\ Rabs (val o - val i) <= val B / 256.

(** The equaliser after the three setters were called with 0 dB. *)
Definition gains_zeroed : EQ.t (T := float) :=
  EQ.setHighGain (arithF EQBinary32.libm_48k) F32.zero
    (EQ.setMidGain (arithF EQBinary32.libm_48k) F32.zero
       (EQ.setLowGain (arithF EQBinary32.libm_48k) F32.zero EQBinary32.eq_48k)).

Lemma gains_zeroed_eq : gains_zeroed = EQBinary32.eq_48k.
Proof. vm_compute. reflexivity. Qed.

Lemma val_pow2 k : val (pow2 k) = bpow k.
Proof.
  unfold pow2. cbn [val signed]. change 8388608%Z with (2 ^ 23)%Z.
  rewrite <- bpow_IZR, <- bpow_add by lia. f_equal. lia.
Qed.

Lemma bound_ok_spec B :
  bound_ok B = true -> ok B /\ bpow (-100) <= val B <= bpow 124.
Proof.
  unfold bound_ok. rewrite !andb_true_iff. intros [[Hv Hlo] Hhi].
  destruct B as [s|s| |s m e]; try discriminate.
  - destruct s; discriminate.
  - destruct s; [discriminate|]. cbn [valid_binary] in Hv.
    split; [exact Hv|]. cbn [val signed].
    rewrite <- (val_pow2 (-100)), <- (val_pow2 124). unfold pow2. cbn [val signed].
    split; apply le_val_pos; try assumption; reflexivity.
Qed.

Lemma sample_ok_spec B x :
  ok B -> sample_ok B x = true -> ok x /\ Rabs (val x) <= val B.
Proof.
  intros HB. unfold sample_ok. rewrite andb_true_iff. intros [Hv Hle].
  assert (ok x) as Hx.
  { destruct x as [s|s| |s m e]; try exact I; try exact Hv.
    - destruct B as [sB|sB| |sB mB eB]; try contradiction; discriminate.
    - discriminate. }
  split; [exact Hx|]. apply abs_le_val; assumption.
Qed.

End EQRounding.

(** C9, as the code behaves.  With the three band gains at 0 dB (as the
    constructor leaves them, or set by the three setters) and the filter
    states at zero, the binary32 [process] at 48 kHz is the identity up to
    rounding on every sequence of samples that stay away from overflow: if
    every sample of both channels is a binary32 number of magnitude at most
    [B], for a bound [B] between [2^-100] and [2^124], then every output is
    finite and within [B / 256] of its input.  (The outputs need not equal
    the inputs, and beyond such a bound the products of the filter
    overflow: [C9_counterexample].) *)
Theorem C9_eq_identity_up_to_rounding :
  forall (B : float) (ins : list (float * float)),
    EQRounding.bound_ok B = true ->
    forallb (EQRounding.pair_ok B) ins = true ->
    Forall2 (fun i o => EQRounding.close B (fst i) (fst o)
                        /\ EQRounding.close B (snd i) (snd o))
            ins (snd (EQ.run (arithF EQBinary32.libm_48k) EQBinary32.eq_48k ins))
    /\ Forall2 (fun i o => EQRounding.close B (fst i) (fst o)
                           /\ EQRounding.close B (snd i) (snd o))
               ins (snd (EQ.run (arithF EQBinary32.libm_48k)
                                EQRounding.gains_zeroed ins)).
Proof.
  intros B ins HB Hins. rewrite EQRounding.gains_zeroed_eq.
  destruct (EQRounding.bound_ok_spec B HB) as (OB & Blo & Bhi).
  assert (Forall2 (fun i o => EQRounding.near (Rounding.val B) (fst i) (fst o)
                              /\ EQRounding.near (Rounding.val B) (snd i) (snd o))
            ins (snd (EQ.run (arithF EQBinary32.libm_48k) EQBinary32.eq_48k ins)))
    as H.
  { apply EQRounding.run_near; [exact Blo|exact Bhi| |].
    - apply EQRounding.eq_inv_start; assumption.
    - apply Forall_forall. intros [l r] Hin.
      rewrite forallb_forall in Hins.
      specialize (Hins (l, r) ltac:(apply list_elem_of_In; exact Hin)).
      unfold EQRounding.pair_ok in Hins. apply andb_prop in Hins as [Hl Hr].
      split; apply EQRounding.sample_ok_spec; assumption. }
  assert (forall i o, EQRounding.near (Rounding.val B) i o -> EQRounding.close B i o)
    as Hclose.
  { intros i o [Ho He]. split; [apply Rounding.ok_is_finite; exact Ho|exact He]. }
  assert (forall l1 l2,
             Forall2 (fun i o : float * float =>
                        EQRounding.near (Rounding.val B) (fst i) (fst o)
                        /\ EQRounding.near (Rounding.val B) (snd i) (snd o)) l1 l2 ->
             Forall2 (fun i o => EQRounding.close B (fst i) (fst o)
                                 /\ EQRounding.close B (snd i) (snd o)) l1 l2) as Hall.
  { intros l1 l2 HF. induction HF as [|i o l1 l2 [H1 H2] _ IH]; constructor;
      [split; apply Hclose; assumption|exact IH]. }
  split; apply Hall; exact H.
Qed.

(** The eight ordinary samples, all of magnitude at most 1. *)
Lemma C9_witness :
  EQRounding.bound_ok F32.c1 = true
  /\ forallb (EQRounding.pair_ok F32.c1) EQBinary32.ordinary = true
  /\ Forall2 (fun i o => EQRounding.close F32.c1 (fst i) (fst o)
                         /\ EQRounding.close F32.c1 (snd i) (snd o))
             EQBinary32.ordinary (EQBinary32.outputs EQBinary32.ordinary).
Proof.
  split; [reflexivity|]. split; [reflexivity|].
  apply (C9_eq_identity_up_to_rounding F32.c1 EQBinary32.ordinary); reflexivity.
Defined.

(** * Further properties of the engine and its processors *)

(** ** Parameter ranges *)

Lemma SFcompare_refl (x : float) : x <> S754_nan -> SFcompare x x = Some Eq.
Proof.
  destruct x as [[]|[]| |[] m e]; simpl; try congruence; intros _;
    rewrite Z.compare_refl, ?Pos.compare_cont_refl; reflexivity.
Qed.

Lemma le_refl (x : float) : x <> S754_nan -> F32.le x x = true.
Proof. intros H. unfold F32.le, SFleb. now rewrite SFcompare_refl. Qed.

Lemma le_not_nan_l (a b : float) : F32.le a b = true -> a <> S754_nan.
Proof. intros H ->. discriminate H. Qed.

Lemma lt_not_nan_r (a b : float) : F32.lt a b = true -> b <> S754_nan.
Proof. intros H ->. destruct a; discriminate H. Qed.

Lemma comparable (a b : float) :
  a <> S754_nan -> b <> S754_nan -> SFcompare a b <> None.
Proof.
  destruct a as [[]|[]| |[] ma ea], b as [[]|[]| |[] mb eb]; simpl; try congruence;
    intros _ _; destruct (ea ?= eb); congruence.
Qed.

(** [lo <= x <= hi], which leaves out the NaN. *)
Definition between (lo hi x : float) : Prop :=
  F32.le lo x = true /\ F32.le x hi = true.

(** The engine's [clamp(value, lo, hi)] is [std::max(lo, std::min(value, hi))]:
    the result lies in [lo, hi] whatever [value] is, and a NaN gives [lo]. *)
Lemma clamp_between (value lo hi : float) :
  F32.le lo hi = true -> between lo hi (F32.clamp value lo hi).
Proof.
  intros Hle. pose proof (le_not_nan_l _ _ Hle) as Hlo.
  unfold between, F32.clamp, F32.max, F32.min.
  destruct (F32.lt hi value) eqn:Hhi.
  - destruct (F32.lt lo hi) eqn:Hlt.
    + split; [exact Hle|]. apply le_refl. eapply lt_not_nan_r; eauto.
    + split; [now apply le_refl|exact Hle].
  - destruct (F32.lt lo value) eqn:Hlv.
    + split; [now apply lt_le|].
      apply not_lt_le; [exact Hhi|]. apply comparable; [|eapply lt_not_nan_r; eauto].
      intros ->. destruct lo; discriminate Hle.
    + split; [now apply le_refl|exact Hle].
Qed.

Lemma clamp_nan (lo hi : float) : F32.clamp F32.nan lo hi = lo.
Proof.
  unfold F32.clamp, F32.max, F32.min, F32.lt, SFltb.
  destruct hi as [| | |]; simpl; destruct lo; reflexivity.
Qed.

(** The processors' [std::max(lo, std::min(hi, value))]: the same range,
    but a NaN gives [hi]. *)
Lemma max_min_between (value lo hi : float) :
  F32.le lo hi = true -> between lo hi (F32.max lo (F32.min hi value)).
Proof.
  intros Hle. pose proof (le_not_nan_l _ _ Hle) as Hlo.
  unfold between, F32.max, F32.min.
  destruct (F32.lt value hi) eqn:Hvh.
  - destruct (F32.lt lo value) eqn:Hlv.
    + split; now apply lt_le.
    + split; [now apply le_refl|exact Hle].
  - destruct (F32.lt lo hi) eqn:Hlt.
    + split; [exact Hle|]. apply le_refl. eapply lt_not_nan_r; eauto.
    + split; [now apply le_refl|exact Hle].
Qed.

Lemma max_min_nan (lo hi : float) :
  F32.le lo hi = true -> F32.lt lo hi = true \/ lo = hi ->
  F32.max lo (F32.min hi F32.nan) = hi.
Proof.
  intros Hle H. unfold F32.max, F32.min.
  replace (F32.lt F32.nan hi) with false by (destruct hi; reflexivity).
  destruct H as [H | ->]; [now rewrite H|]. now destruct (F32.lt hi hi).
Qed.

(** One channel of a stereo sample or buffer pair. *)
Definition pick {A} (right : bool) (p : A * A) : A := if right then snd p else fst p.

Lemma redistribute_iter_params st i :
  scanValue (redistribute_iter st i) = scanValue st.
Proof. unfold redistribute_iter. break_match; reflexivity. Qed.

Lemma redistributeVoices_scanValue st :
  scanValue (redistributeVoices st) = scanValue st.
Proof.
  unfold redistributeVoices. destruct (_ || _); [reflexivity|].
  apply (fold_left_invariant (fun s => scanValue s = scanValue st)); auto.
  intros a x Ha. now rewrite redistribute_iter_params.
Qed.

Lemma setScan_scanValue scan st :
  scanValue (setScan scan st) = F32.clamp scan F32.zero F32.c1.
Proof.
  unfold setScan. match goal with |- context [if ?c then _ else _] => destruct c end;
    [|reflexivity].
  eng_simpl. now rewrite redistributeVoices_scanValue.
Qed.

Lemma minSliceTime_view st st' :
  detector_view st' = detector_view st -> minSliceTime st' = minSliceTime st.
Proof. unfold detector_view. intros H. now injection H. Qed.

Lemma rescanSlices_minSliceTime threshold t st :
  minSliceTime (rescanSlices threshold t st) = minSliceTime st.
Proof.
  destruct (Z.le_gt_cases (recordedLength st) 0) as [Hle|Hgt].
  - now rewrite rescanSlices_idle.
  - pose proof (rescanSlices_view threshold t st Hgt) as Hv.
    unfold detector_view in Hv. now injection Hv.
Qed.

Lemma setMinSliceTime_minSliceTime lm time st :
  minSliceTime (setMinSliceTime lm time st) = F32.clamp time F32.zero F32.c1.
Proof.
  unfold setMinSliceTime.
  match goal with |- context [if ?c then _ else _] => destruct c end; [|reflexivity].
  eng_simpl.
  rewrite (minSliceTime_view _ _ (redistributeVoices_view _)).
  now rewrite rescanSlices_minSliceTime.
Qed.

(** X1.  Whatever the argument of a parameter setter of the engine is (a
    NaN and the infinities included), the value it stores lies in the
    parameter's range: mix, delay wet, reverb wet, scan and the
    minimum-slice-time knob in [0, 1], feedback in [0, 0.95], speed in
    [-8, 8]; a NaN argument stores the lower bound. *)
Theorem X1_engine_setters_store_values_in_range :
  forall (lm : Libm) (v : float) (st : Engine),
    (between F32.zero F32.c1 (mixAmount (setMix v st))
     /\ between F32.zero F32.c0_95 (feedbackAmount (setFeedback v st))
     /\ between (F32.opp F32.c8) F32.c8 (speed (setSpeed v st))
     /\ between F32.zero F32.c1 (delayWet (setDelayWet v st))
     /\ between F32.zero F32.c1 (reverbWet (setReverbWet v st))
     /\ between F32.zero F32.c1 (scanValue (setScan v st))
     /\ between F32.zero F32.c1 (minSliceTime (setMinSliceTime lm v st)))
    /\ (mixAmount (setMix F32.nan st) = F32.zero
        /\ feedbackAmount (setFeedback F32.nan st) = F32.zero
        /\ speed (setSpeed F32.nan st) = F32.opp F32.c8
        /\ delayWet (setDelayWet F32.nan st) = F32.zero
        /\ reverbWet (setReverbWet F32.nan st) = F32.zero
        /\ scanValue (setScan F32.nan st) = F32.zero
        /\ minSliceTime (setMinSliceTime lm F32.nan st) = F32.zero).
Proof.
  intros lm v st. rewrite !setScan_scanValue, !setMinSliceTime_minSliceTime.
  unfold setMix, setFeedback, setSpeed, setDelayWet, setReverbWet. eng_simpl.
  rewrite !clamp_nan.
  repeat split; try reflexivity; apply clamp_between; reflexivity.
Qed.

(** X2.  The processors clamp with [std::max(lo, std::min(hi, value))]:
    whatever the argument, the reverb's three parameters are stored in
    [0, 1], the equaliser's gains in [-20, 20], the delay's feedback in
    [0, 0.95] and its two times in [0.001, 2] (the [maxDelay] of the
    constructor); there a NaN argument stores the upper bound. *)
Theorem X2_processor_setters_store_values_in_range :
  forall (lm : Libm) (sr v w : float) (r : Reverb.t) (e : EQ.t) (d : Delay.t),
    (between F32.zero F32.c1 (Reverb.roomSize (Reverb.setParameters v w w r))
     /\ between F32.zero F32.c1 (Reverb.damping (Reverb.setParameters w v w r))
     /\ between F32.zero F32.c1 (Reverb.decay (Reverb.setParameters w w v r))
     /\ between (F32.lit (-20) 0) (F32.lit 20 0) (EQ.lowGain (EQ.setLowGain (arithF lm) v e))
     /\ between (F32.lit (-20) 0) (F32.lit 20 0) (EQ.midGain (EQ.setMidGain (arithF lm) v e))
     /\ between (F32.lit (-20) 0) (F32.lit 20 0) (EQ.highGain (EQ.setHighGain (arithF lm) v e))
     /\ between F32.zero F32.c0_95 (Delay.feedback (Delay.setFeedback v d))
     /\ between F32.c0_001 F32.c2
                (Delay.delayTimeL (Delay.setDelayTime v w (Delay.make sr)))
     /\ between F32.c0_001 F32.c2
                (Delay.delayTimeR (Delay.setDelayTime w v (Delay.make sr))))
    /\ (Reverb.roomSize (Reverb.setParameters F32.nan w w r) = F32.c1
        /\ EQ.lowGain (EQ.setLowGain (arithF lm) F32.nan e) = F32.lit 20 0
        /\ Delay.feedback (Delay.setFeedback F32.nan d) = F32.c0_95
        /\ Delay.delayTimeL (Delay.setDelayTime F32.nan w (Delay.make sr)) = F32.c2).
Proof.
  intros lm sr v w r e d.
  unfold Reverb.setParameters, Reverb.unit01, EQ.setLowGain, EQ.setMidGain,
    EQ.setHighGain, EQ.clampGain, Delay.setFeedback, Delay.setDelayTime, Delay.make.
  cbn [Reverb.roomSize Reverb.damping Reverb.decay EQ.lowGain EQ.midGain
       EQ.highGain Delay.feedback Delay.delayTimeL Delay.delayTimeR Delay.maxDelay
       arithF a_max a_min a_lit].
  split.
  - repeat split; apply max_min_between; reflexivity.
  - repeat split; apply max_min_nan; try reflexivity; left; reflexivity.
Qed.

(** X3.  Each of the engine's three reverb setters passes [-1.0f] for the
    two parameters it does not set, and [setParameters] clamps them to 0:
    a call of [setReverbRoom], [setReverbDamping] or [setReverbDecay]
    resets the two other parameters to 0, so that after the three calls
    in a row only the last parameter is set. *)
Theorem X3_reverb_setter_resets_the_other_parameters :
  forall (room damp dec : float) (st : Engine),
    (Reverb.damping (reverb (setReverbRoom room st)) = F32.zero
     /\ Reverb.decay (reverb (setReverbRoom room st)) = F32.zero)
    /\ (Reverb.roomSize (reverb (setReverbDamping damp st)) = F32.zero
        /\ Reverb.decay (reverb (setReverbDamping damp st)) = F32.zero)
    /\ (Reverb.roomSize (reverb (setReverbDecay dec st)) = F32.zero
        /\ Reverb.damping (reverb (setReverbDecay dec st)) = F32.zero)
    /\ (let st' := setReverbDecay dec (setReverbDamping damp (setReverbRoom room st)) in
        Reverb.roomSize (reverb st') = F32.zero
        /\ Reverb.damping (reverb st') = F32.zero
        /\ Reverb.decay (reverb st') = F32.max F32.zero (F32.min F32.c1 dec)).
Proof.
  intros room damp dec st.
  unfold setReverbRoom, setReverbDamping, setReverbDecay. eng_simpl.
  unfold Reverb.setParameters. cbn [Reverb.roomSize Reverb.damping Reverb.decay].
  repeat split; reflexivity.
Qed.

(** ** The voice pool *)

(** What the render blocks after the recorder leave alone, beside the
    detector's view: the two buffers, the number of voices and the length of
    the voice vector. *)
Definition store_view (st : Engine) :=
  (loopBuffer st, tempBuffer st, numVoices st, length (voices st)).

Ltac store_solve :=
  break_match; unfold store_view; eng_simpl; rewrite ?length_insert; reflexivity.

Lemma scan_step_store st : store_view (scan_step st) = store_view st.
Proof. unfold scan_step. store_solve. Qed.

Lemma play_single_store st : store_view (fst (fst (play_single st))) = store_view st.
Proof. unfold play_single. store_solve. Qed.

Lemma play_voice_length st acc v :
  length (fst (fst (play_voice st acc v))) = length (fst (fst acc)).
Proof.
  destruct acc as [[vs l] r]. unfold play_voice.
  break_match; simpl; now rewrite length_insert.
Qed.

Lemma play_voices_length st l : forall acc,
  length (fst (fst (fold_left (play_voice st) l acc))) = length (fst (fst acc)).
Proof.
  induction l as [|v l IH]; intros acc; simpl; [reflexivity|].
  now rewrite IH, play_voice_length.
Qed.

Lemma play_multi_store st : store_view (fst (fst (play_multi st))) = store_view st.
Proof.
  unfold play_multi.
  pose proof (play_voices_length st (seqZ 0 (numVoices st))
                (voices st, F32.zero, F32.zero)) as Hl.
  destruct (fold_left _ _ _) as [[vs l] r]. simpl in Hl.
  break_match; unfold store_view; eng_simpl; now rewrite Hl.
Qed.

Lemma playback_store st : store_view (fst (fst (playback st))) = store_view st.
Proof.
  unfold playback. destruct (0 <? recordedLength st); [|reflexivity].
  destruct (_ || _); [apply play_single_store|apply play_multi_store].
Qed.

Lemma effects_store lm input loopL loopR st :
  store_view (fst (fst (effects lm input loopL loopR st))) = store_view st.
Proof. unfold effects. store_solve. Qed.

Lemma record_sample_store lm x st :
  loopBuffer (record_sample lm x st) = loopBuffer st
  /\ numVoices (record_sample lm x st) = numVoices st
  /\ voices (record_sample lm x st) = voices st
  /\ currentSliceIndex (record_sample lm x st) = currentSliceIndex st.
Proof. unfold record_sample. break_match; repeat split; reflexivity. Qed.

(** After the recorder, the rest of a sample's work keeps the stores. *)
Lemma process_sample_store lm st x :
  store_view (fst (process_sample lm st x)) = store_view (record_sample lm x st).
Proof.
  unfold process_sample.
  destruct (playback (scan_step (record_sample lm x st))) as [[st1 loopL] loopR] eqn:E1.
  destruct (effects lm x loopL loopR st1) as [[st2 fL] fR] eqn:E2. simpl.
  pose proof (effects_store lm x loopL loopR st1) as H2. rewrite E2 in H2.
  pose proof (playback_store (scan_step (record_sample lm x st))) as H1.
  rewrite E1 in H1. simpl in H1, H2.
  now rewrite H2, H1, scan_step_store.
Qed.

(** A property kept by every sample is kept by the render call. *)
Lemma process_keeps lm (P : Engine -> Prop) :
  (forall st x, P st -> P (fst (process_sample lm st x))) ->
  forall inputL st, P st -> P (fst (process lm st inputL)).
Proof.
  intros Hs. induction inputL as [|x rest IH]; intros st HP; [exact HP|].
  rewrite process_step. specialize (Hs st x HP).
  destruct (process_sample lm st x) as [st1 o].
  specialize (IH st1 Hs). destruct (process lm st1 rest) as [st2 os]. exact IH.
Qed.

Definition pool (st : Engine) := (numVoices st, length (voices st)).

Lemma pool_store st st' : store_view st' = store_view st -> pool st' = pool st.
Proof. unfold store_view, pool. intros H. injection H as _ _ -> ->. reflexivity. Qed.

Lemma process_pool lm inputL st : pool (fst (process lm st inputL)) = pool st.
Proof.
  apply (process_keeps lm (fun s => pool s = pool st)); [|reflexivity].
  intros s x Hs. rewrite (pool_store _ _ (process_sample_store lm s x)).
  destruct (record_sample_store lm x s) as (_ & Hn & Hv & _).
  unfold pool in *. now rewrite Hn, Hv.
Qed.

Lemma redistribute_iter_pool st i : pool (redistribute_iter st i) = pool st.
Proof.
  unfold redistribute_iter. break_match; unfold pool; eng_simpl;
    rewrite ?length_insert; reflexivity.
Qed.

Lemma redistributeVoices_pool st : pool (redistributeVoices st) = pool st.
Proof.
  unfold redistributeVoices. destruct (_ || _); [reflexivity|].
  apply (fold_left_invariant (fun s => pool s = pool st)); auto.
  intros a x Ha. now rewrite redistribute_iter_pool.
Qed.

Lemma rescanSlices_pool threshold t st : pool (rescanSlices threshold t st) = pool st.
Proof. unfold rescanSlices. break_match; reflexivity. Qed.

Lemma setRecording_pool lm rec st : pool (setRecording lm rec st) = pool st.
Proof.
  unfold setRecording. destruct (rec && negb (isRecording st)); [reflexivity|].
  destruct (negb rec && isRecording st); [|reflexivity].
  match goal with
  | |- context [if 1 <? _ then redistributeVoices ?s else _] => set (S := s)
  end.
  assert (pool S = pool st) as HS.
  { subst S. unfold pool. eng_simpl. now rewrite length_map. }
  clearbody S.
  destruct (1 <? numVoices S); unfold pool in *; eng_simpl;
    [change (pool (redistributeVoices S) = pool st);
     now rewrite redistributeVoices_pool|exact HS].
Qed.

Lemma setMinSliceTime_pool lm time st : pool (setMinSliceTime lm time st) = pool st.
Proof.
  unfold setMinSliceTime.
  match goal with |- context [if ?c then _ else _] => destruct c end; [|reflexivity].
  unfold pool. eng_simpl.
  change (pool (redistributeVoices
                  (rescanSlices F32.c0_5
                     (getMinSliceTime lm (F32.clamp time F32.zero F32.c1))
                     (set_minSliceTime (F32.clamp time F32.zero F32.c1) st)))
          = pool st).
  now rewrite redistributeVoices_pool, rescanSlices_pool.
Qed.

Lemma setScan_pool scan st : pool (setScan scan st) = pool st.
Proof.
  unfold setScan.
  match goal with |- context [if ?c then _ else _] => destruct c end; [|reflexivity].
  unfold pool. eng_simpl.
  change (pool (redistributeVoices (set_scanValue (F32.clamp scan F32.zero F32.c1) st))
          = pool st).
  now rewrite redistributeVoices_pool.
Qed.

Lemma poly_iter_pool st i : pool (poly_iter st i) = pool st.
Proof.
  unfold poly_iter. break_match; unfold pool; eng_simpl;
    rewrite ?length_insert; reflexivity.
Qed.

Lemma length_resize_voices n l : 0 <= n -> Z.of_nat (length (resize_voices n l)) = n.
Proof.
  intros Hn. unfold resize_voices.
  rewrite length_app, length_take, length_replicate. lia.
Qed.

Lemma setPolyVoices_pool n st :
  pool (setPolyVoices n st) = pool st
  \/ (numVoices (setPolyVoices n st) = clampZ n 1 8
      /\ Z.of_nat (length (voices (setPolyVoices n st))) = clampZ n 1 8).
Proof.
  unfold setPolyVoices. destruct (negb _); [|now left]. right.
  eng_simpl.
  set (st1 := set_voices _ _).
  assert (pool st1 = (clampZ n 1 8, length (resize_voices (clampZ n 1 8) (voices st))))
    as H1 by reflexivity.
  assert (forall s, pool s = pool st1 ->
                    numVoices s = clampZ n 1 8
                    /\ Z.of_nat (length (voices s)) = clampZ n 1 8) as Hfin.
  { intros s Hs. rewrite H1 in Hs. unfold pool in Hs. injection Hs as -> ->.
    split; [reflexivity|]. apply length_resize_voices. unfold clampZ. lia. }
  clearbody st1.
  match goal with |- context [if ?c then _ else _] => destruct c end; apply Hfin.
  - apply (fold_left_invariant (fun s => pool s = pool st1)); auto.
    intros a x Ha. now rewrite poly_iter_pool.
  - apply (fold_left_invariant (fun s => pool s = pool st1)); auto.
    intros a x Ha. unfold pool in *. eng_simpl. now rewrite length_insert.
Qed.

(** The voice vector is empty (as constructed and after [clear]) or holds
    exactly [numVoices] voices, and [numVoices] is between 1 and 8. *)
Definition VInv (st : Engine) : Prop :=
  1 <= numVoices st <= 8
  /\ (voices st = [] \/ Z.of_nat (length (voices st)) = numVoices st).

Lemma VInv_pool st st' : pool st' = pool st -> VInv st -> VInv st'.
Proof.
  unfold pool, VInv. intros H [Hn Hv]. injection H as Hn' Hl'.
  rewrite Hn'. split; [exact Hn|]. destruct Hv as [Hv|Hv].
  - left. rewrite Hv in Hl'. now apply length_zero_iff_nil.
  - right. now rewrite Hl'.
Qed.

Lemma apply_op_VInv lm st o : VInv st -> VInv (apply_op lm st o).
Proof.
  intros H.
  destruct o; simpl; try exact H;
    try (eapply VInv_pool; [|exact H]; reflexivity).
  - eapply VInv_pool; [apply setRecording_pool|exact H].
  - eapply VInv_pool; [apply setMinSliceTime_pool|exact H].
  - eapply VInv_pool; [apply setScan_pool|exact H].
  - destruct (setPolyVoices_pool voices_count st) as [Hp|[Hn Hl]].
    + eapply VInv_pool; eauto.
    + unfold VInv. rewrite Hn, Hl. split; [unfold clampZ; lia|now right].
  - eapply VInv_pool; [apply rescanSlices_pool|exact H].
  - eapply VInv_pool; [apply redistributeVoices_pool|exact H].
  - eapply VInv_pool; [apply process_pool|exact H].
  - unfold VInv, clear. eng_simpl. split; [lia|now left].
Qed.

(** X4.  After any sequence of public calls on a freshly constructed
    engine, the number of voices is between 1 and 8 and the voice vector is
    either empty or holds exactly that many voices: the loop over
    [v < numVoices] of the multi-voice render, which runs only on a
    non-empty vector, never indexes [voices] out of range. *)
Theorem X4_voice_vector_matches_voice_count :
  forall (lm : Libm) (sr : float) (g : RandomEngine) (ops : list Op),
    let st := run lm (Alien4AudioEngine lm sr g) ops in
    1 <= getNumVoices st <= 8
    /\ (voices st = [] \/ size (voices st) = getNumVoices st).
Proof.
  intros lm sr g ops. cbv zeta. unfold run.
  apply (fold_left_invariant VInv).
  - unfold VInv. simpl. split; [lia|now left].
  - intros a x. apply apply_op_VInv.
Qed.

(** ** The current slice index in single-voice use *)

Definition cursor_view (st : Engine) :=
  (slices st, currentSliceIndex st, numVoices st, recordedLength st).

(** [getCurrentSlice()] is 0 on an empty list and an index of the list
    otherwise. *)
Definition current_in_range (st : Engine) : Prop :=
  (slices st = [] /\ currentSliceIndex st = 0)
  \/ 0 <= currentSliceIndex st < size (slices st).

(** One voice, and the current slice index in range. *)
Definition CInv (st : Engine) : Prop := numVoices st = 1 /\ current_in_range st.

Lemma CInv_view st st' : cursor_view st' = cursor_view st -> CInv st -> CInv st'.
Proof.
  unfold cursor_view, CInv, current_in_range. intros H.
  injection H as -> -> -> _. auto.
Qed.

Lemma record_sample_cursor lm x st :
  cursor_view (record_sample lm x st) = cursor_view st.
Proof. unfold record_sample. break_match; reflexivity. Qed.

Lemma size_nil_iff {A} (l : list A) : size l = 0 <-> l = [].
Proof.
  unfold size. split; [|intros ->; reflexivity].
  destruct l; [reflexivity|simpl; lia].
Qed.

Lemma scan_step_CInv st : CInv st -> CInv (scan_step st).
Proof.
  intros [Hn Hc]. unfold scan_step.
  destruct (1 <? size (slices st)) eqn:E1; [|now split].
  destruct (F32.gt _ _); [|now split].
  match goal with |- context [if ?c then _ else _] => destruct c end; [|now split].
  eng_simpl. rewrite Hn. change (1 <? 1) with false. cbn [andb].
  split; [exact Hn|]. right. eng_simpl. unfold clampZ. lia.
Qed.

Lemma play_single_cursor st :
  cursor_view (fst (fst (play_single st))) = cursor_view st.
Proof. unfold play_single. break_match; reflexivity. Qed.

Lemma playback_CInv st : CInv st -> CInv (fst (fst (playback st))).
Proof.
  intros H. unfold playback. destruct (0 <? recordedLength st); [|exact H].
  destruct H as [Hn Hc]. rewrite Hn. simpl.
  eapply CInv_view; [apply play_single_cursor|now split].
Qed.

Lemma effects_cursor lm input loopL loopR st :
  cursor_view (fst (fst (effects lm input loopL loopR st))) = cursor_view st.
Proof. unfold effects. break_match; reflexivity. Qed.

Lemma process_sample_CInv lm st x : CInv st -> CInv (fst (process_sample lm st x)).
Proof.
  intros H. unfold process_sample.
  assert (CInv (scan_step (record_sample lm x st))) as H1.
  { apply scan_step_CInv. eapply CInv_view; [apply record_sample_cursor|exact H]. }
  apply playback_CInv in H1.
  destruct (playback (scan_step (record_sample lm x st))) as [[st1 loopL] loopR].
  simpl in H1.
  pose proof (effects_cursor lm x loopL loopR st1) as H2.
  destruct (effects lm x loopL loopR st1) as [[st2 fL] fR]. simpl in *.
  eapply CInv_view; eauto.
Qed.

Lemma redistribute_iter_cursor st i :
  cursor_view (redistribute_iter st i) = cursor_view st.
Proof. unfold redistribute_iter. break_match; reflexivity. Qed.

Lemma redistributeVoices_cursor st :
  cursor_view (redistributeVoices st) = cursor_view st.
Proof.
  unfold redistributeVoices. destruct (_ || _); [reflexivity|].
  apply (fold_left_invariant (fun s => cursor_view s = cursor_view st)); auto.
  intros a x Ha. now rewrite redistribute_iter_cursor.
Qed.

(** The last statement of [rescanSlices] (lines 177-179). *)
Lemma rescanSlices_current threshold t st :
  0 <= currentSliceIndex st \/ recordedLength st <= 0 ->
  current_in_range st \/ 0 < recordedLength st ->
  current_in_range (rescanSlices threshold t st)
  /\ numVoices (rescanSlices threshold t st) = numVoices st.
Proof.
  intros Hc Hr. unfold rescanSlices.
  destruct (recordedLength st <=? 0) eqn:E.
  - split; [|reflexivity]. destruct Hr as [Hr|Hr]; [exact Hr|lia].
  - destruct Hc as [Hc|Hc]; [|lia]. eng_simpl.
    set (l := detect_slices _ _ _ _).
    unfold current_in_range.
    destruct (size l <=? currentSliceIndex st) eqn:E1; eng_simpl;
      [|split; [right; lia|reflexivity]].
    destruct (size l =? 0) eqn:E2; (split; [|reflexivity]).
    + left. split; [|reflexivity]. apply size_nil_iff. lia.
    + right. unfold size in *. lia.
Qed.

Lemma current_in_range_nonneg st : current_in_range st -> 0 <= currentSliceIndex st.
Proof. intros [[_ ->]|H]; lia. Qed.

Lemma rescanSlices_CInv threshold t st : CInv st -> CInv (rescanSlices threshold t st).
Proof.
  intros [Hn Hc].
  destruct (rescanSlices_current threshold t st) as [H1 H2]; auto.
  { left. now apply current_in_range_nonneg. }
  split; [now rewrite H2|exact H1].
Qed.

Lemma setRecording_stop_current lm st :
  isRecording st = true -> currentSliceIndex (setRecording lm false st) = 0.
Proof.
  intros H. unfold setRecording. rewrite H. simpl andb. cbv iota.
  match goal with
  | |- context [if 1 <? _ then redistributeVoices ?s else _] => set (S := s)
  end.
  assert (currentSliceIndex S = 0) as HS by reflexivity.
  clearbody S.
  destruct (1 <? numVoices S); eng_simpl; [|exact HS].
  pose proof (redistributeVoices_cursor S) as Hv. unfold cursor_view in Hv.
  injection Hv as _ -> _ _. exact HS.
Qed.

Lemma setRecording_CInv lm rec st : CInv st -> CInv (setRecording lm rec st).
Proof.
  intros [Hn Hc].
  destruct (Bool.eqb rec (isRecording st)) eqn:E.
  { apply Bool.eqb_prop in E. rewrite setRecording_noop by auto. now split. }
  destruct rec, (isRecording st) eqn:Hr; try discriminate.
  - pose proof (setRecording_start lm st Hr) as Hv.
    pose proof (setRecording_pool lm true st) as Hp.
    unfold detector_view in Hv. unfold pool in Hp.
    injection Hv as Hs _ _ _ _ _ _ _ _. injection Hp as Hp _.
    assert (currentSliceIndex (setRecording lm true st) = currentSliceIndex st) as Hcu.
    { unfold setRecording. rewrite Hr. reflexivity. }
    unfold CInv, current_in_range. now rewrite Hs, Hp, Hcu.
  - pose proof (setRecording_pool lm false st) as Hp. unfold pool in Hp.
    injection Hp as Hp _.
    unfold CInv, current_in_range.
    rewrite Hp, (setRecording_stop_current lm st Hr). split; [exact Hn|].
    destruct (slices (setRecording lm false st)) as [|s l]; [now left|].
    right. unfold size. simpl. lia.
Qed.

Lemma setMinSliceTime_CInv lm time st : CInv st -> CInv (setMinSliceTime lm time st).
Proof.
  intros H. unfold setMinSliceTime.
  match goal with |- context [if ?c then _ else _] => destruct c end;
    [|eapply CInv_view; [|exact H]; reflexivity].
  eapply (CInv_view (redistributeVoices
                       (rescanSlices F32.c0_5
                          (getMinSliceTime lm (F32.clamp time F32.zero F32.c1))
                          (set_minSliceTime (F32.clamp time F32.zero F32.c1) st))));
    [reflexivity|].
  eapply CInv_view; [apply redistributeVoices_cursor|].
  apply rescanSlices_CInv. eapply CInv_view; [|exact H]. reflexivity.
Qed.

Lemma setScan_cursor scan st : cursor_view (setScan scan st) = cursor_view st.
Proof.
  unfold setScan.
  match goal with |- context [if ?c then _ else _] => destruct c end; [|reflexivity].
  change (cursor_view
            (redistributeVoices (set_scanValue (F32.clamp scan F32.zero F32.c1) st))
          = cursor_view st).
  now rewrite redistributeVoices_cursor.
Qed.

(** The calls of a session that stays with one voice. *)
Definition single_voice (o : Op) : bool :=
  match o with
  | OpSetPolyVoices voices_count => voices_count <=? 1
  | _ => true
  end.

Lemma apply_op_CInv lm st o : single_voice o = true -> CInv st -> CInv (apply_op lm st o).
Proof.
  intros Ho H.
  destruct o; simpl; try exact H;
    try (eapply CInv_view; [|exact H]; reflexivity).
  - now apply setRecording_CInv.
  - now apply setMinSliceTime_CInv.
  - eapply CInv_view; [apply setScan_cursor|exact H].
  - simpl in Ho. unfold setPolyVoices. destruct H as [Hn Hc].
    replace (clampZ voices_count 1 8) with 1 by (unfold clampZ; lia).
    rewrite Hn. simpl. now split.
  - now apply rescanSlices_CInv.
  - eapply CInv_view; [apply redistributeVoices_cursor|exact H].
  - apply (process_keeps lm CInv); [|exact H].
    intros s x. apply process_sample_CInv.
  - unfold CInv, current_in_range, clear. eng_simpl. split; [reflexivity|now left].
Qed.

Lemma run_CInv lm ops : forall st,
  forallb single_voice ops = true -> CInv st -> CInv (run lm st ops).
Proof.
  induction ops as [|o ops IH]; intros st Hops H; [exact H|].
  simpl in Hops. apply andb_prop in Hops as [Ho Hops].
  apply (IH (apply_op lm st o)); [exact Hops|now apply apply_op_CInv].
Qed.

(** X5.  In a session that never asks for more than one voice, that is,
    made of any public calls except [setPolyVoices(n)] with [n > 1],
    [getCurrentSlice()] is 0 when the committed list is empty and an index
    of the list otherwise, after every call. *)
Theorem X5_current_slice_in_range_with_one_voice :
  forall (lm : Libm) (sr : float) (g : RandomEngine) (ops : list Op),
    forallb single_voice ops = true ->
    let st := run lm (Alien4AudioEngine lm sr g) ops in
    (getNumSlices st = 0 -> getCurrentSlice st = 0)
    /\ (0 < getNumSlices st -> 0 <= getCurrentSlice st <= getNumSlices st - 1).
Proof.
  intros lm sr g ops Hops. cbv zeta.
  destruct (run_CInv lm ops (Alien4AudioEngine lm sr g) Hops) as [_ Hc].
  { split; [reflexivity|now left]. }
  unfold getNumSlices, getCurrentSlice.
  destruct Hc as [[Hs Hc]|Hc].
  - rewrite Hs, Hc. simpl. split; [reflexivity|]. unfold size. simpl. lia.
  - split; lia.
Qed.

(** A session with one voice: record two onsets, commit, scan to the last
    slice, render, raise the minimum slice time (which rescans), render. *)
Lemma X5_witness :
  for_every_libm (fun lm =>
    let ops := [OpSetMinSliceTime k0_625; OpSetRecording true;
                OpProcess (onset 199 ++ onset 199); OpSetRecording false;
                OpSetPolyVoices 1; OpSetScan F32.c1; OpProcess [F32.zero];
                OpSetMinSliceTime F32.c1; OpProcess [F32.zero]] in
    let st := run lm (Alien4AudioEngine lm sr100 g_const) ops in
    forallb single_voice ops = true
    /\ (getNumSlices st = 0 -> getCurrentSlice st = 0)
    /\ (0 < getNumSlices st -> 0 <= getCurrentSlice st <= getNumSlices st - 1)).
Proof.
  intros lm. cbv zeta. split; [reflexivity|].
  apply (X5_current_slice_in_range_with_one_voice lm sr100 g_const). reflexivity.
Defined.

(** ** The committed recording *)

Definition bufs (st : Engine) := (loopBuffer st, tempBuffer st).

Lemma bufs_store st st' : store_view st' = store_view st -> bufs st' = bufs st.
Proof. unfold store_view, bufs. intros H. injection H as -> -> _ _. reflexivity. Qed.

Lemma redistribute_iter_bufs st i : bufs (redistribute_iter st i) = bufs st.
Proof. unfold redistribute_iter. break_match; reflexivity. Qed.

Lemma redistributeVoices_bufs st : bufs (redistributeVoices st) = bufs st.
Proof.
  unfold redistributeVoices. destruct (_ || _); [reflexivity|].
  apply (fold_left_invariant (fun s => bufs s = bufs st)); auto.
  intros a x Ha. now rewrite redistribute_iter_bufs.
Qed.

Lemma poly_iter_bufs st i : bufs (poly_iter st i) = bufs st.
Proof. unfold poly_iter. break_match; reflexivity. Qed.

Lemma setPolyVoices_bufs n st : bufs (setPolyVoices n st) = bufs st.
Proof.
  unfold setPolyVoices. destruct (negb _); [|reflexivity].
  match goal with |- context [if ?c then _ else _] => destruct c end.
  - apply (fold_left_invariant (fun s => bufs s = bufs st)); [reflexivity|].
    intros a x Ha. now rewrite poly_iter_bufs.
  - apply (fold_left_invariant (fun s => bufs s = bufs st)); [reflexivity|].
    intros a x Ha. exact Ha.
Qed.

Lemma setScan_bufs scan st : bufs (setScan scan st) = bufs st.
Proof.
  unfold setScan.
  match goal with |- context [if ?c then _ else _] => destruct c end; [|reflexivity].
  change (bufs (redistributeVoices (set_scanValue (F32.clamp scan F32.zero F32.c1) st))
          = bufs st).
  now rewrite redistributeVoices_bufs.
Qed.

Lemma rescanSlices_bufs threshold t st : bufs (rescanSlices threshold t st) = bufs st.
Proof. unfold rescanSlices. break_match; reflexivity. Qed.

Lemma process_sample_bufs lm st x :
  loopBuffer (fst (process_sample lm st x)) = loopBuffer st
  /\ tempBuffer (fst (process_sample lm st x)) = tempBuffer (record_sample lm x st).
Proof.
  pose proof (bufs_store _ _ (process_sample_store lm st x)) as H.
  unfold bufs in H. injection H as H1 H2.
  destruct (record_sample_store lm x st) as (Hl & _). split; congruence.
Qed.

(** The committed recording: the loop buffer, its length, and the slices. *)
Definition committed (st : Engine) := (loopBuffer st, recordedLength st, slices st).

Lemma committed_views st st' :
  bufs st' = bufs st -> detector_view st' = detector_view st ->
  committed st' = committed st.
Proof.
  unfold bufs, detector_view, committed. intros H1 H2.
  injection H1 as -> _. injection H2 as -> -> _ _ _ _ _ _ _. reflexivity.
Qed.

Lemma process_committed lm inputL st :
  committed (fst (process lm st inputL)) = committed st.
Proof.
  apply (process_keeps lm (fun s => committed s = committed st)); [|reflexivity].
  intros s x Hs. rewrite <- Hs.
  destruct (process_sample_bufs lm s x) as [Hl _].
  pose proof (process_sample_view lm s x) as Hv.
  destruct (record_sample_frame lm x s) as (Hsl & Hrl & _).
  unfold detector_view in Hv. injection Hv as Hs' Hr' _ _ _ _ _ _ _.
  unfold committed. now rewrite Hl, Hs', Hr', Hsl, Hrl.
Qed.

(** The calls other than a stop-recording, a rescan (direct, or through
    [setMinSliceTime]) and [clear]. *)
Definition keeps_committed (o : Op) : bool :=
  match o with
  | OpSetRecording false | OpSetMinSliceTime _ | OpRescanSlices _ _ | OpClear => false
  | _ => true
  end.

Lemma setRecording_true_committed lm st :
  committed (setRecording lm true st) = committed st.
Proof.
  unfold setRecording. simpl andb.
  destruct (negb (isRecording st)); [reflexivity|].
  destruct (isRecording st); reflexivity.
Qed.

Lemma apply_op_committed lm st o :
  keeps_committed o = true -> committed (apply_op lm st o) = committed st.
Proof.
  intros Hk. destruct o; try discriminate Hk; simpl; try reflexivity.
  - destruct rec; [apply setRecording_true_committed|discriminate Hk].
  - apply committed_views; [apply setScan_bufs|apply setScan_view].
  - apply committed_views; [apply setPolyVoices_bufs|apply setPolyVoices_view].
  - apply committed_views; [apply redistributeVoices_bufs|apply redistributeVoices_view].
  - apply process_committed.
Qed.

(** X6.  The committed recording (the loop buffer, its length and the
    slice list) is changed only by a stop-recording, a rescan (direct, or
    through [setMinSliceTime]) and [clear]: rendering, starting and
    running a new take, and every other setter leave it as it is. *)
Theorem X6_render_and_new_take_keep_the_committed_loop :
  forall (lm : Libm) (ops : list Op) (st : Engine),
    forallb keeps_committed ops = true ->
    loopBuffer (run lm st ops) = loopBuffer st
    /\ recordedLength (run lm st ops) = recordedLength st
    /\ slices (run lm st ops) = slices st.
Proof.
  intros lm ops. induction ops as [|o ops IH]; intros st Hk; [auto|].
  simpl in Hk. apply andb_prop in Hk as [Ho Hk].
  pose proof (apply_op_committed lm st o Ho) as H1.
  destruct (IH (apply_op lm st o) Hk) as (Hl & Hr & Hs).
  unfold committed in H1. injection H1 as H1 H2 H3.
  change (run lm st (o :: ops)) with (run lm (apply_op lm st o) ops).
  repeat split; congruence.
Qed.

(** A committed take of two slices, then: a new take is started and
    rendered, the voices are set to three, scanned and redistributed. *)
Lemma X6_witness :
  for_every_libm (fun lm =>
    let st := run lm (Alien4AudioEngine lm sr100 g_const)
                  [OpSetMinSliceTime k0_625; OpSetRecording true;
                   OpProcess (onset 199 ++ onset 199); OpSetRecording false] in
    let ops := [OpSetRecording true; OpProcess (onset 5); OpSetPolyVoices 3;
                OpSetScan F32.c1; OpProcess (onset 2); OpRedistributeVoices] in
    forallb keeps_committed ops = true
    /\ loopBuffer (run lm st ops) = loopBuffer st
    /\ recordedLength (run lm st ops) = recordedLength st
    /\ slices (run lm st ops) = slices st).
Proof.
  intros lm. cbv zeta. split; [reflexivity|].
  apply (X6_render_and_new_take_keep_the_committed_loop lm). reflexivity.
Defined.

(** ** What a take records *)

Lemma fv_get_set v i x j :
  fv_get (fv_set v i x) j = if i =? j then x else fv_get v j.
Proof.
  unfold fv_get, fv_set. simpl. destruct (Z.eqb_spec i j) as [->|Hne].
  - now rewrite lookup_insert_eq.
  - now rewrite lookup_insert_ne.
Qed.

(** The samples rendered by the calls of a session, in order. *)
Definition rendered (body : list Op) : list float :=
  flat_map (fun o => match o with OpProcess inputL => inputL | _ => [] end) body.

(** The calls that neither start nor stop a recording nor clear. *)
Definition keeps_recording (o : Op) : bool :=
  match o with
  | OpSetRecording _ | OpClear => false
  | _ => true
  end.

(** What the recorder owns while a take runs. *)
Definition take_view (st : Engine) :=
  (tempSlices st, tempRecordPosition st, tempRecordedLength st,
   tempLastAmplitude st, isRecording st, tempBuffer st).

Lemma take_views st st' :
  bufs st' = bufs st -> detector_view st' = detector_view st ->
  take_view st' = take_view st.
Proof.
  unfold bufs, detector_view, take_view. intros H1 H2.
  injection H1 as _ ->. injection H2 as _ _ -> -> -> -> -> _ _. reflexivity.
Qed.

Lemma rescanSlices_take threshold t st :
  take_view (rescanSlices threshold t st) = take_view st.
Proof. unfold rescanSlices. break_match; reflexivity. Qed.

Lemma setMinSliceTime_recording lm time st :
  isRecording st = true ->
  setMinSliceTime lm time st = set_minSliceTime (F32.clamp time F32.zero F32.c1) st.
Proof. intros H. unfold setMinSliceTime. eng_simpl. now rewrite H. Qed.

(** While a take runs, the calls other than the render leave the recorder
    alone. *)
Lemma apply_op_take lm st o :
  isRecording st = true -> keeps_recording o = true ->
  match o with OpProcess _ => True | _ => take_view (apply_op lm st o) = take_view st end.
Proof.
  intros Hr Hk. destruct o; try discriminate Hk; simpl; try reflexivity; auto.
  - now rewrite setMinSliceTime_recording.
  - apply take_views; [apply setScan_bufs|apply setScan_view].
  - apply take_views; [apply setPolyVoices_bufs|apply setPolyVoices_view].
  - apply rescanSlices_take.
  - apply take_views; [apply redistributeVoices_bufs|apply redistributeVoices_view].
Qed.

(** The staging buffer holds the samples [xs] rendered since the take
    started, up to the buffer's capacity, and zeros elsewhere. *)
Definition holds (xs : list float) (st : Engine) : Prop :=
  isRecording st = true
  /\ tempRecordPosition st = Z.min (size xs) LOOP_BUFFER_SIZE
  /\ tempRecordedLength st = tempRecordPosition st
  /\ forall i, fv_get (tempBuffer st) i
               = if (0 <=? i) && (i <? tempRecordPosition st)
                 then nth (Z.to_nat i) xs F32.zero else F32.zero.

Lemma holds_view xs st st' : take_view st' = take_view st -> holds xs st -> holds xs st'.
Proof.
  unfold take_view, holds. intros H. injection H as _ -> -> _ -> ->. auto.
Qed.

Lemma size_snoc {A} (l : list A) x : size (l ++ [x]) = size l + 1.
Proof. unfold size. rewrite length_app. simpl. lia. Qed.

Lemma record_sample_tempBuffer lm x st :
  isRecording st && (tempRecordPosition st <? LOOP_BUFFER_SIZE) = true ->
  tempBuffer (record_sample lm x st) = fv_set (tempBuffer st) (tempRecordPosition st) x.
Proof. unfold record_sample. intros ->. eng_cases; reflexivity. Qed.

Lemma record_sample_holds lm xs x st :
  holds xs st -> holds (xs ++ [x]) (record_sample lm x st).
Proof.
  intros (Hr & Hp & Hl & Hb).
  assert (0 <= size xs) as Hnn by (unfold size; lia).
  destruct (tempRecordPosition st <? LOOP_BUFFER_SIZE) eqn:E.
  - assert (isRecording st && (tempRecordPosition st <? LOOP_BUFFER_SIZE) = true) as E'
      by now rewrite Hr, E.
    destruct (record_sample_temp lm x st E') as (_ & Hp' & Hl' & _).
    destruct (record_sample_frame lm x st) as (_ & _ & Hr' & _).
    unfold holds. rewrite Hp', Hl', Hr', (record_sample_tempBuffer lm x st E'), size_snoc.
    assert (tempRecordPosition st = size xs) as Hps by lia.
    repeat split; auto; try lia.
    intros i. rewrite fv_get_set, Hb, Hps.
    destruct (Z.eqb_spec (size xs) i) as [<-|Hne].
    + replace ((0 <=? size xs) && (size xs <? size xs + 1)) with true by lia.
      unfold size. rewrite Nat2Z.id, nth_middle. reflexivity.
    + destruct (Z.leb_spec 0 i), (Z.ltb_spec i (size xs)), (Z.ltb_spec i (size xs + 1));
        simpl; try lia; try reflexivity.
      rewrite app_nth1; [reflexivity|]. unfold size in *. lia.
  - rewrite record_sample_idle by now rewrite Hr, E.
    unfold holds. rewrite size_snoc. repeat split; auto; try lia.
    intros i. rewrite Hb.
    destruct ((0 <=? i) && (i <? tempRecordPosition st)) eqn:Ei; [|reflexivity].
    rewrite app_nth1; [reflexivity|]. unfold size in *. lia.
Qed.

Lemma process_sample_take lm st x :
  take_view (fst (process_sample lm st x)) = take_view (record_sample lm x st).
Proof.
  destruct (process_sample_bufs lm st x) as [_ Hb].
  pose proof (process_sample_view lm st x) as Hv.
  unfold detector_view in Hv. injection Hv as _ _ H1 H2 H3 H4 H5 _ _.
  unfold take_view. congruence.
Qed.

Lemma process_holds lm inputL : forall xs st,
  holds xs st -> holds (xs ++ inputL) (fst (process lm st inputL)).
Proof.
  induction inputL as [|x rest IH]; intros xs st H.
  - now rewrite app_nil_r.
  - rewrite process_step.
    assert (holds (xs ++ [x]) (fst (process_sample lm st x))) as H1.
    { eapply holds_view; [apply process_sample_take|now apply record_sample_holds]. }
    destruct (process_sample lm st x) as [st1 o]. simpl in H1.
    specialize (IH (xs ++ [x]) st1 H1).
    destruct (process lm st1 rest) as [st2 os]. simpl in *.
    now rewrite <- app_assoc in IH.
Qed.

Lemma holds_isRecording xs st : holds xs st -> isRecording st = true.
Proof. now intros (H & _). Qed.

Lemma run_holds lm body : forall xs st,
  forallb keeps_recording body = true ->
  holds xs st -> holds (xs ++ rendered body) (run lm st body).
Proof.
  induction body as [|o body IH]; intros xs st Hk H.
  - simpl. now rewrite app_nil_r.
  - simpl in Hk. apply andb_prop in Hk as [Ho Hk].
    change (run lm st (o :: body)) with (run lm (apply_op lm st o) body).
    pose proof (apply_op_take lm st o (holds_isRecording _ _ H) Ho) as Ht.
    destruct o; simpl rendered; simpl in Ht;
      try (apply IH; [exact Hk|eapply holds_view; [exact Ht|exact H]]).
    rewrite app_assoc. apply IH; [exact Hk|]. now apply process_holds.
Qed.

Lemma setRecording_start_holds lm st :
  isRecording st = false -> holds [] (setRecording lm true st).
Proof.
  intros Hr. unfold setRecording. rewrite Hr. simpl. unfold holds. eng_simpl.
  repeat split; try reflexivity.
  intros i. unfold fv_get. simpl. rewrite lookup_empty. simpl.
  destruct (_ && _); [destruct (Z.to_nat i)|]; reflexivity.
Qed.

Lemma setRecording_stop_loop lm st :
  isRecording st = true ->
  recordedLength (setRecording lm false st) = tempRecordedLength st
  /\ forall i, fv_get (loopBuffer (setRecording lm false st)) i
               = fv_get (tempBuffer st) i.
Proof.
  intros H. unfold setRecording. rewrite H. simpl andb. cbv iota.
  match goal with
  | |- context [if 1 <? _ then redistributeVoices ?s else _] => set (S := s)
  end.
  assert (recordedLength S = tempRecordedLength st
          /\ forall i, fv_get (loopBuffer S) i = fv_get (tempBuffer st) i) as HS.
  { subst S. eng_simpl. split; reflexivity. }
  clearbody S.
  destruct (1 <? numVoices S); eng_simpl; [|exact HS].
  pose proof (redistributeVoices_bufs S) as Hb.
  pose proof (redistributeVoices_view S) as Hv.
  unfold bufs in Hb. unfold detector_view in Hv.
  injection Hb as -> _. injection Hv as _ -> _ _ _ _ _ _ _. exact HS.
Qed.

(** X7.  A take is what was rendered while it ran.  From a start to a stop
    of the recording, with any calls but [setRecording] and [clear] in
    between, the commit sets the recorded length to the number of samples
    rendered in between, capped at the buffer's 2880000, and the loop
    buffer holds these samples in order, and zeros after them. *)
Theorem X7_commit_stores_the_rendered_samples :
  forall (lm : Libm) (st : Engine) (body : list Op),
    isRecording st = false ->
    forallb keeps_recording body = true ->
    let st' := run lm st (OpSetRecording true :: body ++ [OpSetRecording false]) in
    recordedLength st' = Z.min (size (rendered body)) LOOP_BUFFER_SIZE
    /\ forall i, fv_get (loopBuffer st') i
                 = if (0 <=? i) && (i <? recordedLength st')
                   then nth (Z.to_nat i) (rendered body) F32.zero else F32.zero.
Proof.
  intros lm st body Hr Hk. cbv zeta.
  pose proof (run_holds lm body [] _ Hk (setRecording_start_holds lm st Hr))
    as (Hr2 & Hp & Hl & Hb).
  unfold run. simpl fold_left. rewrite fold_left_app. simpl fold_left.
  fold (run lm (setRecording lm true st) body).
  set (s2 := run lm (setRecording lm true st) body) in *.
  destruct (setRecording_stop_loop lm s2 Hr2) as [Hlen Hbuf].
  simpl app in *. rewrite Hlen, Hl, Hp. split; [reflexivity|].
  intros i. rewrite Hbuf, Hb, Hp. reflexivity.
Qed.

Lemma X7_witness :
  for_every_libm (fun lm =>
    let st := Alien4AudioEngine lm sr100 g_const in
    let body := [OpProcess (onset 3); OpSetMix F32.c0_5; OpProcess [F32.c0_25]] in
    let st' := run lm st (OpSetRecording true :: body ++ [OpSetRecording false]) in
    isRecording st = false
    /\ forallb keeps_recording body = true
    /\ recordedLength st' = Z.min (size (rendered body)) LOOP_BUFFER_SIZE
    /\ forall i, fv_get (loopBuffer st') i
                 = if (0 <=? i) && (i <? recordedLength st')
                   then nth (Z.to_nat i) (rendered body) F32.zero else F32.zero).
Proof.
  intros lm. cbv zeta. split; [reflexivity|]. split; [reflexivity|].
  apply (X7_commit_stores_the_rendered_samples lm); reflexivity.
Defined.

(** ** A take without an onset *)

(** Recording, with an empty staging list. *)
Definition quiet (st : Engine) : Prop := isRecording st = true /\ tempSlices st = [].

Lemma quiet_view st st' : take_view st' = take_view st -> quiet st -> quiet st'.
Proof. unfold take_view, quiet. intros H. injection H as -> _ _ _ -> _. auto. Qed.

Lemma record_sample_quiet lm x st :
  F32.ge (F32.abs x) F32.c0_5 = false -> quiet st -> quiet (record_sample lm x st).
Proof.
  intros Hx [Hr Ht].
  destruct (isRecording st && (tempRecordPosition st <? LOOP_BUFFER_SIZE)) eqn:E.
  - destruct (record_sample_temp lm x st E) as (Hs & _).
    destruct (record_sample_frame lm x st) as (_ & _ & Hr' & _).
    split; [congruence|]. rewrite Hs, Hx, andb_false_r, Ht. reflexivity.
  - rewrite record_sample_idle by exact E. now split.
Qed.

Lemma process_quiet lm inputL : forall st,
  Forall (fun x => F32.ge (F32.abs x) F32.c0_5 = false) inputL ->
  quiet st -> quiet (fst (process lm st inputL)).
Proof.
  induction inputL as [|x rest IH]; intros st Hq H; [exact H|].
  inversion Hq as [|? ? Hx Hrest]; subst. rewrite process_step.
  assert (quiet (fst (process_sample lm st x))) as H1.
  { eapply quiet_view; [apply process_sample_take|now apply record_sample_quiet]. }
  destruct (process_sample lm st x) as [st1 o]. simpl in H1.
  specialize (IH st1 Hrest H1). now destruct (process lm st1 rest).
Qed.

Lemma run_quiet lm body : forall st,
  forallb keeps_recording body = true ->
  Forall (fun x => F32.ge (F32.abs x) F32.c0_5 = false) (rendered body) ->
  quiet st -> quiet (run lm st body).
Proof.
  induction body as [|o body IH]; intros st Hk Hq H; [exact H|].
  simpl in Hk. apply andb_prop in Hk as [Ho Hk].
  change (run lm st (o :: body)) with (run lm (apply_op lm st o) body).
  pose proof (apply_op_take lm st o (proj1 H) Ho) as Ht.
  destruct o; simpl rendered in Hq; simpl in Ht;
    try (apply IH; [exact Hk|exact Hq|eapply quiet_view; [exact Ht|exact H]]).
  apply Forall_app in Hq as [Hq1 Hq2].
  apply IH; [exact Hk|exact Hq2|]. now apply process_quiet.
Qed.

(** X8.  A take in which no rendered sample reaches the threshold 0.5 in
    absolute value (a NaN does not) commits an empty slice list, whatever
    its length and the minimum slice time. *)
Theorem X8_take_below_threshold_commits_no_slice :
  forall (lm : Libm) (st : Engine) (body : list Op),
    isRecording st = false ->
    forallb keeps_recording body = true ->
    Forall (fun x => F32.ge (F32.abs x) F32.c0_5 = false) (rendered body) ->
    getNumSlices
      (run lm st (OpSetRecording true :: body ++ [OpSetRecording false])) = 0.
Proof.
  intros lm st body Hr Hk Hq.
  assert (quiet (setRecording lm true st)) as H0.
  { pose proof (setRecording_start lm st Hr) as Hv. unfold detector_view in Hv.
    injection Hv as _ _ Ht _ _ _ Hrr _ _. now split. }
  pose proof (run_quiet lm body _ Hk Hq H0) as [Hr2 Ht2].
  unfold run. simpl fold_left. rewrite fold_left_app. simpl fold_left.
  fold (run lm (setRecording lm true st) body).
  set (s2 := run lm (setRecording lm true st) body) in *.
  pose proof (setRecording_stop lm s2 Hr2) as Hv. unfold detector_view in Hv.
  simpl in Hv. injection Hv as Hsl _ _ _ _ _ _ _ _.
  unfold getNumSlices. rewrite Hsl, Ht2. reflexivity.
Qed.

Lemma X8_witness :
  for_every_libm (fun lm =>
    let st := Alien4AudioEngine lm sr100 g_const in
    let body := [OpProcess [F32.c0_25; F32.nan; F32.opp F32.c0_4];
                 OpSetMinSliceTime F32.zero; OpProcess [F32.c0_3]] in
    isRecording st = false
    /\ forallb keeps_recording body = true
    /\ Forall (fun x => F32.ge (F32.abs x) F32.c0_5 = false) (rendered body)
    /\ getNumSlices
         (run lm st (OpSetRecording true :: body ++ [OpSetRecording false])) = 0).
Proof.
  intros lm. cbv zeta.
  assert (Forall (fun x => F32.ge (F32.abs x) F32.c0_5 = false)
                 [F32.c0_25; F32.nan; F32.opp F32.c0_4; F32.c0_3]) as Hq
    by (repeat constructor).
  split; [reflexivity|]. split; [reflexivity|]. split; [exact Hq|].
  apply (X8_take_below_threshold_commits_no_slice lm); [reflexivity|reflexivity|exact Hq].
Defined.

(** ** The incremental detector against the batch detector *)

Lemma rescan_iter_record Q threshold m buf l a pos :
  in_progress Q pos l ->
  rescan_iter threshold m buf (l, a) pos
  = (track_peak (F32.abs (fv_get buf pos))
       (if F32.lt a threshold && F32.ge (F32.abs (fv_get buf pos)) threshold
        then record_crossing m pos l else l),
     F32.abs (fv_get buf pos)).
Proof.
  intros H. unfold rescan_iter, record_crossing.
  destruct (F32.lt a threshold && _); [|reflexivity].
  destruct H as [->|(cl & o & -> & He & Ha & _)]; [reflexivity|].
  now rewrite last_snoc, Ha, back_open_snoc by auto.
Qed.

(** The batch loop reads the buffer at the positions it visits only. *)
Lemma rescan_loop_ext threshold m b b' (l : list Z) : forall acc,
  (forall i, i ∈ l -> fv_get b i = fv_get b' i) ->
  fold_left (rescan_iter threshold m b) l acc
  = fold_left (rescan_iter threshold m b') l acc.
Proof.
  induction l as [|p l IH]; intros acc H; [reflexivity|]. simpl.
  assert (rescan_iter threshold m b acc p = rescan_iter threshold m b' acc p) as ->.
  { unfold rescan_iter. destruct acc as [sl a]. rewrite (H p) by left. reflexivity. }
  apply IH. intros i Hi. apply H. now right.
Qed.

Lemma detect_slices_ext threshold m b b' len :
  (forall i, 0 <= i < len -> fv_get b i = fv_get b' i) ->
  detect_slices threshold m b len = detect_slices threshold m b' len.
Proof.
  intros H. unfold detect_slices.
  rewrite (rescan_loop_ext threshold m b b'); [reflexivity|].
  intros i Hi. apply elem_of_seqZ in Hi. apply H. lia.
Qed.

Section Tracking.
Variable lm : Libm.

(** While a take runs with [minSliceSamples = m], the staging list and the
    last amplitude are what the batch loop computes over the samples
    staged so far. *)
Definition tracking (m : Z) (st : Engine) : Prop :=
  armed lm m st
  /\ (tempSlices st, tempLastAmplitude st)
     = fold_left (rescan_iter F32.c0_5 m (tempBuffer st))
                 (seqZ 0 (tempRecordPosition st)) ([], F32.zero).

Lemma tracking_view m st st' :
  take_view st' = take_view st -> armed lm m st' -> tracking m st -> tracking m st'.
Proof.
  unfold take_view, tracking. intros H Ha [_ Hf].
  injection H as -> -> _ -> _ ->. auto.
Qed.

Lemma record_sample_tracking m x st :
  tracking m st -> tracking m (record_sample lm x st).
Proof.
  intros [Ha Hf]. split; [now apply armed_record_sample|].
  destruct Ha as (Hr & Hm & HT).
  destruct (tempRecordPosition st <? LOOP_BUFFER_SIZE) eqn:E.
  - assert (isRecording st && (tempRecordPosition st <? LOOP_BUFFER_SIZE) = true) as E'
      by now rewrite Hr, E.
    destruct (record_sample_temp lm x st E') as (Hs & Hp & _ & Hl).
    destruct (HT Hr) as (Hip & _ & Hpos).
    rewrite Hs, Hp, Hl, (record_sample_tempBuffer lm x st E').
    rewrite (seqZ_app 0 (tempRecordPosition st) 1 Hpos) by (clear; lia).
    change (seqZ (0 + tempRecordPosition st) 1) with [tempRecordPosition st].
    rewrite fold_left_app.
    rewrite (rescan_loop_ext _ _ _ (tempBuffer st) (seqZ 0 (tempRecordPosition st))).
    2:{ intros i Hi. apply elem_of_seqZ in Hi. rewrite fv_get_set.
        destruct (Z.eqb_spec (tempRecordPosition st) i); [lia|reflexivity]. }
    rewrite <- Hf. cbn [fold_left].
    rewrite (rescan_iter_record _ _ _ _ _ _ _ Hip).
    rewrite fv_get_set, Z.eqb_refl, Hm. reflexivity.
  - rewrite record_sample_idle by now rewrite Hr, E. exact Hf.
Qed.

Lemma apply_op_tracking m st o :
  keeps_recording_parameters o = true -> tracking m st -> tracking m (apply_op lm st o).
Proof.
  intros Hk H.
  assert (keeps_recording o = true) as Hk' by (destruct o; auto).
  pose proof (armed_apply_op lm m st o Hk (proj1 H)) as Ha.
  pose proof (apply_op_take lm st o (proj1 (proj1 H)) Hk') as Ht.
  destruct o; try (now apply (tracking_view m st)).
  simpl. apply (process_keeps lm (tracking m)); [|exact H].
  intros s x Hs.
  pose proof (record_sample_tracking m x s Hs) as H1.
  eapply tracking_view; [apply process_sample_take| |exact H1].
  eapply armed_view; [apply process_sample_view|exact (proj1 H1)].
Qed.

Lemma run_tracking m body : forall st,
  forallb keeps_recording_parameters body = true ->
  tracking m st -> tracking m (run lm st body).
Proof.
  induction body as [|o body IH]; intros st Hk H; [exact H|].
  simpl in Hk. apply andb_prop in Hk as [Ho Hk].
  change (run lm st (o :: body)) with (run lm (apply_op lm st o) body).
  apply IH; [exact Hk|now apply apply_op_tracking].
Qed.

Lemma commit_is_batch st body :
  isRecording st = false ->
  forallb keeps_recording_parameters body = true ->
  let st' := run lm st (OpSetRecording true :: body ++ [OpSetRecording false]) in
  slices st' = detect_slices F32.c0_5 (cur_minSliceSamples lm st')
                             (loopBuffer st') (recordedLength st').
Proof.
  intros Hr Hk.
  set (m := cur_minSliceSamples lm st).
  assert (tracking m (setRecording lm true st)) as H1.
  { pose proof (setRecording_start lm st Hr) as Hv. unfold detector_view in Hv.
    injection Hv as _ _ Ht Hp Hl Ha Hrr Hkn Hs. split; [split; [|split]|].
    - exact Hrr.
    - unfold m, cur_minSliceSamples, minSliceSamples_of. now rewrite Hkn, Hs.
    - unfold TInv. rewrite Ht, Hp, Hl. intros _. split; [now left|lia].
    - rewrite Ht, Hp, Ha. reflexivity. }
  pose proof (run_tracking m body _ Hk H1) as ((Hr2 & Hm2 & HT2) & Hf).
  cbv zeta. unfold run. simpl fold_left. rewrite fold_left_app. simpl fold_left.
  fold (run lm (setRecording lm true st) body).
  set (s2 := run lm (setRecording lm true st) body) in *.
  pose proof (setRecording_stop lm s2 Hr2) as Hv. unfold detector_view in Hv.
  simpl in Hv. injection Hv as Hsl Hrl _ _ _ _ _ Hkn Hs.
  destruct (setRecording_stop_loop lm s2 Hr2) as [_ Hbuf].
  assert (cur_minSliceSamples lm (setRecording lm false s2) = m) as ->.
  { unfold cur_minSliceSamples, minSliceSamples_of in *. now rewrite Hkn, Hs. }
  rewrite Hsl, Hrl, Hm2.
  rewrite (detect_slices_ext _ _ _ (tempBuffer s2)) by (intros; apply Hbuf).
  destruct (HT2 Hr2) as (_ & Hlen & _).
  unfold detect_slices. rewrite Hlen, <- Hf. reflexivity.
Qed.

End Tracking.

(** X9.  The incremental detector of the render loop and the batch
    detector agree.  After a take during which the minimum-slice-time
    knob was not touched, the committed slice list is the list the batch
    detector computes from the committed buffer with threshold 0.5 and the
    knob's minimum length, so that [rescanSlices(0.5f, t)] with the knob's
    time [t], called right after the commit, leaves the list as it is. *)
Theorem X9_commit_agrees_with_batch_rescan :
  forall (lm : Libm) (st : Engine) (body : list Op),
    isRecording st = false ->
    forallb keeps_recording_parameters body = true ->
    let st' := run lm st (OpSetRecording true :: body ++ [OpSetRecording false]) in
    slices st' = detect_slices F32.c0_5 (cur_minSliceSamples lm st')
                               (loopBuffer st') (recordedLength st')
    /\ slices (rescanSlices F32.c0_5 (getMinSliceTime lm (minSliceTime st')) st')
       = slices st'.
Proof.
  intros lm st body Hr Hk. cbv zeta.
  pose proof (commit_is_batch lm st body Hr Hk) as H. cbv zeta in H.
  set (st' := run lm st (OpSetRecording true :: body ++ [OpSetRecording false])) in *.
  split; [exact H|].
  destruct (Z.le_gt_cases (recordedLength st') 0) as [Hle|Hgt].
  - now rewrite rescanSlices_idle.
  - pose proof (rescanSlices_view F32.c0_5 (getMinSliceTime lm (minSliceTime st')) st' Hgt)
      as Hv.
    unfold detector_view in Hv. injection Hv as Hs _. rewrite Hs. symmetry. exact H.
Qed.

Lemma X9_witness :
  for_every_libm (fun lm =>
    let st := setMinSliceTime lm k0_625 (Alien4AudioEngine lm sr100 g_const) in
    let body := [OpProcess (onset 199 ++ onset 199); OpSetScan F32.c0_5;
                 OpProcess (onset 99)] in
    let st' := run lm st (OpSetRecording true :: body ++ [OpSetRecording false]) in
    isRecording st = false
    /\ forallb keeps_recording_parameters body = true
    /\ slices st' = detect_slices F32.c0_5 (cur_minSliceSamples lm st')
                                  (loopBuffer st') (recordedLength st')
    /\ slices (rescanSlices F32.c0_5 (getMinSliceTime lm (minSliceTime st')) st')
       = slices st').
Proof.
  intros lm. cbv zeta. split; [reflexivity|]. split; [reflexivity|].
  apply (X9_commit_agrees_with_batch_rescan lm); reflexivity.
Defined.

(** ** The recording's bounds *)

(** The committed length fits the loop buffer, and so does the staging
    cursor while a take runs. *)
Definition BInv (st : Engine) : Prop :=
  0 <= recordedLength st <= LOOP_BUFFER_SIZE
  /\ (isRecording st = true -> tempRecordPosition st <= LOOP_BUFFER_SIZE).

Lemma BInv_view st st' : detector_view st' = detector_view st -> BInv st -> BInv st'.
Proof.
  unfold detector_view, BInv. intros H. injection H as _ -> _ -> _ _ -> _ _. auto.
Qed.

Lemma record_sample_BInv lm x st : BInv st -> BInv (record_sample lm x st).
Proof.
  intros [Hl Hp].
  destruct (isRecording st && (tempRecordPosition st <? LOOP_BUFFER_SIZE)) eqn:E.
  - destruct (record_sample_temp lm x st E) as (_ & Hp' & _).
    destruct (record_sample_frame lm x st) as (_ & Hr & _).
    unfold BInv. rewrite Hr, Hp'. split; [exact Hl|]. intros _.
    apply andb_prop in E as [_ E]. lia.
  - rewrite record_sample_idle by exact E. now split.
Qed.

Lemma apply_op_BInv lm st o :
  TInv (fun _ => True) st -> BInv st -> BInv (apply_op lm st o).
Proof.
  intros HT H.
  assert (forall st', detector_view st' = detector_view st -> BInv st') as Hframe.
  { intros st' Hv. eapply BInv_view; eauto. }
  destruct o; simpl; try (apply Hframe; reflexivity).
  - destruct (Bool.eqb rec (isRecording st)) eqn:E.
    { apply Bool.eqb_prop in E. now rewrite setRecording_noop. }
    destruct rec, (isRecording st) eqn:Hr; try discriminate.
    + pose proof (setRecording_start lm st Hr) as Hv. unfold detector_view in Hv.
      injection Hv as _ Hl _ Hp _ _ _ _ _.
      unfold BInv. rewrite Hl, Hp. split; [apply H|]. intros _. unfold LOOP_BUFFER_SIZE. lia.
    + pose proof (setRecording_stop lm st Hr) as Hv. unfold detector_view in Hv.
      simpl in Hv. injection Hv as _ Hl _ _ _ _ Hrr _ _.
      unfold BInv. rewrite Hl, Hrr. split; [|discriminate].
      destruct (HT Hr) as (_ & -> & Hpos). destruct H as [_ Hp]. specialize (Hp Hr). lia.
  - unfold setMinSliceTime.
    match goal with |- context [if ?c then _ else _] => destruct c end;
      [|exact H].
    eapply (BInv_view (rescanSlices F32.c0_5
                         (getMinSliceTime lm (F32.clamp time F32.zero F32.c1))
                         (set_minSliceTime (F32.clamp time F32.zero F32.c1) st))).
    { match goal with
      | |- detector_view (set_lastMinSliceTime _ (redistributeVoices ?s)) = _ =>
          change (detector_view (redistributeVoices s) = detector_view s)
      end. apply redistributeVoices_view. }
    destruct (Z.le_gt_cases (recordedLength st) 0) as [Hle|Hgt].
    + rewrite rescanSlices_idle by exact Hle. exact H.
    + pose proof (rescanSlices_view F32.c0_5
                    (getMinSliceTime lm (F32.clamp time F32.zero F32.c1))
                    (set_minSliceTime (F32.clamp time F32.zero F32.c1) st) Hgt) as Hv.
      unfold detector_view in Hv. eng_simpl in Hv.
      injection Hv as _ Hl _ Hp _ _ Hr _ _.
      unfold BInv. rewrite Hl, Hp, Hr. exact H.
  - apply Hframe, setScan_view.
  - apply Hframe, setPolyVoices_view.
  - destruct (Z.le_gt_cases (recordedLength st) 0) as [Hle|Hgt].
    + now rewrite rescanSlices_idle.
    + pose proof (rescanSlices_view threshold minSliceTimeSec st Hgt) as Hv.
      unfold detector_view in Hv. injection Hv as _ Hl _ Hp _ _ Hr _ _.
      unfold BInv. rewrite Hl, Hp, Hr. exact H.
  - apply Hframe, redistributeVoices_view.
  - apply (process_invariant lm BInv); auto.
    + intros s s'. apply BInv_view.
    + intros s x. apply record_sample_BInv.
  - unfold BInv, clear. eng_simpl. split; [unfold LOOP_BUFFER_SIZE; lia|discriminate].
Qed.

Lemma run_bounds lm ops : forall st,
  SInv (fun _ => True) st /\ TInv (fun _ => True) st /\ BInv st ->
  SInv (fun _ => True) (run lm st ops) /\ TInv (fun _ => True) (run lm st ops)
  /\ BInv (run lm st ops).
Proof.
  induction ops as [|o ops IH]; intros st H; [exact H|].
  change (run lm st (o :: ops)) with (run lm (apply_op lm st o) ops).
  apply IH. destruct H as (HS & HT & HB).
  destruct (apply_op_Inv lm st o (conj HS HT)) as [HS' HT'].
  split; [exact HS'|]. split; [exact HT'|]. now apply apply_op_BInv.
Qed.

(** X10.  After any sequence of public calls on a freshly constructed
    engine, the recorded length is between 0 and the loop buffer's 2880000
    samples, and every committed slice is active and lies inside the
    recording: [0 <= startSample <= endSample <= recordedLength - 1]. *)
Theorem X10_committed_slices_lie_inside_the_recording :
  forall (lm : Libm) (sr : float) (g : RandomEngine) (ops : list Op),
    let st := run lm (Alien4AudioEngine lm sr g) ops in
    0 <= recordedLength st <= LOOP_BUFFER_SIZE
    /\ Forall (fun s => active s = true
                        /\ 0 <= startSample s <= endSample s
                        /\ endSample s <= recordedLength st - 1)
              (slices st).
Proof.
  intros lm sr g ops. cbv zeta.
  destruct (run_bounds lm ops (Alien4AudioEngine lm sr g)) as (HS & _ & [HB _]).
  { destruct (Alien4AudioEngine_Inv lm sr g) as [HS HT].
    split; [exact HS|]. split; [exact HT|].
    split; [simpl; unfold LOOP_BUFFER_SIZE; lia|discriminate]. }
  split; [exact HB|].
  apply closed_seq_Forall in HS.
  eapply Forall_impl; [exact HS|]. simpl. intros s (Ha & H0 & Hse & He & _).
  repeat split; auto; lia.
Qed.

(** ** The first switch to several voices *)

(** The loop of [setPolyVoices] when there is no slice or one voice: every
    voice inherits the layer's cursor. *)
Definition inherit_iter (st : Engine) (i : Z) : Engine :=
  set_voices (<[ Z.to_nat i := inherit_voice st ]> (voices st)) st.

Lemma fold_inherit_spec (l : list Z) : forall st,
  Forall (fun i => 0 <= i) l ->
  let st' := fold_left inherit_iter l st in
  poly_frame st st'
  /\ forall (j : nat) (v : Voice.t),
       voices st' !! j = Some v ->
       (In (Z.of_nat j) l -> Voice.sliceIndex v = currentSliceIndex st)
       /\ (~ In (Z.of_nat j) l -> voices st !! j = Some v).
Proof.
  induction l as [|a l IH]; intros st Hl.
  - simpl. split; [unfold poly_frame; auto|]. intros j v Hv. split; [tauto|auto].
  - inversion Hl as [|? ? Ha Hl']; subst. cbn [fold_left]. cbv zeta.
    destruct (IH (inherit_iter st a) Hl') as ((Gs & Gr & Gc & Gn & Gl) & Hall).
    unfold inherit_iter in Gs, Gr, Gc, Gn, Gl. revert Gs Gr Gc Gn Gl. eng_simpl.
    rewrite length_insert. intros Gs Gr Gc Gn Gl.
    split; [unfold poly_frame; repeat split; assumption|].
    intros j v Hv. destruct (Hall j v Hv) as [Hin Hout].
    destruct (in_dec Z.eq_dec (Z.of_nat j) l) as [Hjl|Hjl].
    + split; [intros _; now apply Hin|]. simpl. tauto.
    + specialize (Hout Hjl). unfold inherit_iter in Hout. revert Hout. eng_simpl.
      intros Hout.
      destruct (Z.eq_dec a (Z.of_nat j)) as [->|Hne].
      * rewrite Nat2Z.id in Hout.
        apply list_lookup_insert_Some in Hout as [(_ & <- & _)|(Hc & _)]; [|lia].
        split; [reflexivity|]. simpl. tauto.
      * rewrite list_lookup_insert_ne in Hout by lia.
        split; [|auto]. simpl. intros [?|?]; [lia|tauto].
Qed.

(** A voice bound as the playback loop needs it: to index 0 when there is
    no slice, and otherwise to a slice of the list that is active and
    starts inside the recording. *)
Definition well_bound (st : Engine) (v : Voice.t) : Prop :=
  let t := Voice.sliceIndex v in
  (slices st = [] /\ t = 0)
  \/ (0 <= t < size (slices st)
      /\ active (slice_at (slices st) t) = true
      /\ startSample (slice_at (slices st) t) < recordedLength st).

Lemma length_resize_to n (l : list Voice.t) :
  0 <= n -> Z.of_nat (length (resize_voices n l)) = n.
Proof.
  intros Hn. unfold resize_voices.
  rewrite length_app, length_take, length_replicate. lia.
Qed.

(** [setPolyVoices(n)] on one voice, [n >= 2], the cursor in range and every
    slice active and starting inside the recording. *)
Lemma setPolyVoices_from_one n st :
  numVoices st = 1 -> 2 <= n -> current_in_range st ->
  Forall (fun s => active s = true /\ startSample s < recordedLength st) (slices st) ->
  let st' := setPolyVoices n st in
  numVoices st' = Z.min n 8
  /\ size (voices st') = Z.min n 8
  /\ slices st' = slices st /\ recordedLength st' = recordedLength st
  /\ Forall (well_bound st') (voices st').
Proof.
  intros H1 Hn Hcur Hsl. unfold setPolyVoices. rewrite H1.
  assert (clampZ n 1 8 = Z.min n 8) as Hc by (unfold clampZ; lia).
  rewrite Hc.
  assert (negb (Z.min n 8 =? 1) = true) as ->.
  { apply negb_true_iff, Z.eqb_neq. lia. }
  cbv iota beta zeta. eng_simpl.
  set (st1 := set_voices _ _).
  assert (Z.of_nat (length (voices st1)) = Z.min n 8) as Hlen.
  { subst st1. eng_simpl. apply length_resize_to. lia. }
  assert (slices st1 = slices st /\ recordedLength st1 = recordedLength st
          /\ currentSliceIndex st1 = currentSliceIndex st
          /\ numVoices st1 = Z.min n 8) as (Es & Er & Ec & En) by (subst st1; auto).
  clearbody st1.
  assert (Forall (fun i => 0 <= i) (seqZ 0 (Z.min n 8))) as Hseq
    by (apply Forall_seqZ; lia).
  assert (forall t, valid_or_current (slices st) (recordedLength st)
                      (currentSliceIndex st) t ->
                    0 < size (slices st) ->
                    0 <= t < size (slices st)
                    /\ active (slice_at (slices st) t) = true
                    /\ startSample (slice_at (slices st) t) < recordedLength st)
    as Hvalid.
  { intros t [Ht| ->] Hpos; [exact Ht|].
    destruct Hcur as [[Hnil _]|Hin]; [rewrite Hnil in Hpos; unfold size in Hpos; cbn in Hpos; lia|].
    split; [exact Hin|].
    unfold slice_at.
    destruct (lookup_lt_is_Some_2 (slices st) (Z.to_nat (currentSliceIndex st)))
      as [s Hs]; [unfold size in Hin; lia|].
    rewrite Hs. cbn [default].
    rewrite Forall_forall in Hsl. apply Hsl.
    eapply list_elem_of_lookup_2. exact Hs. }
  destruct (size (slices st) =? 0) eqn:E0.
  - (* no slice *)
    apply Z.eqb_eq, size_nil_iff in E0. cbn [negb andb].
    change (fold_left _ (seqZ 0 (Z.min n 8)) st1)
      with (fold_left inherit_iter (seqZ 0 (Z.min n 8)) st1).
    destruct (fold_inherit_spec (seqZ 0 (Z.min n 8)) st1 Hseq)
      as ((Fs & Fr & Fc & Fn & Fl) & Hall).
    rewrite Fn, Fs, Fr. unfold size. rewrite Fl.
    repeat split; try assumption.
    apply Forall_forall. intros v Hv.
    apply list_elem_of_lookup_1 in Hv as [j Hj].
    destruct (Hall j v Hj) as [Hin _]. left. cbv zeta. rewrite Fs, Es.
    split; [exact E0|]. rewrite Hin, Ec.
    + destruct Hcur as [[_ H0]|Hin']; [exact H0|].
      rewrite E0 in Hin'. unfold size in Hin'. cbn in Hin'. lia.
    + apply list_elem_of_In, elem_of_seqZ.
      apply lookup_lt_Some in Hj. rewrite Fl in Hj. lia.
  - (* slices *)
    apply Z.eqb_neq in E0.
    assert (0 < size (slices st)) as Hpos by (unfold size in *; lia).
    assert ((1 <? Z.min n 8) = true) as -> by (apply Z.ltb_lt; lia).
    cbn [negb andb].
    destruct (fold_poly_iter_spec (seqZ 0 (Z.min n 8)) st1 Hseq)
      as ((Fs & Fr & Fc & Fn & Fl) & Hall); [now rewrite Es|].
    rewrite Fn, Fs, Fr. unfold size. rewrite Fl.
    repeat split; try assumption.
    apply Forall_forall. intros v Hv.
    apply list_elem_of_lookup_1 in Hv as [j Hj].
    destruct (Hall j v Hj) as [Hin _]. right. cbv zeta. rewrite Fs, Fr, Es, Er.
    apply Hvalid; [|exact Hpos].
    rewrite <- Es, <- Er, <- Ec. apply Hin.
    apply list_elem_of_In, elem_of_seqZ.
    apply lookup_lt_Some in Hj. rewrite Fl in Hj. lia.
Qed.

(** X11.  The first switch to several voices is safe: after a session that
    never asked for more than one voice, [setPolyVoices(n)] with [n >= 2]
    leaves [min(n, 8)] voices, each bound to index 0 when there is no
    committed slice and otherwise to a slice of the committed list that is
    active and starts inside the recording. *)
Theorem X11_first_switch_to_several_voices_binds_valid_slices :
  forall (lm : Libm) (sr : float) (g : RandomEngine) (ops : list Op) (n : Z),
    forallb single_voice ops = true -> 2 <= n ->
    let st := setPolyVoices n (run lm (Alien4AudioEngine lm sr g) ops) in
    getNumVoices st = Z.min n 8
    /\ size (voices st) = Z.min n 8
    /\ Forall (well_bound st) (voices st).
Proof.
  intros lm sr g ops n Hops Hn. cbv zeta.
  destruct (run_CInv lm ops (Alien4AudioEngine lm sr g) Hops) as [H1 Hc].
  { split; [reflexivity|now left]. }
  destruct (run_bounds lm ops (Alien4AudioEngine lm sr g)) as (HS & _ & [HB _]).
  { destruct (Alien4AudioEngine_Inv lm sr g) as [HS HT].
    split; [exact HS|]. split; [exact HT|].
    split; [simpl; unfold LOOP_BUFFER_SIZE; lia|discriminate]. }
  apply closed_seq_Forall in HS.
  destruct (setPolyVoices_from_one n _ H1 Hn Hc) as (A & B & _ & _ & C).
  { eapply Forall_impl; [exact HS|]. simpl. intros s (Ha & H0 & Hse & He & _).
    split; [exact Ha|lia]. }
  unfold getNumVoices. auto.
Qed.

(** Two onsets recorded and committed with one voice, then four voices. *)
Lemma X11_witness :
  for_every_libm (fun lm =>
    let ops := [OpSetMinSliceTime k0_625; OpSetRecording true;
                OpProcess (onset 199 ++ onset 199); OpSetRecording false;
                OpSetScan F32.c1; OpProcess [F32.zero]] in
    let st := setPolyVoices 4 (run lm (Alien4AudioEngine lm sr100 g_const) ops) in
    forallb single_voice ops = true /\ 2 <= 4
    /\ getNumVoices st = 4 /\ size (voices st) = 4
    /\ Forall (well_bound st) (voices st)).
Proof.
  intros lm. cbv zeta. split; [reflexivity|]. split; [lia|].
  apply (X11_first_switch_to_several_voices_binds_valid_slices lm sr100 g_const _ 4);
    [reflexivity|lia].
Defined.

(** ** Rendering in blocks *)

Lemma process_app lm a : forall b st,
  process lm st (a ++ b)
  = let '(st1, o1) := process lm st a in
    let '(st2, o2) := process lm st1 b in (st2, o1 ++ o2).
Proof.
  induction a as [|x a IH]; intros b st.
  - cbn [app process]. now destruct (process lm st b).
  - cbn [app]. rewrite !process_step.
    destruct (process_sample lm st x) as [s1 o]. rewrite IH.
    destruct (process lm s1 a) as [s2 os]. now destruct (process lm s2 b).
Qed.

Lemma reverb_loop_step fb dc rs l rt rest r :
  Reverb.process_loop fb dc rs ((l, rt) :: rest) r
  = let '(r1, o) := Reverb.process_iter fb dc rs l rt r in
    let '(r2, os) := Reverb.process_loop fb dc rs rest r1 in (r2, o :: os).
Proof. reflexivity. Qed.

Lemma reverb_loop_app fb dc rs a : forall b r,
  Reverb.process_loop fb dc rs (a ++ b) r
  = let '(r1, o1) := Reverb.process_loop fb dc rs a r in
    let '(r2, o2) := Reverb.process_loop fb dc rs b r1 in (r2, o1 ++ o2).
Proof.
  induction a as [|[l rt] a IH]; intros b r.
  - cbn [app Reverb.process_loop]. now destruct (Reverb.process_loop fb dc rs b r).
  - cbn [app]. rewrite !reverb_loop_step.
    destruct (Reverb.process_iter fb dc rs l rt r) as [r1 o]. rewrite IH.
    destruct (Reverb.process_loop fb dc rs a r1) as [r2 os].
    now destruct (Reverb.process_loop fb dc rs b r2).
Qed.

Lemma reverb_iter_params fb dc rs l rt r :
  let r' := fst (Reverb.process_iter fb dc rs l rt r) in
  Reverb.roomSize r' = Reverb.roomSize r /\ Reverb.damping r' = Reverb.damping r
  /\ Reverb.decay r' = Reverb.decay r /\ Reverb.sampleRate r' = Reverb.sampleRate r.
Proof.
  cbv zeta. unfold Reverb.process_iter.
  destruct (Reverb.comb_bank _ _ _ (Reverb.combBuffersL r) _ _) as [[[sumL cbL] ciL] clL].
  destruct (Reverb.comb_bank _ _ _ (Reverb.combBuffersR r) _ _) as [[[sumR cbR] ciR] clR].
  destruct (Reverb.diffuse _ _ _ _) as [[[dL dR] ab] ai].
  cbn [fst Reverb.roomSize Reverb.damping Reverb.decay Reverb.sampleRate]. auto.
Qed.

Lemma reverb_loop_params fb dc rs ins : forall r,
  let r' := fst (Reverb.process_loop fb dc rs ins r) in
  Reverb.roomSize r' = Reverb.roomSize r /\ Reverb.damping r' = Reverb.damping r
  /\ Reverb.decay r' = Reverb.decay r /\ Reverb.sampleRate r' = Reverb.sampleRate r.
Proof.
  induction ins as [|[l rt] ins IH]; intros r; [cbn; auto|].
  cbv zeta. rewrite reverb_loop_step.
  pose proof (reverb_iter_params fb dc rs l rt r) as H1. cbv zeta in H1.
  destruct (Reverb.process_iter fb dc rs l rt r) as [r1 o]. cbn [fst] in H1.
  specialize (IH r1). cbv zeta in IH.
  destruct (Reverb.process_loop fb dc rs ins r1) as [r2 os]. cbn [fst] in *.
  destruct H1 as (<- & <- & <- & <-). exact IH.
Qed.

Lemma delay_loop_step dl dr l rt rest d :
  Delay.process_loop dl dr ((l, rt) :: rest) d
  = let '(d1, o) := Delay.process_iter dl dr l rt d in
    let '(d2, os) := Delay.process_loop dl dr rest d1 in (d2, o :: os).
Proof. reflexivity. Qed.

Lemma delay_loop_app dl dr a : forall b d,
  Delay.process_loop dl dr (a ++ b) d
  = let '(d1, o1) := Delay.process_loop dl dr a d in
    let '(d2, o2) := Delay.process_loop dl dr b d1 in (d2, o1 ++ o2).
Proof.
  induction a as [|[l rt] a IH]; intros b d.
  - cbn [app Delay.process_loop]. now destruct (Delay.process_loop dl dr b d).
  - cbn [app]. rewrite !delay_loop_step.
    destruct (Delay.process_iter dl dr l rt d) as [d1 o]. rewrite IH.
    destruct (Delay.process_loop dl dr a d1) as [d2 os].
    now destruct (Delay.process_loop dl dr b d2).
Qed.

Lemma delay_loop_params dl dr ins : forall d,
  let d' := fst (Delay.process_loop dl dr ins d) in
  Delay.delayTimeL d' = Delay.delayTimeL d /\ Delay.delayTimeR d' = Delay.delayTimeR d
  /\ Delay.sampleRate d' = Delay.sampleRate d /\ Delay.bufferSize d' = Delay.bufferSize d
  /\ Delay.feedback d' = Delay.feedback d.
Proof.
  induction ins as [|[l rt] ins IH]; intros d; [cbn; auto 10|].
  cbv zeta. rewrite delay_loop_step.
  specialize (IH (fst (Delay.process_iter dl dr l rt d))). cbv zeta in IH.
  destruct (Delay.process_iter dl dr l rt d) as [d1 o] eqn:E.
  assert (Delay.delayTimeL d1 = Delay.delayTimeL d /\ Delay.delayTimeR d1 = Delay.delayTimeR d
          /\ Delay.sampleRate d1 = Delay.sampleRate d
          /\ Delay.bufferSize d1 = Delay.bufferSize d
          /\ Delay.feedback d1 = Delay.feedback d) as (H1 & H2 & H3 & H4 & H5).
  { unfold Delay.process_iter in E. injection E as <- _. cbn. auto 10. }
  cbn [fst] in IH.
  destruct (Delay.process_loop dl dr ins d1) as [d2 os]. cbn [fst] in *.
  rewrite <- H1, <- H2, <- H3, <- H4, <- H5. exact IH.
Qed.

(** X12.  The size of the blocks does not matter: rendering [a ++ b] in
    one call of [process] leaves the state and writes the samples of
    a call on [a] followed by a call on [b], for the engine, for the
    reverb and for the delay (which recompute their per-call coefficients
    from parameters the loop does not change). *)
Theorem X12_rendering_is_independent_of_the_block_size :
  (forall (lm : Libm) (st : Engine) (a b : list float),
      process lm st (a ++ b)
      = let '(st1, o1) := process lm st a in
        let '(st2, o2) := process lm st1 b in (st2, o1 ++ o2))
  /\ (forall (r : Reverb.t) (a b : list (float * float)),
         Reverb.process (a ++ b) r
         = let '(r1, o1) := Reverb.process a r in
           let '(r2, o2) := Reverb.process b r1 in (r2, o1 ++ o2))
  /\ (forall (d : Delay.t) (a b : list (float * float)),
         Delay.process (a ++ b) d
         = let '(d1, o1) := Delay.process a d in
           let '(d2, o2) := Delay.process b d1 in (d2, o1 ++ o2)).
Proof.
  split; [|split].
  - intros lm st a b. apply process_app.
  - intros r a b. unfold Reverb.process. rewrite reverb_loop_app.
    match goal with
    | |- context [Reverb.process_loop ?fb ?dc ?rs a r] =>
        pose proof (reverb_loop_params fb dc rs a r) as H
    end.
    cbv zeta in H.
    destruct (Reverb.process_loop _ _ _ a r) as [r1 o1]. cbn [fst] in H.
    destruct H as (-> & -> & -> & _). reflexivity.
  - intros d a b. unfold Delay.process. rewrite delay_loop_app.
    match goal with
    | |- context [Delay.process_loop ?dl ?dr a d] =>
        pose proof (delay_loop_params dl dr a d) as H
    end.
    cbv zeta in H.
    destruct (Delay.process_loop _ _ a d) as [d1 o1]. cbn [fst] in H.
    destruct H as (-> & -> & -> & -> & _). reflexivity.
Qed.

(** ** The looping flag *)

Ltac if_cases :=
  repeat match goal with
         | |- context [if ?c then _ else _] =>
             lazymatch c with
             | context [if _ then _ else _] => fail
             | _ => destruct c
             end
         end.

Section Looping.
Variable lm : Libm.
Variable b : bool.

Lemma record_sample_looping x st :
  record_sample lm x (set_looping b st) = set_looping b (record_sample lm x st).
Proof. unfold record_sample, minSliceSamples_of. eng_cases; reflexivity. Qed.

Lemma scan_step_looping st :
  scan_step (set_looping b st) = set_looping b (scan_step st).
Proof. unfold scan_step. eng_cases; reflexivity. Qed.

Lemma play_single_looping st :
  play_single (set_looping b st)
  = (set_looping b (fst (fst (play_single st))), snd (fst (play_single st)),
     snd (play_single st)).
Proof.
  unfold play_single. eng_simpl.
  destruct (read_sample _ _ _ _) as [p s]. reflexivity.
Qed.

Lemma play_multi_looping st :
  play_multi (set_looping b st)
  = (set_looping b (fst (fst (play_multi st))), snd (fst (play_multi st)),
     snd (play_multi st)).
Proof.
  unfold play_multi. eng_simpl.
  change (play_voice (set_looping b st)) with (play_voice st).
  destruct (fold_left _ _ _) as [[vs l] r]. eng_cases; reflexivity.
Qed.

Lemma playback_looping st :
  playback (set_looping b st)
  = (set_looping b (fst (fst (playback st))), snd (fst (playback st)),
     snd (playback st)).
Proof.
  unfold playback. eng_simpl. destruct (0 <? recordedLength st); [|reflexivity].
  destruct (_ || _); [apply play_single_looping|apply play_multi_looping].
Qed.

Lemma effects_looping x l r st :
  effects lm x l r (set_looping b st)
  = (set_looping b (fst (fst (effects lm x l r st))), snd (fst (effects lm x l r st)),
     snd (effects lm x l r st)).
Proof.
  unfold effects. eng_simpl.
  destruct (EQ.process _ _ _ _) as [eq' [eqL eqR]]. eng_simpl.
  destruct (Delay.process _ _) as [delay' delayed]. eng_simpl.
  destruct (hd _ delayed) as [dL dR].
  destruct (Reverb.process _ _) as [reverb' reverbed]. eng_simpl.
  destruct (hd _ reverbed) as [rL rR]. reflexivity.
Qed.

Lemma process_sample_looping st x :
  process_sample lm (set_looping b st) x
  = (set_looping b (fst (process_sample lm st x)), snd (process_sample lm st x)).
Proof.
  unfold process_sample.
  rewrite record_sample_looping, scan_step_looping, playback_looping.
  destruct (playback (scan_step (record_sample lm x st))) as [[st1 loopL] loopR].
  cbn [fst snd]. rewrite effects_looping.
  destruct (effects lm x loopL loopR st1) as [[st2 fL] fR]. reflexivity.
Qed.

Lemma process_looping inputL : forall st,
  process lm (set_looping b st) inputL
  = (set_looping b (fst (process lm st inputL)), snd (process lm st inputL)).
Proof.
  induction inputL as [|x rest IH]; intros st; [reflexivity|].
  rewrite !process_step, process_sample_looping.
  destruct (process_sample lm st x) as [st1 o]. cbn [fst snd]. rewrite IH.
  destruct (process lm st1 rest) as [st2 os]. reflexivity.
Qed.

Lemma redistribute_iter_looping st i :
  redistribute_iter (set_looping b st) i = set_looping b (redistribute_iter st i).
Proof.
  unfold redistribute_iter. eng_simpl.
  change (redistribute_invalid (set_looping b st)) with (redistribute_invalid st).
  destruct (draw_int _ _) as [t0 g0].
  destruct (retry_draw _ _ _ _ _) as [t1 g1]. eng_simpl.
  change (redistribute_invalid (set_randomEngine g1 (set_looping b st)) t1)
    with (redistribute_invalid (set_randomEngine g1 st) t1).
  destruct (redistribute_invalid _ _); [reflexivity|]. eng_simpl.
  destruct (draw_real g1) as [spd g2]. reflexivity.
Qed.

Lemma fold_looping (f : Engine -> Z -> Engine) (l : list Z) :
  (forall st i, f (set_looping b st) i = set_looping b (f st i)) ->
  forall st, fold_left f l (set_looping b st) = set_looping b (fold_left f l st).
Proof.
  intros Hf. induction l as [|i l IH]; intros st; [reflexivity|].
  cbn [fold_left]. now rewrite Hf, IH.
Qed.

Lemma redistributeVoices_looping st :
  redistributeVoices (set_looping b st) = set_looping b (redistributeVoices st).
Proof.
  unfold redistributeVoices. eng_simpl. destruct (_ || _); [reflexivity|].
  apply fold_looping, redistribute_iter_looping.
Qed.

Lemma rescanSlices_looping threshold t st :
  rescanSlices threshold t (set_looping b st)
  = set_looping b (rescanSlices threshold t st).
Proof. unfold rescanSlices, minSliceSamples_of. eng_cases; reflexivity. Qed.

Lemma setRecording_looping rec st :
  setRecording lm rec (set_looping b st) = set_looping b (setRecording lm rec st).
Proof.
  unfold setRecording, minSliceSamples_of. eng_simpl.
  destruct (rec && negb (isRecording st)); [reflexivity|].
  destruct (negb rec && isRecording st); [|reflexivity].
  match goal with
  | |- context [set_looping b (set_isRecording false
                  (if 1 <? _ then redistributeVoices ?s else _))] => set (S := s)
  end.
  match goal with
  | |- context [if 1 <? _ then redistributeVoices ?s else _] =>
      change s with (set_looping b S)
  end.
  clearbody S. eng_simpl.
  destruct (1 <? _); [|reflexivity].
  now rewrite redistributeVoices_looping.
Qed.

Lemma setMinSliceTime_looping time st :
  setMinSliceTime lm time (set_looping b st)
  = set_looping b (setMinSliceTime lm time st).
Proof.
  unfold setMinSliceTime. eng_simpl.
  match goal with |- context [if ?c then _ else _] => destruct c end; [|reflexivity].
  change (set_minSliceTime (F32.clamp time F32.zero F32.c1) (set_looping b st))
    with (set_looping b (set_minSliceTime (F32.clamp time F32.zero F32.c1) st)).
  now rewrite rescanSlices_looping, redistributeVoices_looping.
Qed.

Lemma setScan_looping scan st :
  setScan scan (set_looping b st) = set_looping b (setScan scan st).
Proof.
  unfold setScan. eng_simpl.
  match goal with |- context [if ?c then _ else _] => destruct c end; [|reflexivity].
  change (set_scanValue (F32.clamp scan F32.zero F32.c1) (set_looping b st))
    with (set_looping b (set_scanValue (F32.clamp scan F32.zero F32.c1) st)).
  rewrite redistributeVoices_looping. reflexivity.
Qed.

Lemma poly_iter_looping st i :
  poly_iter (set_looping b st) i = set_looping b (poly_iter st i).
Proof.
  unfold poly_iter. destruct (i =? 0); [reflexivity|]. eng_simpl.
  change (poly_invalid (set_looping b st)) with (poly_invalid st).
  destruct (draw_int _ _) as [t0 g0].
  destruct (retry_draw _ _ _ _ _) as [t1 g1]. eng_simpl.
  change (poly_invalid (set_randomEngine g1 (set_looping b st)) t1)
    with (poly_invalid (set_randomEngine g1 st) t1).
  destruct (draw_real g1) as [spd g2]. reflexivity.
Qed.

Lemma setPolyVoices_looping n st :
  setPolyVoices n (set_looping b st) = set_looping b (setPolyVoices n st).
Proof.
  unfold setPolyVoices. eng_simpl. destruct (negb _); [|reflexivity].
  match goal with |- context [if ?c then _ else _] => destruct c end.
  - match goal with
    | |- _ = set_looping b (fold_left _ _ ?s) =>
        change (fold_left poly_iter (seqZ 0 (clampZ n 1 8)) (set_looping b s)
                = set_looping b (fold_left poly_iter (seqZ 0 (clampZ n 1 8)) s))
    end.
    apply fold_looping, poly_iter_looping.
  - match goal with
    | |- _ = set_looping b (fold_left ?f _ ?s) =>
        change (fold_left f (seqZ 0 (clampZ n 1 8)) (set_looping b s)
                = set_looping b (fold_left f (seqZ 0 (clampZ n 1 8)) s))
    end.
    apply fold_looping. reflexivity.
Qed.

(** Every call but [setLooping] itself commutes with the assignment of
    the flag. *)
Lemma apply_op_looping st o :
  match o with OpSetLooping _ => True | _ =>
    apply_op lm (set_looping b st) o = set_looping b (apply_op lm st o) end.
Proof.
  destruct o; cbn [apply_op]; try reflexivity; auto.
  - apply setRecording_looping.
  - apply setMinSliceTime_looping.
  - apply setScan_looping.
  - apply setPolyVoices_looping.
  - apply rescanSlices_looping.
  - apply redistributeVoices_looping.
  - now rewrite process_looping.
Qed.

End Looping.

(** Equal but for the looping flag. *)
Definition same_but_looping (s1 s2 : Engine) : Prop :=
  set_looping false s1 = set_looping false s2.

Lemma same_but_looping_set b st : same_but_looping (set_looping b st) st.
Proof. reflexivity. Qed.

Lemma apply_op_same_but_looping lm s1 s2 o :
  same_but_looping s1 s2 ->
  same_but_looping (apply_op lm s1 o) (apply_op lm s2 o).
Proof.
  unfold same_but_looping. intros H.
  pose proof (apply_op_looping lm false s1 o) as H1.
  pose proof (apply_op_looping lm false s2 o) as H2.
  destruct o; try (rewrite <- H1, <- H2, H; reflexivity).
  cbn [apply_op]. unfold setLooping.
  change (set_looping false s1 = set_looping false s2). exact H.
Qed.

Lemma run_same_but_looping lm ops : forall s1 s2,
  same_but_looping s1 s2 -> same_but_looping (run lm s1 ops) (run lm s2 ops).
Proof.
  induction ops as [|o ops IH]; intros s1 s2 H; [exact H|].
  change (run lm s1 (o :: ops)) with (run lm (apply_op lm s1 o) ops).
  change (run lm s2 (o :: ops)) with (run lm (apply_op lm s2 o) ops).
  apply IH. now apply apply_op_same_but_looping.
Qed.

(** X13.  The looping flag is never read: a call of [setLooping] changes
    nothing that can be observed afterwards.  Whatever calls follow, the
    samples a render call writes and the results of the four query
    functions are the same with and without it. *)
Theorem X13_setLooping_has_no_observable_effect :
  forall (lm : Libm) (loop : bool) (st : Engine) (ops : list Op) (inputL : list float),
    let s1 := run lm (setLooping loop st) ops in
    let s2 := run lm st ops in
    snd (process lm s1 inputL) = snd (process lm s2 inputL)
    /\ getNumSlices s1 = getNumSlices s2
    /\ getCurrentSlice s1 = getCurrentSlice s2
    /\ getNumVoices s1 = getNumVoices s2
    /\ getIsRecording s1 = getIsRecording s2.
Proof.
  intros lm loop st ops inputL. cbv zeta.
  pose proof (run_same_but_looping lm ops _ _ (same_but_looping_set loop st)) as H.
  unfold setLooping. set (s1 := run lm (set_looping loop st) ops) in *.
  set (s2 := run lm st ops) in *. clearbody s1 s2. unfold same_but_looping in H.
  split.
  - pose proof (process_looping lm false inputL s1) as H1.
    pose proof (process_looping lm false inputL s2) as H2.
    rewrite H in H1. rewrite H1 in H2. now injection H2.
  - unfold getNumSlices, getCurrentSlice, getNumVoices, getIsRecording.
    change (slices s1) with (slices (set_looping false s1)).
    change (currentSliceIndex s1) with (currentSliceIndex (set_looping false s1)).
    change (numVoices s1) with (numVoices (set_looping false s1)).
    change (isRecording s1) with (isRecording (set_looping false s1)).
    rewrite H. auto.
Qed.

(** ** A take in progress *)

(** The members that only the recording writes: the staging buffer and
    list, the write position, and the flag. *)
Record Take := {
  tk_buffer : fvec;
  tk_slices : list Slice;
  tk_position : Z;
  tk_length : Z;
  tk_amplitude : float;
  tk_recording : bool
}.

Definition take_of (st : Engine) : Take :=
  {| tk_buffer := tempBuffer st; tk_slices := tempSlices st;
     tk_position := tempRecordPosition st; tk_length := tempRecordedLength st;
     tk_amplitude := tempLastAmplitude st; tk_recording := isRecording st |}.

Definition with_take (tk : Take) (st : Engine) : Engine :=
  set_tempBuffer (tk_buffer tk)
    (set_tempSlices (tk_slices tk)
       (set_tempRecordPosition (tk_position tk)
          (set_tempRecordedLength (tk_length tk)
             (set_tempLastAmplitude (tk_amplitude tk)
                (set_isRecording (tk_recording tk) st))))).

Lemma with_take_self st : with_take (take_of st) st = st.
Proof. destruct st. reflexivity. Qed.

Lemma with_take_twice tk tk' st : with_take tk (with_take tk' st) = with_take tk st.
Proof. reflexivity. Qed.

(** Reading or assigning a member that is not part of the take. *)
Lemma take_slices tk st : slices (with_take tk st) = slices st.
Proof. reflexivity. Qed.
Lemma take_randomEngine tk st : randomEngine (with_take tk st) = randomEngine st.
Proof. reflexivity. Qed.
Lemma take_numVoices tk st : numVoices (with_take tk st) = numVoices st.
Proof. reflexivity. Qed.
Lemma take_voices tk st : voices (with_take tk st) = voices st.
Proof. reflexivity. Qed.
Lemma take_recordedLength tk st : recordedLength (with_take tk st) = recordedLength st.
Proof. reflexivity. Qed.
Lemma take_scanValue tk st : scanValue (with_take tk st) = scanValue st.
Proof. reflexivity. Qed.
Lemma take_lastScanValue tk st : lastScanValue (with_take tk st) = lastScanValue st.
Proof. reflexivity. Qed.
Lemma take_currentSliceIndex tk st :
  currentSliceIndex (with_take tk st) = currentSliceIndex st.
Proof. reflexivity. Qed.
Lemma take_playbackPosition tk st :
  playbackPosition (with_take tk st) = playbackPosition st.
Proof. reflexivity. Qed.
Lemma take_playbackPhase tk st : playbackPhase (with_take tk st) = playbackPhase st.
Proof. reflexivity. Qed.
Lemma take_redistribute_invalid tk st :
  redistribute_invalid (with_take tk st) = redistribute_invalid st.
Proof. reflexivity. Qed.
Lemma take_poly_invalid tk st : poly_invalid (with_take tk st) = poly_invalid st.
Proof. reflexivity. Qed.
Lemma take_inherit_voice tk st : inherit_voice (with_take tk st) = inherit_voice st.
Proof. reflexivity. Qed.
Lemma take_set_randomEngine v tk st :
  set_randomEngine v (with_take tk st) = with_take tk (set_randomEngine v st).
Proof. reflexivity. Qed.
Lemma take_set_voices v tk st :
  set_voices v (with_take tk st) = with_take tk (set_voices v st).
Proof. reflexivity. Qed.
Lemma take_set_numVoices v tk st :
  set_numVoices v (with_take tk st) = with_take tk (set_numVoices v st).
Proof. reflexivity. Qed.
Lemma take_set_scanValue v tk st :
  set_scanValue v (with_take tk st) = with_take tk (set_scanValue v st).
Proof. reflexivity. Qed.
Lemma take_set_lastScanValue v tk st :
  set_lastScanValue v (with_take tk st) = with_take tk (set_lastScanValue v st).
Proof. reflexivity. Qed.

Ltac take_simpl :=
  repeat first
    [ rewrite take_slices
    | rewrite take_randomEngine
    | rewrite take_numVoices
    | rewrite take_voices
    | rewrite take_recordedLength
    | rewrite take_scanValue
    | rewrite take_lastScanValue
    | rewrite take_currentSliceIndex
    | rewrite take_playbackPosition
    | rewrite take_playbackPhase
    | rewrite take_redistribute_invalid
    | rewrite take_poly_invalid
    | rewrite take_inherit_voice
    | rewrite take_set_randomEngine
    | rewrite take_set_voices
    | rewrite take_set_numVoices
    | rewrite take_set_scanValue
    | rewrite take_set_lastScanValue ].

Section TakeInProgress.
Variable lm : Libm.
Variable tk : Take.

Lemma record_sample_take x st :
  record_sample lm x st = with_take (take_of (record_sample lm x st)) st.
Proof.
  destruct st. unfold record_sample, minSliceSamples_of, with_take, take_of.
  eng_cases; reflexivity.
Qed.

Lemma scan_step_take st : scan_step (with_take tk st) = with_take tk (scan_step st).
Proof. unfold scan_step, with_take. eng_cases; reflexivity. Qed.

Lemma play_single_take st :
  play_single (with_take tk st)
  = (with_take tk (fst (fst (play_single st))), snd (fst (play_single st)),
     snd (play_single st)).
Proof.
  unfold play_single, with_take. eng_simpl.
  destruct (read_sample _ _ _ _) as [p s]. reflexivity.
Qed.

Lemma play_multi_take st :
  play_multi (with_take tk st)
  = (with_take tk (fst (fst (play_multi st))), snd (fst (play_multi st)),
     snd (play_multi st)).
Proof.
  unfold play_multi. unfold with_take at 1 2. eng_simpl.
  change (play_voice (with_take tk st)) with (play_voice st).
  destruct (fold_left _ _ _) as [[vs l] r]. unfold with_take. eng_cases; reflexivity.
Qed.

Lemma playback_take st :
  playback (with_take tk st)
  = (with_take tk (fst (fst (playback st))), snd (fst (playback st)),
     snd (playback st)).
Proof.
  unfold playback. unfold with_take at 1 2. eng_simpl.
  destruct (0 <? recordedLength st); [|reflexivity].
  destruct (_ || _); [apply play_single_take|apply play_multi_take].
Qed.

Lemma effects_take x l r st :
  effects lm x l r (with_take tk st)
  = (with_take tk (fst (fst (effects lm x l r st))), snd (fst (effects lm x l r st)),
     snd (effects lm x l r st)).
Proof.
  unfold effects, with_take. eng_simpl.
  destruct (EQ.process _ _ _ _) as [eq' [eqL eqR]]. eng_simpl.
  destruct (Delay.process _ _) as [delay' delayed]. eng_simpl.
  destruct (hd _ delayed) as [dL dR].
  destruct (Reverb.process _ _) as [reverb' reverbed]. eng_simpl.
  destruct (hd _ reverbed) as [rL rR]. reflexivity.
Qed.


(** The blocks of one iteration after the recording block. *)
Definition render_sample (st : Engine) (input : float) : Engine * (float * float) :=
  let st := scan_step st in
  let '(st, loopL, loopR) := playback st in
  let '(st, finalL, finalR) := effects lm input loopL loopR st in
  (st, (F32.clamp finalL (F32.opp F32.c10) F32.c10,
        F32.clamp finalR (F32.opp F32.c10) F32.c10)).

Lemma render_sample_take st x :
  render_sample (with_take tk st) x
  = (with_take tk (fst (render_sample st x)), snd (render_sample st x)).
Proof.
  unfold render_sample. rewrite scan_step_take, playback_take.
  destruct (playback (scan_step st)) as [[st1 loopL] loopR].
  cbn [fst snd]. rewrite effects_take.
  destruct (effects lm x loopL loopR st1) as [[st2 fL] fR]. reflexivity.
Qed.

Lemma redistribute_iter_take st i :
  redistribute_iter (with_take tk st) i = with_take tk (redistribute_iter st i).
Proof.
  unfold redistribute_iter. cbv zeta. take_simpl.
  destruct (draw_int _ _) as [t0 g0].
  destruct (retry_draw _ _ _ _ _) as [t1 g1]. take_simpl.
  destruct (redistribute_invalid _ _); [reflexivity|]. take_simpl.
  destruct (draw_real _) as [spd g2]. take_simpl. reflexivity.
Qed.

Lemma fold_take (f : Engine -> Z -> Engine) (l : list Z) :
  (forall st i, f (with_take tk st) i = with_take tk (f st i)) ->
  forall st, fold_left f l (with_take tk st) = with_take tk (fold_left f l st).
Proof.
  intros Hf. induction l as [|i l IH]; intros st; [reflexivity|].
  cbn [fold_left]. now rewrite Hf, IH.
Qed.

Lemma redistributeVoices_take st :
  redistributeVoices (with_take tk st) = with_take tk (redistributeVoices st).
Proof.
  unfold redistributeVoices. take_simpl.
  destruct (_ || _); [reflexivity|].
  apply fold_take, redistribute_iter_take.
Qed.

Lemma rescanSlices_with_take threshold t st :
  rescanSlices threshold t (with_take tk st)
  = with_take tk (rescanSlices threshold t st).
Proof. unfold rescanSlices, minSliceSamples_of, with_take. eng_cases; reflexivity. Qed.

Lemma setScan_take scan st :
  setScan scan (with_take tk st) = with_take tk (setScan scan st).
Proof.
  unfold setScan. cbv zeta. take_simpl.
  destruct (F32.gt _ _); [|reflexivity].
  rewrite redistributeVoices_take. take_simpl. reflexivity.
Qed.

Lemma poly_iter_take st i :
  poly_iter (with_take tk st) i = with_take tk (poly_iter st i).
Proof.
  unfold poly_iter. cbv zeta. take_simpl.
  destruct (i =? 0); [reflexivity|].
  destruct (draw_int _ _) as [t0 g0].
  destruct (retry_draw _ _ _ _ _) as [t1 g1]. take_simpl.
  destruct (draw_real _) as [spd g2]. take_simpl. reflexivity.
Qed.

Lemma inherit_iter_take st i :
  set_voices (<[ Z.to_nat i := inherit_voice (with_take tk st) ]>
                (voices (with_take tk st))) (with_take tk st)
  = with_take tk (set_voices (<[ Z.to_nat i := inherit_voice st ]> (voices st)) st).
Proof. reflexivity. Qed.

Lemma setPolyVoices_take n st :
  setPolyVoices n (with_take tk st) = with_take tk (setPolyVoices n st).
Proof.
  unfold setPolyVoices. cbv zeta. take_simpl.
  destruct (negb (_ =? _)); [|reflexivity].
  destruct (_ && _).
  - apply fold_take, poly_iter_take.
  - apply (fold_take (fun st i => set_voices
                        (<[ Z.to_nat i := inherit_voice st ]> (voices st)) st)).
    intros. apply inherit_iter_take.
Qed.

End TakeInProgress.

(** Equal but for the take. *)
Definition same_but_take (s1 s2 : Engine) : Prop := exists tk, s1 = with_take tk s2.

Lemma same_but_take_refl st : same_but_take st st.
Proof. exists (take_of st). symmetry. apply with_take_self. Qed.

Lemma same_but_take_both tk1 tk2 st :
  same_but_take (with_take tk1 st) (with_take tk2 st).
Proof. exists tk1. reflexivity. Qed.

Lemma process_sample_render lm st x :
  process_sample lm st x = render_sample lm (record_sample lm x st) x.
Proof. reflexivity. Qed.

Lemma process_sample_same_but_take lm s1 s2 x :
  same_but_take s1 s2 ->
  same_but_take (fst (process_sample lm s1 x)) (fst (process_sample lm s2 x))
  /\ snd (process_sample lm s1 x) = snd (process_sample lm s2 x).
Proof.
  intros [tk ->]. rewrite !process_sample_render.
  rewrite (record_sample_take lm x (with_take tk s2)), with_take_twice.
  rewrite (record_sample_take lm x s2).
  set (t1 := take_of _). set (t2 := take_of _). clearbody t1 t2.
  rewrite !render_sample_take. cbn [fst snd]. split; [|reflexivity].
  apply same_but_take_both.
Qed.

Lemma process_same_but_take lm inputL : forall s1 s2,
  same_but_take s1 s2 ->
  same_but_take (fst (process lm s1 inputL)) (fst (process lm s2 inputL))
  /\ snd (process lm s1 inputL) = snd (process lm s2 inputL).
Proof.
  induction inputL as [|x rest IH]; intros s1 s2 H; [now split|].
  rewrite !process_step.
  destruct (process_sample_same_but_take lm s1 s2 x H) as [H1 H2].
  destruct (process_sample lm s1 x) as [a1 o1].
  destruct (process_sample lm s2 x) as [a2 o2]. cbn [fst snd] in *.
  destruct (IH a1 a2 H1) as [H3 H4].
  destruct (process lm a1 rest) as [b1 os1].
  destruct (process lm a2 rest) as [b2 os2]. cbn [fst snd] in *.
  split; [exact H3|]. now rewrite H2, H4.
Qed.

(** The calls whose effect depends on the take: the commit, and
    [setMinSliceTime], which rescans only when no take is in progress. *)
Definition ignores_take (o : Op) : bool :=
  match o with
  | OpSetRecording rec => rec
  | OpSetMinSliceTime _ => false
  | _ => true
  end.

Lemma setRecording_true_same_but_take lm st :
  same_but_take (setRecording lm true st) st.
Proof.
  unfold setRecording. cbn [andb negb].
  destruct (negb (isRecording st)); [|apply same_but_take_refl].
  exists {| tk_buffer := fv_zeros (fv_size (tempBuffer st)); tk_slices := [];
            tk_position := 0; tk_length := 0; tk_amplitude := F32.zero;
            tk_recording := true |}.
  reflexivity.
Qed.

Lemma same_but_take_trans s1 s2 s3 :
  same_but_take s1 s2 -> same_but_take s2 s3 -> same_but_take s1 s3.
Proof. intros [t1 ->] [t2 ->]. exists t1. reflexivity. Qed.

Lemma same_but_take_sym s1 s2 : same_but_take s1 s2 -> same_but_take s2 s1.
Proof.
  intros [t1 ->]. exists (take_of s2). rewrite with_take_twice.
  symmetry. apply with_take_self.
Qed.

Lemma clear_take lm tk st :
  same_but_take (clear lm (with_take tk st)) (clear lm st).
Proof.
  exists {| tk_buffer := tk_buffer tk; tk_slices := tk_slices tk;
            tk_position := tk_position tk; tk_length := tk_length tk;
            tk_amplitude := tk_amplitude tk; tk_recording := false |}.
  reflexivity.
Qed.

Lemma apply_op_same_but_take lm s1 s2 o :
  ignores_take o = true -> same_but_take s1 s2 ->
  same_but_take (apply_op lm s1 o) (apply_op lm s2 o).
Proof.
  intros Ho H.
  assert (forall f : Engine -> Engine,
            (forall tk st, f (with_take tk st) = with_take tk (f st)) ->
            same_but_take (f s1) (f s2)) as Hcomm.
  { intros f Hf. destruct H as [tk ->]. exists tk. apply Hf. }
  destruct o; cbn [apply_op]; try discriminate Ho;
    try (apply Hcomm; intros tk st; reflexivity).
  - cbn in Ho. subst rec.
    eapply same_but_take_trans; [apply setRecording_true_same_but_take|].
    eapply same_but_take_trans; [exact H|].
    apply same_but_take_sym, setRecording_true_same_but_take.
  - apply Hcomm. intros. apply setScan_take.
  - apply Hcomm. intros. apply setPolyVoices_take.
  - apply Hcomm. intros. apply rescanSlices_with_take.
  - apply Hcomm. intros. apply redistributeVoices_take.
  - now apply process_same_but_take.
  - destruct H as [tk ->]. apply clear_take.
Qed.

Lemma run_same_but_take lm ops : forall s1 s2,
  forallb ignores_take ops = true ->
  same_but_take s1 s2 -> same_but_take (run lm s1 ops) (run lm s2 ops).
Proof.
  induction ops as [|o ops IH]; intros s1 s2 Hops H; [exact H|].
  cbn [forallb] in Hops. apply andb_prop in Hops as [Ho Hops].
  change (run lm s1 (o :: ops)) with (run lm (apply_op lm s1 o) ops).
  change (run lm s2 (o :: ops)) with (run lm (apply_op lm s2 o) ops).
  apply IH; [exact Hops|]. now apply apply_op_same_but_take.
Qed.

(** X14.  A take in progress cannot be heard or seen before it is
    committed.  Arming the recording and then making any calls other than
    the commit [setRecording(false)] and [setMinSliceTime] gives the same
    rendered samples, the same slices, current slice and voices as the same
    calls without the recording. *)
Theorem X14_take_in_progress_is_not_observable :
  forall (lm : Libm) (st : Engine) (ops : list Op) (inputL : list float),
    forallb ignores_take ops = true ->
    let s1 := run lm (setRecording lm true st) ops in
    let s2 := run lm st ops in
    snd (process lm s1 inputL) = snd (process lm s2 inputL)
    /\ slices s1 = slices s2
    /\ getCurrentSlice s1 = getCurrentSlice s2
    /\ voices s1 = voices s2
    /\ getNumVoices s1 = getNumVoices s2.
Proof.
  intros lm st ops inputL Hops. cbv zeta.
  pose proof (run_same_but_take lm ops _ _ Hops
                (setRecording_true_same_but_take lm st)) as H.
  split; [now apply process_same_but_take|].
  destruct H as [tk ->]. auto.
Qed.

(** A take armed on a new engine, then a render, a scan and a second
    voice: the next render is the same as without the take. *)
Lemma X14_witness :
  for_every_libm (fun lm =>
    let st := Alien4AudioEngine lm sr100 g_const in
    let ops := [OpProcess [F32.c1; F32.zero]; OpSetScan F32.c1; OpSetPolyVoices 2] in
    forallb ignores_take ops = true
    /\ snd (process lm (run lm (setRecording lm true st) ops) [F32.c1])
       = snd (process lm (run lm st ops) [F32.c1])).
Proof.
  intros lm. cbv zeta. split; [reflexivity|].
  apply (X14_take_in_progress_is_not_observable lm (Alien4AudioEngine lm sr100 g_const)
           [OpProcess [F32.c1; F32.zero]; OpSetScan F32.c1; OpSetPolyVoices 2]
           [F32.c1]).
  reflexivity.
Defined.

(** ** What [clear] forgets *)

Module ClearFacts.

(** The sizes of a list of buffers. *)
Definition sizes (bufs : list fvec) : list Z := map fv_size bufs.

Lemma sizes_insert bufs j b :
  fv_size b = fv_size (Reverb.at_ (fv_zeros 0) bufs j) ->
  sizes (<[ j := b ]> bufs) = sizes bufs.
Proof.
  unfold sizes, Reverb.at_. intros Hb. rewrite list_fmap_insert.
  destruct (bufs !! j) as [b0|] eqn:E.
  - apply list_insert_id. rewrite list_lookup_fmap, E. cbn in *. now rewrite Hb.
  - apply list_insert_ge. rewrite length_fmap. now apply lookup_ge_None.
Qed.

Lemma zeros_sizes bufs bufs' :
  sizes bufs' = sizes bufs ->
  map (fun b => fv_zeros (fv_size b)) bufs' = map (fun b => fv_zeros (fv_size b)) bufs.
Proof.
  intros H.
  rewrite <- (map_map fv_size fv_zeros bufs'), <- (map_map fv_size fv_zeros bufs).
  unfold sizes in H. now rewrite H.
Qed.

Lemma comb_bank_sizes input fb dc bufs idxs lps :
  sizes (snd (fst (fst (Reverb.comb_bank input fb dc bufs idxs lps)))) = sizes bufs.
Proof.
  unfold Reverb.comb_bank.
  apply (fold_left_invariant
           (fun acc : float * list fvec * list Z * list float =>
              sizes (snd (fst (fst acc))) = sizes bufs)); [reflexivity|].
  intros [[[out bs] ix] ls] j H. cbn [fst snd] in *.
  unfold Reverb.processCombFilter. cbn [fst snd].
  rewrite sizes_insert; [exact H|reflexivity].
Qed.

Lemma diffuse_sizes l r bufs idxs :
  sizes (snd (fst (Reverb.diffuse l r bufs idxs))) = sizes bufs.
Proof.
  unfold Reverb.diffuse.
  apply (fold_left_invariant
           (fun acc : float * float * list fvec * list Z =>
              sizes (snd (fst acc)) = sizes bufs)); [reflexivity|].
  intros [[[dl dr] bs] ix] j H. cbn [fst snd] in *.
  unfold Reverb.processAllpassFilter. cbn [fst snd].
  rewrite sizes_insert; [exact H|reflexivity].
Qed.

Lemma reverb_clear_iter fb dc rs l rt r :
  Reverb.clear (fst (Reverb.process_iter fb dc rs l rt r)) = Reverb.clear r.
Proof.
  unfold Reverb.process_iter.
  pose proof (comb_bank_sizes (l * rs)%f32 fb dc (Reverb.combBuffersL r)
                (Reverb.combIndicesL r) (Reverb.combLpL r)) as HL.
  destruct (Reverb.comb_bank (l * rs)%f32 fb dc _ _ _) as [[[oL cbL] ciL] clL].
  pose proof (comb_bank_sizes (rt * rs)%f32 fb dc (Reverb.combBuffersR r)
                (Reverb.combIndicesR r) (Reverb.combLpR r)) as HR.
  destruct (Reverb.comb_bank (rt * rs)%f32 fb dc _ _ _) as [[[oR cbR] ciR] clR].
  pose proof (diffuse_sizes (oL * F32.c0_25)%f32 (oR * F32.c0_25)%f32
                (Reverb.allpassBuffers r) (Reverb.allpassIndices r)) as HA.
  destruct (Reverb.diffuse _ _ _ _) as [[[dL dR] ab] ai].
  cbn [fst snd] in *. unfold Reverb.clear. cbn [fst Reverb.sampleRate
    Reverb.combBuffersL Reverb.combBuffersR Reverb.allpassBuffers
    Reverb.roomSize Reverb.damping Reverb.decay].
  now rewrite (zeros_sizes _ _ HL), (zeros_sizes _ _ HR), (zeros_sizes _ _ HA).
Qed.

Lemma reverb_clear_loop fb dc rs ins : forall r,
  Reverb.clear (fst (Reverb.process_loop fb dc rs ins r)) = Reverb.clear r.
Proof.
  induction ins as [|[l rt] ins IH]; intros r; [reflexivity|].
  rewrite reverb_loop_step.
  pose proof (reverb_clear_iter fb dc rs l rt r) as H1.
  destruct (Reverb.process_iter fb dc rs l rt r) as [r1 o].
  pose proof (IH r1) as H2.
  destruct (Reverb.process_loop fb dc rs ins r1) as [r2 os].
  cbn [fst] in *. congruence.
Qed.

Lemma reverb_clear_process ins r :
  Reverb.clear (fst (Reverb.process ins r)) = Reverb.clear r.
Proof. apply reverb_clear_loop. Qed.

Lemma delay_clear_loop dl dr ins : forall d,
  Delay.clear (fst (Delay.process_loop dl dr ins d)) = Delay.clear d.
Proof.
  induction ins as [|[l rt] ins IH]; intros d; [reflexivity|].
  rewrite delay_loop_step.
  assert (Delay.clear (fst (Delay.process_iter dl dr l rt d)) = Delay.clear d) as H1
    by reflexivity.
  destruct (Delay.process_iter dl dr l rt d) as [d1 o].
  pose proof (IH d1) as H2.
  destruct (Delay.process_loop dl dr ins d1) as [d2 os].
  cbn [fst] in *. congruence.
Qed.

Lemma delay_clear_process ins d :
  Delay.clear (fst (Delay.process ins d)) = Delay.clear d.
Proof. apply delay_clear_loop. Qed.

Section WithLibm.
Variable lm : Libm.

Lemma eq_clear_process l r e :
  EQ.clear (arithF lm) (fst (EQ.process (arithF lm) l r e)) = EQ.clear (arithF lm) e.
Proof.
  unfold EQ.process.
  repeat match goal with
         | |- context [EQ.processBiquad ?a ?x ?c ?s ?b] =>
             destruct (EQ.processBiquad a x c s b)
         end.
  reflexivity.
Qed.

Lemma eq_clear_run ins : forall e,
  EQ.clear (arithF lm) (fst (EQ.run (arithF lm) e ins)) = EQ.clear (arithF lm) e.
Proof.
  induction ins as [|[l r] ins IH]; intros e; [reflexivity|].
  cbn [EQ.run].
  pose proof (eq_clear_process l r e) as H1.
  destruct (EQ.process (arithF lm) l r e) as [e1 o].
  pose proof (IH e1) as H2.
  destruct (EQ.run (arithF lm) e1 ins) as [e2 os].
  cbn [fst] in *. congruence.
Qed.

(** The engine: the blocks of one iteration after the recording block. *)
Lemma clear_scan_step st : clear lm (scan_step st) = clear lm st.
Proof. unfold scan_step, clear. eng_cases; reflexivity. Qed.

Lemma clear_play_single st : clear lm (fst (fst (play_single st))) = clear lm st.
Proof.
  unfold play_single. destruct (read_sample _ _ _ _) as [p s]. reflexivity.
Qed.

Lemma clear_play_multi st : clear lm (fst (fst (play_multi st))) = clear lm st.
Proof.
  unfold play_multi. destruct (fold_left _ _ _) as [[vs l] r].
  unfold clear. eng_cases; reflexivity.
Qed.

Lemma clear_playback st : clear lm (fst (fst (playback st))) = clear lm st.
Proof.
  unfold playback. destruct (0 <? recordedLength st); [|reflexivity].
  destruct (_ || _); [apply clear_play_single|apply clear_play_multi].
Qed.

Lemma clear_effects x l r st :
  clear lm (fst (fst (effects lm x l r st))) = clear lm st.
Proof.
  unfold effects.
  match goal with
  | |- context [EQ.process (arithF lm) ?a ?b (eq st)] =>
      pose proof (eq_clear_process a b (eq st)) as HE;
      destruct (EQ.process (arithF lm) a b (eq st)) as [eq' [eqL eqR]]
  end.
  eng_simpl.
  match goal with
  | |- context [Delay.process ?i (delay st)] =>
      pose proof (delay_clear_process i (delay st)) as HD;
      destruct (Delay.process i (delay st)) as [delay' delayed]
  end.
  eng_simpl. destruct (hd _ delayed) as [dL dR].
  match goal with
  | |- context [Reverb.process ?i (reverb st)] =>
      pose proof (reverb_clear_process i (reverb st)) as HR;
      destruct (Reverb.process i (reverb st)) as [reverb' reverbed]
  end.
  eng_simpl. destruct (hd _ reverbed) as [rL rR].
  cbn [fst] in *. unfold clear. eng_simpl. now rewrite HE, HD, HR.
Qed.

Lemma clear_render_sample st x :
  clear lm (fst (render_sample lm st x)) = clear lm st.
Proof.
  unfold render_sample.
  pose proof (clear_playback (scan_step st)) as HP.
  destruct (playback (scan_step st)) as [[st1 loopL] loopR].
  pose proof (clear_effects x loopL loopR st1) as HF.
  destruct (effects lm x loopL loopR st1) as [[st2 fL] fR].
  cbn [fst] in *. now rewrite HF, HP, clear_scan_step.
Qed.

(** Equal but for the staging members of a take that is not running. *)
Definition same_but_idle_take (s1 s2 : Engine) : Prop :=
  exists tk, tk_recording tk = false /\ s1 = with_take tk s2.

Lemma clear_with_take tk st :
  same_but_idle_take (clear lm (with_take tk st)) (clear lm st).
Proof.
  exists {| tk_buffer := tk_buffer tk; tk_slices := tk_slices tk;
            tk_position := tk_position tk; tk_length := tk_length tk;
            tk_amplitude := tk_amplitude tk; tk_recording := false |}.
  split; reflexivity.
Qed.

Lemma clear_process_sample st x :
  same_but_idle_take (clear lm (fst (process_sample lm st x))) (clear lm st).
Proof.
  rewrite process_sample_render, (record_sample_take lm x st).
  set (tk := take_of _). clearbody tk.
  rewrite render_sample_take. cbn [fst].
  rewrite <- (clear_render_sample st x). apply clear_with_take.
Qed.

Lemma clear_same_but_take s1 s2 :
  same_but_take s1 s2 -> same_but_idle_take (clear lm s1) (clear lm s2).
Proof. intros [tk ->]. apply clear_with_take. Qed.

Lemma clear_process inputL : forall st,
  same_but_idle_take (clear lm (fst (process lm st inputL))) (clear lm st).
Proof.
  induction inputL as [|x rest IH]; intros st.
  - cbn [process fst]. destruct (clear_with_take (take_of st) st) as (tk & Hr & H).
    rewrite with_take_self in H. now exists tk.
  - rewrite process_step.
    pose proof (clear_process_sample st x) as H1.
    destruct (process_sample lm st x) as [st1 o].
    pose proof (IH st1) as H2.
    destruct (process lm st1 rest) as [st2 os]. cbn [fst] in *.
    destruct H2 as (t2 & Hr2 & ->). destruct H1 as (t1 & Hr1 & ->).
    generalize (clear lm st). intros c.
    exists t2. split; [exact Hr2|reflexivity].
Qed.

End WithLibm.
End ClearFacts.

(** X15.  [clear] forgets the audio that went through: for the reverb, the
    delay and the equaliser, clearing after any [process] calls gives the
    state that clearing before them gives.  For the engine the same holds
    but for the staging members of the take, which [clear] leaves as they
    are while it switches the recording off, and the samples rendered after
    a [clear] do not depend on what was rendered before it. *)
Theorem X15_clear_forgets_the_processed_audio :
  forall (lm : Libm),
    (forall (r : Reverb.t) (ins : list (float * float)),
        Reverb.clear (fst (Reverb.process ins r)) = Reverb.clear r)
    /\ (forall (d : Delay.t) (ins : list (float * float)),
           Delay.clear (fst (Delay.process ins d)) = Delay.clear d)
    /\ (forall (e : EQ.t) (ins : list (float * float)),
           EQ.clear (arithF lm) (fst (EQ.run (arithF lm) e ins))
           = EQ.clear (arithF lm) e)
    /\ (forall (st : Engine) (before after : list float),
           ClearFacts.same_but_idle_take (clear lm (fst (process lm st before)))
                                         (clear lm st)
           /\ snd (process lm (clear lm (fst (process lm st before))) after)
              = snd (process lm (clear lm st) after)).
Proof.
  intros lm. split; [intros r ins; apply ClearFacts.reverb_clear_process|].
  split; [intros d ins; apply ClearFacts.delay_clear_process|].
  split; [intros e ins; apply ClearFacts.eq_clear_run|].
  intros st before after.
  pose proof (ClearFacts.clear_process lm before st) as H.
  split; [exact H|].
  apply process_same_but_take. destruct H as (tk & _ & ->). now exists tk.
Qed.

(** ** The equaliser's channels *)

Module EQChannels.
Section WithArith.
Context {T : Type} (A : Arith T).

(** The members of the equaliser one channel reads and writes: the
    coefficients, and that channel's half of the three filter states. *)
Definition left_half (s : EQ.BiquadState (T := T)) := (EQ.x1 s, EQ.x2 s, EQ.y1 s, EQ.y2 s).
Definition right_half (s : EQ.BiquadState (T := T)) :=
  (EQ.x1r s, EQ.x2r s, EQ.y1r s, EQ.y2r s).

Definition same_left (e e' : EQ.t (T := T)) : Prop :=
  EQ.lowShelf e = EQ.lowShelf e' /\ EQ.midPeak e = EQ.midPeak e'
  /\ EQ.highShelf e = EQ.highShelf e'
  /\ left_half (EQ.lowState e) = left_half (EQ.lowState e')
  /\ left_half (EQ.midState e) = left_half (EQ.midState e')
  /\ left_half (EQ.highState e) = left_half (EQ.highState e').
Definition same_right (e e' : EQ.t (T := T)) : Prop :=
  EQ.lowShelf e = EQ.lowShelf e' /\ EQ.midPeak e = EQ.midPeak e'
  /\ EQ.highShelf e = EQ.highShelf e'
  /\ right_half (EQ.lowState e) = right_half (EQ.lowState e')
  /\ right_half (EQ.midState e) = right_half (EQ.midState e')
  /\ right_half (EQ.highState e) = right_half (EQ.highState e').

Lemma processBiquad_left x c s s' :
  left_half s = left_half s' ->
  fst (EQ.processBiquad A x c s false) = fst (EQ.processBiquad A x c s' false)
  /\ left_half (snd (EQ.processBiquad A x c s false))
     = left_half (snd (EQ.processBiquad A x c s' false)).
Proof.
  unfold left_half, EQ.processBiquad. intros H. injection H as -> -> -> ->.
  cbn. auto.
Qed.

Lemma processBiquad_right x c s s' :
  right_half s = right_half s' ->
  fst (EQ.processBiquad A x c s true) = fst (EQ.processBiquad A x c s' true)
  /\ right_half (snd (EQ.processBiquad A x c s true))
     = right_half (snd (EQ.processBiquad A x c s' true)).
Proof.
  unfold right_half, EQ.processBiquad. intros H. injection H as -> -> -> ->.
  cbn. auto.
Qed.

Lemma processBiquad_other x c s :
  left_half (snd (EQ.processBiquad A x c s true)) = left_half s
  /\ right_half (snd (EQ.processBiquad A x c s false)) = right_half s.
Proof. unfold left_half, right_half, EQ.processBiquad. cbn. auto. Qed.

Lemma process_left inL inR inR' e e' :
  same_left e e' ->
  fst (snd (EQ.process A inL inR e)) = fst (snd (EQ.process A inL inR' e'))
  /\ same_left (fst (EQ.process A inL inR e)) (fst (EQ.process A inL inR' e')).
Proof.
  intros (Hl & Hm & Hh & H1 & H2 & H3).
  unfold EQ.process. rewrite <- Hl, <- Hm, <- Hh.
  destruct (processBiquad_left inL (EQ.lowShelf e) _ _ H1) as [E1 S1].
  destruct (EQ.processBiquad A inL _ (EQ.lowState e) false) as [t1 s1].
  destruct (EQ.processBiquad A inL _ (EQ.lowState e') false) as [t1' s1'].
  cbn [fst snd] in E1, S1. subst t1'.
  destruct (processBiquad_left t1 (EQ.midPeak e) _ _ H2) as [E2 S2].
  destruct (EQ.processBiquad A t1 _ (EQ.midState e) false) as [t2 s2].
  destruct (EQ.processBiquad A t1 _ (EQ.midState e') false) as [t2' s2'].
  cbn [fst snd] in E2, S2. subst t2'.
  destruct (processBiquad_left t2 (EQ.highShelf e) _ _ H3) as [E3 S3].
  destruct (EQ.processBiquad A t2 _ (EQ.highState e) false) as [t3 s3].
  destruct (EQ.processBiquad A t2 _ (EQ.highState e') false) as [t3' s3'].
  cbn [fst snd] in E3, S3. subst t3'.
  pose proof (processBiquad_other inR (EQ.lowShelf e) s1) as [O1 _].
  pose proof (processBiquad_other inR' (EQ.lowShelf e) s1') as [O1' _].
  destruct (EQ.processBiquad A inR _ s1 true) as [u1 q1].
  destruct (EQ.processBiquad A inR' _ s1' true) as [u1' q1'].
  pose proof (processBiquad_other u1 (EQ.midPeak e) s2) as [O2 _].
  pose proof (processBiquad_other u1' (EQ.midPeak e) s2') as [O2' _].
  destruct (EQ.processBiquad A u1 _ s2 true) as [u2 q2].
  destruct (EQ.processBiquad A u1' _ s2' true) as [u2' q2'].
  pose proof (processBiquad_other u2 (EQ.highShelf e) s3) as [O3 _].
  pose proof (processBiquad_other u2' (EQ.highShelf e) s3') as [O3' _].
  destruct (EQ.processBiquad A u2 _ s3 true) as [u3 q3].
  destruct (EQ.processBiquad A u2' _ s3' true) as [u3' q3'].
  cbn [fst snd] in *. split; [reflexivity|].
  unfold same_left, EQ.with_states.
  cbn [EQ.lowShelf EQ.midPeak EQ.highShelf EQ.lowState EQ.midState EQ.highState].
  repeat split; congruence.
Qed.

Lemma process_right inL inL' inR e e' :
  same_right e e' ->
  snd (snd (EQ.process A inL inR e)) = snd (snd (EQ.process A inL' inR e'))
  /\ same_right (fst (EQ.process A inL inR e)) (fst (EQ.process A inL' inR e')).
Proof.
  intros (Hl & Hm & Hh & H1 & H2 & H3).
  unfold EQ.process. rewrite <- Hl, <- Hm, <- Hh.
  pose proof (processBiquad_other inL (EQ.lowShelf e) (EQ.lowState e)) as [_ O1].
  pose proof (processBiquad_other inL' (EQ.lowShelf e) (EQ.lowState e')) as [_ O1'].
  destruct (EQ.processBiquad A inL _ (EQ.lowState e) false) as [t1 s1].
  destruct (EQ.processBiquad A inL' _ (EQ.lowState e') false) as [t1' s1'].
  pose proof (processBiquad_other t1 (EQ.midPeak e) (EQ.midState e)) as [_ O2].
  pose proof (processBiquad_other t1' (EQ.midPeak e) (EQ.midState e')) as [_ O2'].
  destruct (EQ.processBiquad A t1 _ (EQ.midState e) false) as [t2 s2].
  destruct (EQ.processBiquad A t1' _ (EQ.midState e') false) as [t2' s2'].
  pose proof (processBiquad_other t2 (EQ.highShelf e) (EQ.highState e)) as [_ O3].
  pose proof (processBiquad_other t2' (EQ.highShelf e) (EQ.highState e')) as [_ O3'].
  destruct (EQ.processBiquad A t2 _ (EQ.highState e) false) as [t3 s3].
  destruct (EQ.processBiquad A t2' _ (EQ.highState e') false) as [t3' s3'].
  cbn [fst snd] in *.
  assert (right_half s1 = right_half s1') as R1 by congruence.
  assert (right_half s2 = right_half s2') as R2 by congruence.
  assert (right_half s3 = right_half s3') as R3 by congruence.
  destruct (processBiquad_right inR (EQ.lowShelf e) _ _ R1) as [E1 S1].
  destruct (EQ.processBiquad A inR _ s1 true) as [u1 q1].
  destruct (EQ.processBiquad A inR _ s1' true) as [u1' q1'].
  cbn [fst snd] in E1, S1. subst u1'.
  destruct (processBiquad_right u1 (EQ.midPeak e) _ _ R2) as [E2 S2].
  destruct (EQ.processBiquad A u1 _ s2 true) as [u2 q2].
  destruct (EQ.processBiquad A u1 _ s2' true) as [u2' q2'].
  cbn [fst snd] in E2, S2. subst u2'.
  destruct (processBiquad_right u2 (EQ.highShelf e) _ _ R3) as [E3 S3].
  destruct (EQ.processBiquad A u2 _ s3 true) as [u3 q3].
  destruct (EQ.processBiquad A u2 _ s3' true) as [u3' q3'].
  cbn [fst snd] in *. subst u3'. split; [reflexivity|].
  unfold same_right, EQ.with_states.
  cbn [EQ.lowShelf EQ.midPeak EQ.highShelf EQ.lowState EQ.midState EQ.highState].
  repeat split; congruence.
Qed.

Lemma run_step e l r rest :
  EQ.run A e ((l, r) :: rest)
  = let '(e1, o) := EQ.process A l r e in
    let '(e2, os) := EQ.run A e1 rest in (e2, o :: os).
Proof. reflexivity. Qed.

Lemma run_left ins : forall ins' e e',
  same_left e e' -> map fst ins = map fst ins' ->
  map fst (snd (EQ.run A e ins)) = map fst (snd (EQ.run A e' ins')).
Proof.
  induction ins as [|[l r] ins IH]; intros [|[l' r'] ins'] e e' He Hi;
    try discriminate Hi; [reflexivity|].
  cbn [map fst] in Hi. injection Hi as <- Hi. rewrite !run_step.
  destruct (process_left l r r' e e' He) as [Ho He1].
  destruct (EQ.process A l r e) as [e1 o].
  destruct (EQ.process A l r' e') as [e1' o']. cbn [fst snd] in Ho, He1.
  specialize (IH ins' e1 e1' He1 Hi).
  destruct (EQ.run A e1 ins) as [e2 os]. destruct (EQ.run A e1' ins') as [e2' os'].
  cbn [fst snd map] in *. congruence.
Qed.

Lemma run_right ins : forall ins' e e',
  same_right e e' -> map snd ins = map snd ins' ->
  map snd (snd (EQ.run A e ins)) = map snd (snd (EQ.run A e' ins')).
Proof.
  induction ins as [|[l r] ins IH]; intros [|[l' r'] ins'] e e' He Hi;
    try discriminate Hi; [reflexivity|].
  cbn [map snd] in Hi. injection Hi as <- Hi. rewrite !run_step.
  destruct (process_right l l' r e e' He) as [Ho He1].
  destruct (EQ.process A l r e) as [e1 o].
  destruct (EQ.process A l' r e') as [e1' o']. cbn [fst snd] in Ho, He1.
  specialize (IH ins' e1 e1' He1 Hi).
  destruct (EQ.run A e1 ins) as [e2 os]. destruct (EQ.run A e1' ins') as [e2' os'].
  cbn [fst snd map] in *. congruence.
Qed.

End WithArith.
End EQChannels.

(** X16.  The equaliser's channels are independent, whatever the gains and
    the filter states: over any sequence of [process] calls, the outputs of
    a channel are determined by that channel's inputs (in binary32 with any
    libm: nothing is shared between the channels but the coefficients). *)
Theorem X16_equaliser_channels_are_independent
    (lm : Libm) (right : bool) (e : EQ.t) (ins ins' : list (float * float)) :
  map (pick right) ins = map (pick right) ins' ->
  map (pick right) (snd (EQ.run (arithF lm) e ins))
  = map (pick right) (snd (EQ.run (arithF lm) e ins')).
Proof.
  intros H. destruct right.
  - apply EQChannels.run_right; [|exact H]. unfold EQChannels.same_right. auto 10.
  - apply EQChannels.run_left; [|exact H]. unfold EQChannels.same_left. auto 10.
Qed.

(** Two inputs that differ on the right only, through the equaliser at
    48 kHz with the low gain raised: the left outputs agree. *)
Lemma X16_witness :
  for_every_libm (fun lm =>
    let e := EQ.setLowGain (arithF lm) F32.c1 (EQ.make (arithF lm) sr48000) in
    let ins := [(F32.c1, F32.zero); (F32.c0_5, F32.c1)] in
    let ins' := [(F32.c1, F32.c1); (F32.c0_5, F32.c0_5)] in
    map (pick false) ins = map (pick false) ins'
    /\ map (pick false) (snd (EQ.run (arithF lm) e ins))
       = map (pick false) (snd (EQ.run (arithF lm) e ins'))).
Proof.
  intros lm. cbv zeta. split; [reflexivity|].
  apply (X16_equaliser_channels_are_independent lm false). reflexivity.
Defined.

(** ** The reverb's circular buffers *)

Module ReverbBounds.
Import Reverb.

(** Every index is inside its buffer. *)
Definition in_bounds (idxs : list Z) (bufs : list fvec) : Prop :=
  Forall2 (fun i b => 0 <= i < fv_size b) idxs bufs.

(** The buffers have the sizes of the constructor, and every comb and
    allpass index is inside its buffer. *)
Definition well_formed (r : t) : Prop :=
  map fv_size (combBuffersL r) = [1557; 1617; 1491; 1422]
  /\ map fv_size (combBuffersR r) = [1277; 1356; 1188; 1116]
  /\ map fv_size (allpassBuffers r) = ALLPASS_SIZES
  /\ in_bounds (combIndicesL r) (combBuffersL r)
  /\ in_bounds (combIndicesR r) (combBuffersR r)
  /\ in_bounds (allpassIndices r) (allpassBuffers r).

Lemma cmod_step i size : 0 <= i < size -> 0 <= cmod (i + 1) size < size.
Proof. intros H. unfold cmod. apply Z.rem_bound_pos; lia. Qed.

Lemma two_steps_bound i size :
  0 <= i < size -> 0 <= ReverbFacts.two_steps size i < size.
Proof. intros H. unfold ReverbFacts.two_steps. now apply cmod_step, cmod_step. Qed.

Lemma comb_bank_bounds input fb dc bufs idxs lps s0 s1 s2 s3 :
  map fv_size bufs = [s0; s1; s2; s3] -> in_bounds idxs bufs ->
  let '(_, bufs', idxs', _) := comb_bank input fb dc bufs idxs lps in
  map fv_size bufs' = [s0; s1; s2; s3] /\ in_bounds idxs' bufs'.
Proof.
  intros Hs Hi.
  destruct bufs as [|b0 [|b1 [|b2 [|b3 [|]]]]]; try discriminate Hs.
  injection Hs as H0 H1 H2 H3. subst s0 s1 s2 s3.
  unfold in_bounds in Hi.
  inversion Hi as [|i0 ? l0 ? B0 Hi0]; subst.
  inversion Hi0 as [|i1 ? l1 ? B1 Hi1]; subst.
  inversion Hi1 as [|i2 ? l2 ? B2 Hi2]; subst.
  inversion Hi2 as [|i3 ? l3 ? B3 Hi3]; subst.
  inversion Hi3; subst.
  unfold comb_bank, processCombFilter, at_. cbn [fold_left seq].
  cbn [lookup list_lookup default from_option id insert list_insert fv_size fv_set].
  split; [reflexivity|].
  unfold in_bounds, cmod, Datatypes.id.
  repeat (constructor; [unfold fv_set; cbn [fv_size]; apply Z.rem_bound_pos; lia|]).
  constructor.
Qed.

Lemma process_iter_well_formed fb dc rs l rt r :
  well_formed r -> well_formed (fst (process_iter fb dc rs l rt r)).
Proof.
  intros (HL & HR & HA & IL & IR & IA).
  assert (exists i0 i1 i2 i3, allpassIndices r = [i0; i1; i2; i3]) as (i0 & i1 & i2 & i3 & Hai).
  { unfold in_bounds in IA. apply Forall2_length in IA as Hlen.
    rewrite <- (length_map fv_size), HA in Hlen.
    destruct (allpassIndices r) as [|i0 [|i1 [|i2 [|i3 [|]]]]]; try discriminate Hlen.
    now exists i0, i1, i2, i3. }
  destruct (ReverbFacts.process_iter_allpass fb dc rs l rt r i0 i1 i2 i3 HA Hai)
    as [HA' Hai'].
  assert (in_bounds (allpassIndices (fst (process_iter fb dc rs l rt r)))
                    (allpassBuffers (fst (process_iter fb dc rs l rt r)))) as IA'.
  { rewrite Hai'. clear Hai'.
    destruct (allpassBuffers (fst (process_iter fb dc rs l rt r)))
      as [|a0 [|a1 [|a2 [|a3 [|]]]]]; try discriminate HA'.
    injection HA' as E0 E1 E2 E3.
    destruct (allpassBuffers r) as [|c0 [|c1 [|c2 [|c3 [|]]]]]; try discriminate HA.
    injection HA as F0 F1 F2 F3. rewrite Hai in IA.
    unfold in_bounds in IA.
    inversion IA as [|? ? ? ? B0 IA0]; subst. inversion IA0 as [|? ? ? ? B1 IA1]; subst.
    inversion IA1 as [|? ? ? ? B2 IA2]; subst. inversion IA2 as [|? ? ? ? B3 _]; subst.
    unfold in_bounds. repeat constructor; rewrite ?E0, ?E1, ?E2, ?E3;
      apply two_steps_bound; lia. }
  revert HA' IA'. unfold process_iter.
  pose proof (comb_bank_bounds (l * rs)%f32 fb dc (combBuffersL r) (combIndicesL r)
                (combLpL r) _ _ _ _ HL IL) as CL.
  pose proof (comb_bank_bounds (rt * rs)%f32 fb dc (combBuffersR r) (combIndicesR r)
                (combLpR r) _ _ _ _ HR IR) as CR.
  destruct (comb_bank _ _ _ (combBuffersL r) _ _) as [[[sumL cbL] ciL] clL].
  destruct (comb_bank _ _ _ (combBuffersR r) _ _) as [[[sumR cbR] ciR] clR].
  destruct (diffuse _ _ _ _) as [[[dL dR] ab] ai].
  cbn [fst allpassBuffers allpassIndices]. intros HA' IA'.
  unfold well_formed. cbn [combBuffersL combBuffersR allpassBuffers combIndicesL
                           combIndicesR allpassIndices].
  tauto.
Qed.

Lemma process_loop_well_formed fb dc rs ins : forall r,
  well_formed r -> well_formed (fst (process_loop fb dc rs ins r)).
Proof.
  induction ins as [|[l rt] ins IH]; intros r H; [exact H|].
  cbn [process_loop].
  pose proof (process_iter_well_formed fb dc rs l rt r H) as H1.
  destruct (process_iter fb dc rs l rt r) as [r1 o]. cbn [fst] in H1.
  specialize (IH r1 H1). now destruct (process_loop fb dc rs ins r1).
Qed.

Lemma make_well_formed sr : well_formed (make sr).
Proof.
  unfold well_formed, make, in_bounds.
  cbn [combBuffersL combBuffersR allpassBuffers combIndicesL combIndicesR
       allpassIndices].
  repeat split; repeat constructor; cbn; lia.
Qed.

Lemma clear_well_formed r : well_formed r -> well_formed (clear r).
Proof.
  intros (HL & HR & HA & _). unfold well_formed, clear, in_bounds.
  cbn [combBuffersL combBuffersR allpassBuffers combIndicesL combIndicesR
       allpassIndices].
  destruct (combBuffersL r) as [|b0 [|b1 [|b2 [|b3 [|]]]]]; try discriminate HL.
  destruct (combBuffersR r) as [|c0 [|c1 [|c2 [|c3 [|]]]]]; try discriminate HR.
  destruct (allpassBuffers r) as [|a0 [|a1 [|a2 [|a3 [|]]]]]; try discriminate HA.
  cbn [map fv_size fv_zeros] in *.
  injection HL as -> -> -> ->. injection HR as -> -> -> ->.
  injection HA as -> -> -> ->.
  repeat split; repeat constructor; lia.
Qed.

(** The public calls of [ReverbProcessor]. *)
Inductive Call :=
| SetParameters (room damp dec : float)
| Process (ins : list (float * float))
| Clear.

Definition call (r : t) (c : Call) : t :=
  match c with
  | SetParameters room damp dec => setParameters room damp dec r
  | Process ins => fst (process ins r)
  | Clear => clear r
  end.

Lemma call_well_formed r c : well_formed r -> well_formed (call r c).
Proof.
  intros H. destruct c; cbn [call].
  - exact H.
  - unfold process. now apply process_loop_well_formed.
  - now apply clear_well_formed.
Qed.

End ReverbBounds.

(** X17.  After the constructor and any sequence of [setParameters],
    [process] and [clear] calls, the reverb's twelve buffers have the
    sizes they were given and every comb and allpass index is inside its
    buffer, at any sample rate and for any samples: the circular buffers
    are never read or written out of range. *)
Theorem X17_reverb_indices_stay_inside_their_buffers :
  forall (sr : float) (calls : list ReverbBounds.Call),
    let r := fold_left ReverbBounds.call calls (Reverb.make sr) in
    map fv_size (Reverb.combBuffersL r) = [1557; 1617; 1491; 1422]
    /\ map fv_size (Reverb.combBuffersR r) = [1277; 1356; 1188; 1116]
    /\ map fv_size (Reverb.allpassBuffers r) = [556; 441; 341; 225]
    /\ Forall2 (fun i b => 0 <= i < fv_size b)
               (Reverb.combIndicesL r) (Reverb.combBuffersL r)
    /\ Forall2 (fun i b => 0 <= i < fv_size b)
               (Reverb.combIndicesR r) (Reverb.combBuffersR r)
    /\ Forall2 (fun i b => 0 <= i < fv_size b)
               (Reverb.allpassIndices r) (Reverb.allpassBuffers r).
Proof.
  intros sr calls. cbv zeta.
  apply (fold_left_invariant ReverbBounds.well_formed).
  - apply ReverbBounds.make_well_formed.
  - intros r c. apply ReverbBounds.call_well_formed.
Qed.

(** ** The delay line *)

Module DelayLine.
Import Delay.

(** [delaySamplesL] and [delaySamplesR] as [process] computes them. *)
Definition delaySamples (time : float) (d : t) : Z :=
  Z.max 1 (Z.min (bufferSize d - 1) (F32.to_int (time * sampleRate d)%f32)).

(** The circular buffer [b] of size [S] with write index [w] after the
    values [h] were written to it, one per sample, from an all-zero start:
    the last [S] of them are in place, and a cell not written yet is 0. *)
Definition line (S w : Z) (b : fvec) (h : list float) : Prop :=
  w = size h mod S
  /\ (forall i, 0 <= i < size h -> size h - S <= i ->
                fv_get b (i mod S) = nth (Z.to_nat i) h F32.zero)
  /\ (forall c, size h <= c < S -> fv_get b c = F32.zero).

Lemma line_read S w b h D :
  1 <= D <= S - 1 -> line S w b h ->
  fv_get b (cmod (w - D + S) S)
  = if size h <? D then F32.zero else nth (Z.to_nat (size h - D)) h F32.zero.
Proof.
  intros HD (Hw & Hin & Hout).
  assert (0 <= size h) as Hnn by (unfold size; lia).
  assert (0 <= w < S) as Hwb by (subst w; apply Z.mod_pos_bound; lia).
  unfold cmod. rewrite Z.rem_mod_nonneg by lia.
  assert ((w - D + S) mod S = (size h - D) mod S) as ->.
  { subst w. rewrite <- Zplus_mod_idemp_l, Zminus_mod_idemp_l.
    rewrite Zplus_mod_idemp_l.
    replace (size h - D + S) with (size h - D + 1 * S) by lia.
    apply Z_mod_plus_full. }
  destruct (Z.ltb_spec (size h) D) as [Hlt|Hge].
  - assert ((size h - D) mod S = size h - D + S) as ->.
    { symmetry. apply (Z.mod_unique _ _ (-1)); lia. }
    apply Hout. lia.
  - apply Hin; lia.
Qed.

Lemma line_write S w b h x :
  1 <= S -> line S w b h -> line S (cmod (w + 1) S) (fv_set b w x) (h ++ [x]).
Proof.
  intros HS (Hw & Hin & Hout).
  assert (0 <= size h) as Hnn by (unfold size; lia).
  assert (0 <= w < S) as Hwb by (subst w; apply Z.mod_pos_bound; lia).
  unfold line. rewrite size_snoc. split; [|split].
  - unfold cmod. rewrite Z.rem_mod_nonneg by lia. subst w.
    now rewrite Zplus_mod_idemp_l.
  - intros i Hi Hlow. rewrite fv_get_set.
    destruct (Z.eq_dec i (size h)) as [->|Hne].
    + rewrite <- Hw, Z.eqb_refl. unfold size. now rewrite Nat2Z.id, nth_middle.
    + assert (i < size h) as Hlt by lia.
      replace (w =? i mod S) with false.
      * rewrite app_nth1 by (unfold size in *; lia). apply Hin; lia.
      * symmetry. apply Z.eqb_neq. rewrite Hw. intros E.
        assert ((size h - i) mod S = 0) as E0.
        { rewrite Zminus_mod, E, Z.sub_diag. apply Z.mod_0_l. lia. }
        rewrite Z.mod_small in E0 by lia. lia.
  - intros c Hc. rewrite fv_get_set.
    replace (w =? c) with false; [apply Hout; lia|].
    symmetry. apply Z.eqb_neq. rewrite Hw, Z.mod_small by lia. lia.
Qed.

Lemma line_zeros S : 1 <= S -> line S 0 (fv_zeros S) [].
Proof.
  intros HS. unfold line, size. cbn [length Z.of_nat].
  split; [now rewrite Z.mod_0_l by lia|]. split; [intros; lia|].
  intros c _. unfold fv_get. cbn. now rewrite lookup_empty.
Qed.

Definition buffer (right : bool) (d : t) : fvec :=
  if right then rightBuffer d else leftBuffer d.

(** What the loop writes to the line for an input and the delayed sample. *)
Definition written (fb : float) (ins outs : list float) : list float :=
  zip_with (fun x y : float => (x + y * fb)%f32) ins outs.

Lemma process_iter_channel (right : bool) dl dr l r d :
  let D := if right then dr else dl in
  let y := fv_get (buffer right d) (cmod (writeIndex d - D + bufferSize d) (bufferSize d)) in
  pick right (snd (process_iter dl dr l r d)) = y
  /\ buffer right (fst (process_iter dl dr l r d))
     = fv_set (buffer right d) (writeIndex d) (pick right (l, r) + y * feedback d)%f32
  /\ writeIndex (fst (process_iter dl dr l r d)) = cmod (writeIndex d + 1) (bufferSize d)
  /\ bufferSize (fst (process_iter dl dr l r d)) = bufferSize d
  /\ feedback (fst (process_iter dl dr l r d)) = feedback d.
Proof. destruct right; cbv zeta; unfold process_iter, pick, buffer; cbn; auto. Qed.

Lemma process_loop_channel (right : bool) dl dr ins : forall d h,
  let D := if right then dr else dl in
  1 <= D <= bufferSize d - 1 ->
  line (bufferSize d) (writeIndex d) (buffer right d) h ->
  let outs := map (pick right) (snd (process_loop dl dr ins d)) in
  length outs = length ins
  /\ forall n, (n < length ins)%nat ->
       nth n outs F32.zero
       = if size h + Z.of_nat n <? D then F32.zero
         else nth (Z.to_nat (size h + Z.of_nat n - D))
                  (h ++ written (feedback d) (map (pick right) ins) outs) F32.zero.
Proof.
  induction ins as [|[l r] ins IH]; intros d h D HD Hline; cbv zeta.
  - split; [reflexivity|]. intros n Hn. cbn in Hn. lia.
  - rewrite delay_loop_step.
    destruct (process_iter_channel right dl dr l r d) as (Hy & Hb & Hw & Hs & Hf).
    cbv zeta in Hy, Hb. fold D in Hy, Hb.
    rewrite (line_read _ _ _ _ D HD Hline) in Hy, Hb.
    set (y := if size h <? D then F32.zero
              else nth (Z.to_nat (size h - D)) h F32.zero) in *.
    destruct (process_iter dl dr l r d) as [d1 o]. cbn [fst snd] in *.
    specialize (IH d1 (h ++ [(pick right (l, r) + y * feedback d)%f32])).
    cbv zeta in IH. fold D in IH. rewrite Hs, Hw, Hb, Hf in IH.
    destruct IH as [Hlen Hnth]; [exact HD|apply line_write; [lia|exact Hline]|].
    destruct (process_loop dl dr ins d1) as [d2 os]. cbn [fst snd map] in *.
    rewrite Hy. split; [cbn [length]; now rewrite Hlen|].
    intros [|n] Hn.
    + cbn [nth]. rewrite Z.add_0_r. unfold y.
      destruct (size h <? D) eqn:E; [reflexivity|].
      apply Z.ltb_ge in E. rewrite app_nth1; [reflexivity|].
      unfold size in *. lia.
    + cbn [nth length] in *. rewrite Hnth by lia. rewrite size_snoc.
      replace (size h + 1 + Z.of_nat n) with (size h + Z.of_nat (S n)) by lia.
      destruct (size h + Z.of_nat (S n) <? D); [reflexivity|].
      unfold written. cbn [zip_with]. now rewrite <- app_assoc.
Qed.


(** A line nothing was written to: as constructed or after [clear]. *)
Definition empty (d : t) : Prop :=
  writeIndex d = 0
  /\ leftBuffer d = fv_zeros (bufferSize d)
  /\ rightBuffer d = fv_zeros (bufferSize d).

Lemma make_empty sr : empty (make sr).
Proof. repeat split. Qed.

Lemma clear_empty d : empty (clear d).
Proof. repeat split. Qed.

Lemma setDelayTime_empty l r d : empty d -> empty (setDelayTime l r d).
Proof. intros H. exact H. Qed.

Lemma setFeedback_empty fb d : empty d -> empty (setFeedback fb d).
Proof. intros H. exact H. Qed.

Lemma nth_written fb xs ys k :
  (k < length xs)%nat -> (k < length ys)%nat ->
  nth k (written fb xs ys) F32.zero
  = (nth k xs F32.zero + nth k ys F32.zero * fb)%f32.
Proof.
  unfold written. revert ys k. induction xs as [|x xs IH]; intros [|y ys] [|k];
    cbn [length zip_with nth]; intros Hx Hy; try lia; [reflexivity|].
  apply IH; lia.
Qed.

(** The time of one channel. *)
Definition delayTime (right : bool) (d : t) : float :=
  if right then delayTimeR d else delayTimeL d.

End DelayLine.

(** X18.  The stereo delay is, on each channel, a feedback delay line: from
    an empty line (as constructed or cleared, whatever times and feedback
    were set) of at least two cells, [process] returns one output per input,
    and output [n] is 0 for the first [D] samples and afterwards
    [in[n - D] + out[n - D] * feedback], where [D] is the delay in samples
    that [process] computes for the channel. *)
Theorem X18_delay_output_is_the_delayed_input_plus_feedback
    (right : bool) (d : Delay.t) (ins : list (float * float)) :
  2 <= Delay.bufferSize d -> DelayLine.empty d ->
  let D := DelayLine.delaySamples (DelayLine.delayTime right d) d in
  let xs := map (pick right) ins in
  let outs := map (pick right) (snd (Delay.process ins d)) in
  1 <= D <= Delay.bufferSize d - 1
  /\ length outs = length ins
  /\ forall n, (n < length ins)%nat ->
       nth n outs F32.zero
       = if Z.of_nat n <? D then F32.zero
         else (nth (Z.to_nat (Z.of_nat n - D)) xs F32.zero
               + nth (Z.to_nat (Z.of_nat n - D)) outs F32.zero * Delay.feedback d)%f32.
Proof.
  intros HS (Hw & Hl & Hr). cbv zeta.
  assert (1 <= DelayLine.delaySamples (DelayLine.delayTime right d) d
          <= Delay.bufferSize d - 1) as HD by (unfold DelayLine.delaySamples; lia).
  split; [exact HD|].
  assert (DelayLine.line (Delay.bufferSize d) (Delay.writeIndex d)
            (DelayLine.buffer right d) []) as Hline.
  { rewrite Hw. unfold DelayLine.buffer.
    destruct right; [rewrite Hr|rewrite Hl]; apply DelayLine.line_zeros; lia. }
  unfold Delay.process.
  pose proof (DelayLine.process_loop_channel right
                (DelayLine.delaySamples (Delay.delayTimeL d) d)
                (DelayLine.delaySamples (Delay.delayTimeR d) d) ins d []) as H.
  cbv zeta in H. unfold DelayLine.delaySamples in H at 1 2 3 4.
  unfold DelayLine.delaySamples, DelayLine.delayTime in *.
  destruct H as [Hlen Hnth].
  - destruct right; exact HD.
  - exact Hline.
  - split; [exact Hlen|]. intros n Hn.
    assert ((if right
             then Z.max 1 (Z.min (Delay.bufferSize d - 1)
                    (F32.to_int (Delay.delayTimeR d * Delay.sampleRate d)%f32))
             else Z.max 1 (Z.min (Delay.bufferSize d - 1)
                    (F32.to_int (Delay.delayTimeL d * Delay.sampleRate d)%f32)))
            = Z.max 1 (Z.min (Delay.bufferSize d - 1)
                (F32.to_int ((if right then Delay.delayTimeR d else Delay.delayTimeL d)
                             * Delay.sampleRate d)%f32))) as E
      by (destruct right; reflexivity).
    rewrite E in Hnth. rewrite (Hnth n Hn).
    unfold size. cbn [length Z.of_nat app]. rewrite Z.add_0_l.
    destruct (Z.ltb_spec (Z.of_nat n) (Z.max 1 (Z.min (Delay.bufferSize d - 1)
                (F32.to_int ((if right then Delay.delayTimeR d else Delay.delayTimeL d)
                             * Delay.sampleRate d)%f32)))) as [Hlt|Hge];
      [reflexivity|].
    apply DelayLine.nth_written; rewrite ?length_map, ?Hlen; try lia.
    rewrite length_map in Hlen. lia.
Qed.

(** A delay at 100 Hz (a line of 200 cells) with feedback 0.5 and the
    default time of a quarter of a second: the left channel of three
    samples. *)
Lemma X18_witness :
  2 <= Delay.bufferSize (Delay.setFeedback F32.c0_5 (Delay.make sr100))
  /\ DelayLine.empty (Delay.setFeedback F32.c0_5 (Delay.make sr100))
  /\ length (map (pick false)
               (snd (Delay.process [(F32.c1, F32.zero); (F32.zero, F32.c1);
                                    (F32.c1, F32.c1)]
                       (Delay.setFeedback F32.c0_5 (Delay.make sr100)))))
     = 3%nat.
Proof.
  split; [vm_compute; discriminate|]. split; [repeat split|].
  apply (X18_delay_output_is_the_delayed_input_plus_feedback false
           (Delay.setFeedback F32.c0_5 (Delay.make sr100))
           [(F32.c1, F32.zero); (F32.zero, F32.c1); (F32.c1, F32.c1)]).
  - vm_compute. discriminate.
  - repeat split.
Defined.
